(** * Elmer circuit builder: the Tableau-matrix assembly engine

    A shallow embedding of [elmer_circuitbuilder.py]: the component model,
    the incidence-matrix and branch-law builders in their numeric and
    string ("_str") versions, the Sparse Tableau assembly and the row
    swapping of [elmer_format_matrix], followed by the properties proved
    about them.

    Modelling conventions.
    - A Python exception is an [Err] result; the functions are otherwise
      pure (every builder allocates fresh arrays).
    - A two-dimensional NumPy array is a record holding its column count
      and the list of its rows; the row count is the length of that list.
    - Python floats are modelled by integers with the two special values
      the code can produce: the negative zero of [-np.eye] and the [nan]
      NumPy stores for [None]. The builders only store, negate and add
      numbers, all of which is exact on finite floats.
    - NumPy byte strings of dtype ['|S500'] are Rocq strings; storing into
      such an array keeps the first 500 bytes. *)

From Stdlib Require Import ZArith String Ascii Lia.
From stdpp Require Import base tactics option list strings numbers pretty.

(** ** Python exceptions as an error monad *)

Inductive pyerror := IndexError | ValueError | TypeError.

Inductive result (A : Type) :=
  | Ok (a : A)
  | Err (e : pyerror).
Arguments Ok {A} a.
Arguments Err {A} e.

#[global] Instance result_ret : MRet result := @Ok.
#[global] Instance result_bind : MBind result := fun A B f m =>
  match m with Ok a => f a | Err e => Err e end.

(** [for x in xs: s = body x s], stopping at the first exception. *)
Fixpoint for_each {X S : Type} (xs : list X) (body : X → S → result S) (s : S)
  : result S :=
  match xs with
  | [] => Ok s
  | x :: xs' => s' ← body x s; for_each xs' body s'
  end.

(** [l[i]] on a Python list, for an index that is not negative. *)
Definition getitem {A} (l : list A) (i : nat) : result A :=
  match l !! i with Some x => Ok x | None => Err IndexError end.

(** NumPy's resolution of an integer index against an axis of length [n]:
    negative indices count from the end. *)
Definition norm_index (n : nat) (i : Z) : result nat :=
  if decide (0 ≤ i < Z.of_nat n)%Z then Ok (Z.to_nat i)
  else if decide (- Z.of_nat n ≤ i < 0)%Z then Ok (Z.to_nat (i + Z.of_nat n))
  else Err IndexError.

(** A dimension [n - 1] handed to [np.zeros]: negative dimensions raise. *)
Definition dim_pred (n : nat) : result nat :=
  match n with O => Err ValueError | S k => Ok k end.

(** ** Numbers *)

Inductive float64 :=
  | Fin (z : Z)
  | NegZero
  | NaN.

#[global] Instance float64_eq_dec : EqDecision float64.
Proof. solve_decision. Defined.

Definition fadd (x y : float64) : float64 :=
  match x, y with
  | NaN, _ | _, NaN => NaN
  | NegZero, NegZero => NegZero
  | NegZero, Fin b => Fin b
  | Fin a, NegZero => Fin a
  | Fin a, Fin b => Fin (a + b)
  end.

Definition fneg (x : float64) : float64 :=
  match x with
  | Fin 0 => NegZero
  | Fin z => Fin (- z)
  | NegZero => Fin 0
  | NaN => NaN
  end.

(** [x != 0] and [x < 0] on floats. *)
Definition f_nonzero (x : float64) : bool :=
  match x with Fin z => negb (z =? 0)%Z | NegZero => false | NaN => true end.
Definition f_negative (x : float64) : bool :=
  match x with Fin z => (z <? 0)%Z | _ => false end.

Record complex128 := Complex { re : float64; im : float64 }.

#[global] Instance complex128_eq_dec : EqDecision complex128.
Proof. solve_decision. Defined.

Definition cadd (x y : complex128) : complex128 :=
  Complex (fadd (re x) (re y)) (fadd (im x) (im y)).
Definition c_nonzero (x : complex128) : bool := f_nonzero (re x) || f_nonzero (im x).
(** A negative real number. *)
Definition c_negative (x : complex128) : bool :=
  f_negative (re x) && negb (f_nonzero (im x)).

(** What the array operations need from a NumPy dtype. *)
Class Dtype (T : Type) := {
  dt_zero : T;
  dt_one : T;
  dt_add : T → T → T;
  dt_neg : T → T
}.

#[global] Instance float64_dtype : Dtype float64 :=
  {| dt_zero := Fin 0; dt_one := Fin 1; dt_add := fadd; dt_neg := fneg |}.
#[global] Instance complex128_dtype : Dtype complex128 :=
  {| dt_zero := Complex (Fin 0) (Fin 0); dt_one := Complex (Fin 1) (Fin 0);
     dt_add := cadd; dt_neg := fun x => Complex (fneg (re x)) (fneg (im x)) |}.

(** A component value as Python sees it: [None], a real number, or an
    instance of [complex]. *)
Inductive pyvalue :=
  | PyNone
  | PyReal (x : Z)
  | PyComplex (x y : Z).

(** Storing a Python value in a float64 array: [None] becomes [nan], a
    [complex] is refused. *)
Definition to_float (v : pyvalue) : result float64 :=
  match v with
  | PyNone => Ok NaN
  | PyReal x => Ok (Fin x)
  | PyComplex _ _ => Err TypeError
  end.

(** Unary minus on a Python value, then the store. *)
Definition neg_to_float (v : pyvalue) : result float64 :=
  match v with
  | PyNone => Err TypeError
  | PyReal x => Ok (fneg (Fin x))
  | PyComplex _ _ => Err TypeError
  end.

(** ** Two-dimensional arrays *)

Record ndarray (T : Type) := NdArray { nd_ncols : nat; nd_rows : list (list T) }.
Arguments NdArray {T} nd_ncols nd_rows.
Arguments nd_ncols {T} _.
Arguments nd_rows {T} _.

Definition nd_nrows {T} (A : ndarray T) : nat := length (nd_rows A).

(** [A.shape == (r, c)], every row having [c] cells. *)
Definition has_shape {T} (r c : nat) (A : ndarray T) : Prop :=
  length (nd_rows A) = r ∧ nd_ncols A = c ∧ Forall (fun row => length row = c) (nd_rows A).

Definition cell {T} (A : ndarray T) (i j : nat) : option T :=
  row ← nd_rows A !! i; row !! j.

Definition np_full {T} (r c : nat) (x : T) : ndarray T :=
  NdArray c (replicate r (replicate c x)).

Definition np_zeros {T} `{Dtype T} (r c : nat) : ndarray T := np_full r c dt_zero.

Definition np_eye {T} `{Dtype T} (n m : nat) : ndarray T :=
  NdArray m ((fun i => (fun j => if decide (i = j) then dt_one else dt_zero) <$> seq 0 m)
             <$> seq 0 n).

Definition np_map {T U} (f : T → U) (A : ndarray T) : ndarray U :=
  NdArray (nd_ncols A) ((fun row : list T => f <$> row) <$> nd_rows A).

Definition np_neg {T} `{Dtype T} (A : ndarray T) : ndarray T := np_map dt_neg A.

(** Cell by cell combination of two arrays; the code only combines arrays
    it has built with one and the same shape. *)
Definition np_zip_with {T U V} (f : T → U → V) (A : ndarray T) (B : ndarray U)
  : ndarray V :=
  NdArray (nd_ncols A) (zip_with (zip_with f) (nd_rows A) (nd_rows B)).

Definition np_add {T} `{Dtype T} (A B : ndarray T) : ndarray T := np_zip_with dt_add A B.

Definition column {T} (A : ndarray T) (j : nat) : list T :=
  nd_rows A ≫= (fun row => option_list (row !! j)).

Definition np_transpose {T} (A : ndarray T) : ndarray T :=
  NdArray (nd_nrows A) (column A <$> seq 0 (nd_ncols A)).

(** [A[i][j] = v] *)
Definition setitem {T} (A : ndarray T) (i j : Z) (v : T) : result (ndarray T) :=
  i' ← norm_index (nd_nrows A) i;
  j' ← norm_index (nd_ncols A) j;
  Ok (NdArray (nd_ncols A) (alter (fun row => <[j' := v]> row) i' (nd_rows A))).

(** [A[i] = v]: the whole row takes the value. *)
Definition setrow {T} (A : ndarray T) (i : Z) (v : T) : result (ndarray T) :=
  i' ← norm_index (nd_nrows A) i;
  Ok (NdArray (nd_ncols A) (<[i' := replicate (nd_ncols A) v]> (nd_rows A))).

(** [np.delete(A, k, 0)] *)
Definition np_delete_row {T} (A : ndarray T) (k : Z) : result (ndarray T) :=
  k' ← norm_index (nd_nrows A) k;
  Ok (NdArray (nd_ncols A) (delete k' (nd_rows A))).

(** [np.block([A, B])]: side by side; the row counts must agree. *)
Definition hstack {T} (A B : ndarray T) : result (ndarray T) :=
  if decide (nd_nrows A = nd_nrows B)
  then Ok (NdArray (nd_ncols A + nd_ncols B) (zip_with app (nd_rows A) (nd_rows B)))
  else Err ValueError.

(** [np.block([[A], [B]])]: one above the other; the column counts must agree. *)
Definition vstack {T} (A B : ndarray T) : result (ndarray T) :=
  if decide (nd_ncols A = nd_ncols B)
  then Ok (NdArray (nd_ncols A) (nd_rows A ++ nd_rows B))
  else Err ValueError.

Definition hstack3 {T} (A B C : ndarray T) : result (ndarray T) :=
  AB ← hstack A B; hstack AB C.
Definition vstack3 {T} (A B C : ndarray T) : result (ndarray T) :=
  AB ← vstack A B; vstack AB C.

(** ** Components *)

Inductive pyclass :=
  | ClsComponent | ClsR | ClsV | ClsI | ClsL | ClsC | ClsElmerComponent.

#[global] Instance pyclass_eq_dec : EqDecision pyclass.
Proof. solve_decision. Defined.

Record Component := mkComponent {
  cls : pyclass;
  name : string;
  pin1 : Z;
  pin2 : Z;
  value : pyvalue
}.

(** ** Graph quantities *)

Definition get_num_nodes (components : list Component) : nat :=
  length (foldl (fun unique_nodes component =>
                   let u1 := if decide (pin1 component ∈ unique_nodes) then unique_nodes
                             else unique_nodes ++ [pin1 component] in
                   if decide (pin2 component ∈ u1) then u1 else u1 ++ [pin2 component])
                [] components).

Definition get_num_edges (components : list Component) : nat := length components.

(** [[components[i].pin - 1 for i in range(0, num_edges)]] *)
Definition pin_indices (pin : Component → Z) (components : list Component)
    (num_edges : nat) : result (list Z) :=
  mapM (fun i => c ← getitem components i; Ok (pin c - 1)%Z) (seq 0 num_edges).

(** The indices at which [isinstance(comp, k)] holds, in list order: the
    single pass of [get_indices] makes six such independent selections. *)
Definition isinstance_indices (k : pyclass) (components : list Component) : list nat :=
  fst <$> filter (fun p => cls (snd p) = k) (imap (fun i comp => (i, comp)) components).

(** Returns [(indr, indv, indi, indInd, indcap, indcelm)]. *)
Definition get_indices (components : list Component)
  : list nat * list nat * list nat * list nat * list nat * list nat :=
  (isinstance_indices ClsR components, isinstance_indices ClsV components,
   isinstance_indices ClsI components, isinstance_indices ClsL components,
   isinstance_indices ClsC components, isinstance_indices ClsElmerComponent components).

(** ** Byte strings *)

(** What an array of dtype ['|S500'] keeps of an assigned string. *)
Definition bytes500 (s : string) : string := substring 0 500 s.

(** ** Incidence matrix *)

Definition get_incidence_matrix (components : list Component)
    (num_nodes num_edges : nat) (n_ref : Z) : result (ndarray float64) :=
  n1_index ← pin_indices pin1 components num_edges;
  n2_index ← pin_indices pin2 components num_edges;
  let plus_terminal := seq 0 num_edges in
  let minus_terminal := seq 0 num_edges in
  let Amat_plus := np_zeros num_nodes num_edges in
  let Amat_minus := np_zeros num_nodes num_edges in
  Amat_plus ← for_each (zip n1_index plus_terminal)
    (fun '(i, j) A => setitem A i (Z.of_nat j) (Fin 1)) Amat_plus;
  Amat_minus ← for_each (zip n2_index minus_terminal)
    (fun '(i, j) A => setitem A i (Z.of_nat j) (Fin (-1))) Amat_minus;
  let Amat_comp := np_add Amat_plus Amat_minus in
  np_delete_row Amat_comp (n_ref - 1).

Definition get_incidence_matrix_str (components : list Component)
    (numnodes numedges : nat) (n_ref : Z) : result (ndarray string) :=
  n1_index ← pin_indices pin1 components numedges;
  n2_index ← pin_indices pin2 components numedges;
  let plus_terminal := seq 0 numedges in
  let minus_terminal := seq 0 numedges in
  let Amat_plus_str := np_full numnodes numedges ""%string in
  let Amat_minus_str := np_full numnodes numedges ""%string in
  Amat_plus_str ← for_each (zip n1_index plus_terminal)
    (fun '(i, j) A => setitem A i (Z.of_nat j) (bytes500 "1")) Amat_plus_str;
  Amat_minus_str ← for_each (zip n2_index minus_terminal)
    (fun '(i, j) A => setitem A i (Z.of_nat j) (bytes500 "-1")) Amat_minus_str;
  let Amat_comp_str := np_zip_with String.append Amat_plus_str Amat_minus_str in
  np_delete_row Amat_comp_str (n_ref - 1).

(** ** Branch-law matrices *)

Definition get_resistance_matrix (components : list Component) (nedges : nat)
    (indr indi indcap : list nat) : result (ndarray float64) :=
  let Rmat_r := np_zeros nedges nedges in
  let Rmat_i := np_zeros nedges nedges in
  let Rmat_cap := np_zeros nedges nedges in
  Rmat_r ← for_each indr
    (fun i M => c ← getitem components i; v ← to_float (value c);
                setitem M (Z.of_nat i) (Z.of_nat i) v) Rmat_r;
  Rmat_i ← for_each indi
    (fun i M => setitem M (Z.of_nat i) (Z.of_nat i) (Fin 1)) Rmat_i;
  Rmat_cap ← for_each indcap
    (fun i M => setitem M (Z.of_nat i) (Z.of_nat i) (Fin 1)) Rmat_cap;
  Ok (np_add (np_add Rmat_r Rmat_i) Rmat_cap).

Definition get_resistance_matrix_str (components : list Component) (nedges : nat)
    (indr indi indcap : list nat) : result (ndarray string) :=
  let Rmat_r_str := np_full nedges nedges ""%string in
  let Rmat_i_str := np_full nedges nedges ""%string in
  let Rmat_cap_str := np_full nedges nedges ""%string in
  Rmat_r_str ← for_each indr
    (fun i M => c ← getitem components i;
                setitem M (Z.of_nat i) (Z.of_nat i) (bytes500 (name c))) Rmat_r_str;
  Rmat_i_str ← for_each indi
    (fun i M => setitem M (Z.of_nat i) (Z.of_nat i) (bytes500 "1")) Rmat_i_str;
  Rmat_cap_str ← for_each indcap
    (fun i M => setitem M (Z.of_nat i) (Z.of_nat i) (bytes500 "1")) Rmat_cap_str;
  Ok (np_zip_with String.append (np_zip_with String.append Rmat_r_str Rmat_i_str)
        Rmat_cap_str).

Definition get_conductance_matrix (nedges : nat) (indr indv indInd : list nat)
  : result (ndarray float64) :=
  let Gmat_r := np_zeros nedges nedges in
  let Gmat_v := np_zeros nedges nedges in
  let Gmat_ind := np_zeros nedges nedges in
  Gmat_r ← for_each indr
    (fun i M => setitem M (Z.of_nat i) (Z.of_nat i) (Fin (-1))) Gmat_r;
  Gmat_v ← for_each indv
    (fun i M => setitem M (Z.of_nat i) (Z.of_nat i) (Fin 1)) Gmat_v;
  Gmat_ind ← for_each indInd
    (fun i M => setitem M (Z.of_nat i) (Z.of_nat i) (Fin 1)) Gmat_ind;
  Ok (np_add (np_add Gmat_r Gmat_v) Gmat_ind).

Definition get_conductance_matrix_str (nedges : nat) (indr indv indInd : list nat)
  : result (ndarray string) :=
  let Gmat_r_str := np_full nedges nedges ""%string in
  let Gmat_v_str := np_full nedges nedges ""%string in
  let Gmat_ind_str := np_full nedges nedges ""%string in
  Gmat_r_str ← for_each indr
    (fun i M => setitem M (Z.of_nat i) (Z.of_nat i) (bytes500 "-1")) Gmat_r_str;
  Gmat_v_str ← for_each indv
    (fun i M => setitem M (Z.of_nat i) (Z.of_nat i) (bytes500 "1")) Gmat_v_str;
  Gmat_ind_str ← for_each indInd
    (fun i M => setitem M (Z.of_nat i) (Z.of_nat i) (bytes500 "1")) Gmat_ind_str;
  Ok (np_zip_with String.append (np_zip_with String.append Gmat_r_str Gmat_v_str)
        Gmat_ind_str).

Definition get_inductance_matrix (components : list Component) (nedges : nat)
    (indInd : list nat) : result (ndarray float64) :=
  for_each indInd
    (fun i M => c ← getitem components i; v ← neg_to_float (value c);
                setitem M (Z.of_nat i) (Z.of_nat i) v)
    (np_zeros nedges nedges).

Definition get_inductance_matrix_str (components : list Component) (nedges : nat)
    (indInd : list nat) : result (ndarray string) :=
  for_each indInd
    (fun i M => c ← getitem components i;
                setitem M (Z.of_nat i) (Z.of_nat i) (bytes500 ("-" +:+ name c)))
    (np_full nedges nedges ""%string).

Definition get_capacitance_matrix (components : list Component) (nedges : nat)
    (indcap : list nat) : result (ndarray float64) :=
  for_each indcap
    (fun i M => c ← getitem components i; v ← neg_to_float (value c);
                setitem M (Z.of_nat i) (Z.of_nat i) v)
    (np_zeros nedges nedges).

Definition get_capacitance_matrix_str (components : list Component) (nedges : nat)
    (indcap : list nat) : result (ndarray string) :=
  for_each indcap
    (fun i M => c ← getitem components i;
                setitem M (Z.of_nat i) (Z.of_nat i) (bytes500 ("-" +:+ name c)))
    (np_full nedges nedges ""%string).

(** ** Source vector *)

(** The state of one source loop of [get_rhs]: the real and imaginary
    accumulators, unbound while [complex_switch] is still [True], and the
    vector under construction. The vector is kept with complex cells
    throughout; NumPy keeps it as float64 until a complex source is met,
    with the same numbers in it. *)
Definition rhs_state : Type :=
  option (ndarray float64 * ndarray float64) * ndarray complex128.

(** One source loop of [get_rhs]. The two loops are the same text up to
    the sign: [negate] is [false] for the current sources ([indi]) and
    [true] for the voltage sources ([indv]). *)
Definition rhs_loop (negate : bool) (components : list Component)
    (nedges : nat) (ind : list nat) : result (ndarray complex128) :=
  let sgn (x : float64) := if negate then fneg x else x in
  st ← for_each ind
    (fun i (st : rhs_state) =>
       c ← getitem components i;
       match value c with
       | PyComplex x y =>
           let '(rhs_re, rhs_im) :=
             match fst st with
             | None => (np_zeros nedges 1, np_zeros nedges 1)
             | Some acc => acc
             end in
           rhs_re ← setrow rhs_re (Z.of_nat i) (sgn (Fin x));
           rhs_im ← setrow rhs_im (Z.of_nat i) (sgn (Fin y));
           Ok (Some (rhs_re, rhs_im), np_zip_with Complex rhs_re rhs_im)
       | v =>
           x ← (if negate then neg_to_float v else to_float v);
           rhs ← setrow (snd st) (Z.of_nat i) (Complex x (Fin 0));
           Ok (fst st, rhs)
       end)
    (None, np_zeros nedges 1);
  Ok (snd st).

Definition get_rhs (components : list Component) (nedges : nat)
    (indi indv : list nat) : result (ndarray complex128) :=
  rhs_i ← rhs_loop false components nedges indi;
  rhs_v ← rhs_loop true components nedges indv;
  Ok (np_add rhs_v rhs_i).

Definition get_rhs_str (components : list Component) (nedges : nat)
    (indi indv : list nat) : result (ndarray string) :=
  let rhs_v_str := np_full nedges 1 ""%string in
  let rhs_i_str := np_full nedges 1 ""%string in
  rhs_i_str ← for_each indi
    (fun i M => c ← getitem components i;
                setrow M (Z.of_nat i) (bytes500 (name c))) rhs_i_str;
  rhs_v_str ← for_each indv
    (fun i M => c ← getitem components i;
                setrow M (Z.of_nat i) (bytes500 ("-" +:+ name c))) rhs_v_str;
  Ok (np_zip_with String.append rhs_v_str rhs_i_str).

(** ** Sparse Tableau assembly *)

Definition get_tableau_matrix {T U} `{Dtype T} `{Dtype U}
    (Amat Rmat Gmat Lmat Cmat : ndarray T) (fvec : ndarray U)
    (num_nodes num_edges : nat) : result (ndarray T * ndarray T * ndarray U) :=
  n1 ← dim_pred num_nodes;
  M_kcl ← hstack3 Amat (np_zeros n1 num_edges) (np_zeros n1 n1);
  M_kvl ← hstack3 (np_zeros num_edges num_edges) (np_neg (np_eye num_edges num_edges))
                  (np_transpose Amat);
  M_comp ← hstack3 Rmat Gmat (np_zeros num_edges n1);
  Mmat1 ← vstack3 M_kcl M_kvl M_comp;
  bvec ← vstack3 (np_zeros n1 1) (np_zeros num_edges 1) fvec;
  M_dyn ← hstack3 Lmat Cmat (np_zeros num_edges n1);
  Mmat2 ← vstack (np_zeros (num_edges + n1) (2 * num_edges + n1)) M_dyn;
  Ok (Mmat1, Mmat2, bvec).

(** The text NumPy gives a float that is stacked with byte strings. *)
Definition repr_float (x : float64) : string :=
  match x with
  | Fin z => pretty z +:+ ".0"
  | NegZero => "-0.0"
  | NaN => "nan"
  end.

Definition astype_str (A : ndarray float64) : ndarray string := np_map repr_float A.

(** [s == '' or s == '0.0' or s == '-0.0'] *)
Definition is_blank_zero (s : string) : bool :=
  bool_decide (s = ""%string) || bool_decide (s = "0.0"%string)
  || bool_decide (s = "-0.0"%string).

Definition normalize_zero (s : string) : string :=
  if is_blank_zero s then "0"%string else s.

(** The three tests the cleanup loops of [get_tableau_matrix_str] make on
    one cell, in their order. *)
Definition normalize_cell (s : string) : string :=
  let s1 := if is_blank_zero s then "0"%string else s in
  let s2 := if bool_decide (s1 = "-1.0"%string) then "-1"%string else s1 in
  if bool_decide (s2 = "1.0"%string) then "1"%string else s2.

(** The assignment to [fvec_str] is on the caller's array; no caller reads
    it again, and the model returns the three results only. *)
Definition get_tableau_matrix_str (Amat_str Rmat_str Gmat_str Lmat_str Cmat_str
    fvec_str : ndarray string) (numnodes numedges : nat)
  : result (ndarray string * ndarray string * ndarray string) :=
  n1 ← dim_pred numnodes;
  M_kcl_str ← hstack3 Amat_str (astype_str (np_zeros n1 numedges))
                      (astype_str (np_zeros n1 n1));
  M_kvl_str ← hstack3 (astype_str (np_zeros numedges numedges))
                      (astype_str (np_neg (np_eye numedges numedges)))
                      (np_transpose Amat_str);
  M_comp_str ← hstack3 Rmat_str Gmat_str (astype_str (np_zeros numedges n1));
  Mmat1_str ← vstack3 M_kcl_str M_kvl_str M_comp_str;
  fvec_rows ← mapM (fun row : list string =>
                      match row with
                      | [x] => Ok [normalize_zero x]
                      | _ => Err ValueError
                      end) (nd_rows fvec_str);
  let fvec_str := NdArray (nd_ncols fvec_str) fvec_rows in
  bvec_str ← vstack3 (astype_str (np_zeros n1 1)) (astype_str (np_zeros numedges 1))
                     fvec_str;
  bvec_rows ← mapM (fun row : list string =>
                      match row with
                      | x :: rest => Ok (normalize_zero x :: rest)
                      | [] => Err IndexError
                      end) (nd_rows bvec_str);
  let bvec_str := NdArray (nd_ncols bvec_str) bvec_rows in
  M_dyn_str ← hstack3 Lmat_str Cmat_str (astype_str (np_zeros numedges n1));
  Mmat2_str ← vstack (astype_str (np_zeros (numedges + n1) (2 * numedges + n1)))
                     M_dyn_str;
  Ok (np_map normalize_cell Mmat1_str, np_map normalize_cell Mmat2_str, bvec_str).

(** ** Row reordering *)

(** [A[[z, v]] = A[[v, z]]]: the right-hand side is a copy, so the two rows
    are exchanged. *)
Definition swap_rows {T} (A : ndarray T) (z v : nat) : result (ndarray T) :=
  row_v ← getitem (nd_rows A) v;
  row_z ← getitem (nd_rows A) z;
  Ok (NdArray (nd_ncols A) (<[v := row_z]> (<[z := row_v]> (nd_rows A)))).

(** Returns [(elmer_Amat, elmer_Bmat, elmer_source)]. *)
Definition elmer_format_matrix {T} (M1_str M2_str b_str : ndarray T)
    (vcomp_rows zero_rows : list nat)
  : result (ndarray T * ndarray T * ndarray T) :=
  let elmer_Bmat := M1_str in
  let elmer_source := b_str in
  let elmer_Amat := M2_str in
  '(elmer_Bmat, elmer_Amat, elmer_source) ←
    for_each (zip zero_rows vcomp_rows)
      (fun '(zrow, vcomprow) '(elmer_Bmat, elmer_Amat, elmer_source) =>
         elmer_Bmat ← swap_rows elmer_Bmat zrow vcomprow;
         elmer_Amat ← swap_rows elmer_Amat zrow vcomprow;
         elmer_source ← swap_rows elmer_source zrow vcomprow;
         Ok (elmer_Bmat, elmer_Amat, elmer_source))
      (elmer_Bmat, elmer_Amat, elmer_source);
  Ok (elmer_Amat, elmer_Bmat, elmer_source).

(** ** The two tracks, as [solve_circuit] and [generate_elmer_circuits]
    chain the builders

    Both callers pass [get_num_nodes components] and
    [get_num_edges components]; the counts are kept as parameters here, as
    the builders have them. *)

Record matrices (T U : Type) := Matrices {
  m_A : ndarray T; m_R : ndarray T; m_G : ndarray T; m_L : ndarray T;
  m_C : ndarray T; m_f : ndarray U;
  m_M1 : ndarray T; m_M2 : ndarray T; m_b : ndarray U
}.
Arguments Matrices {T U}.
Arguments m_A {T U}.
Arguments m_R {T U}.
Arguments m_G {T U}.
Arguments m_L {T U}.
Arguments m_C {T U}.
Arguments m_f {T U}.
Arguments m_M1 {T U}.
Arguments m_M2 {T U}.
Arguments m_b {T U}.

Definition numeric_track (components : list Component) (num_nodes num_edges : nat)
    (ref_node : Z) : result (matrices float64 complex128) :=
  let '(indr, indv, indi, indInd, indcap, indcelm) := get_indices components in
  A ← get_incidence_matrix components num_nodes num_edges ref_node;
  R ← get_resistance_matrix components num_edges indr indi indcap;
  G ← get_conductance_matrix num_edges indr indv indInd;
  L ← get_inductance_matrix components num_edges indInd;
  C ← get_capacitance_matrix components num_edges indcap;
  f ← get_rhs components num_edges indi indv;
  '(M1, M2, b) ← get_tableau_matrix A R G L C f num_nodes num_edges;
  Ok (Matrices A R G L C f M1 M2 b).

Definition symbolic_track (components : list Component) (num_nodes num_edges : nat)
    (ref_node : Z) : result (matrices string string) :=
  let '(indr, indv, indi, indInd, indcap, indcelm) := get_indices components in
  A_str ← get_incidence_matrix_str components num_nodes num_edges ref_node;
  R_str ← get_resistance_matrix_str components num_edges indr indi indcap;
  G_str ← get_conductance_matrix_str num_edges indr indv indInd;
  L_str ← get_inductance_matrix_str components num_edges indInd;
  C_str ← get_capacitance_matrix_str components num_edges indcap;
  f_str ← get_rhs_str components num_edges indi indv;
  '(M1_str, M2_str, b_str) ←
    get_tableau_matrix_str A_str R_str G_str L_str C_str f_str num_nodes num_edges;
  Ok (Matrices A_str R_str G_str L_str C_str f_str M1_str M2_str b_str).

(** ** The field-coupled component and its terminal state

    The object state of [ElmerComponent] with the two methods that write the
    terminal state and the two getters that read it. The coil-type setters
    ([massive], [stranded], [foil], [is3D]) write other fields only. *)

Module ElmerComponent.

Record t := mk {
  base : Component;
  component_number : Z;
  master_bodies : list (Z + string);
  sector : Z;
  dimension : string;
  coil_type : string;
  is_closed : option bool;
  number_turns : Z;
  resistance : Z;
  coil_thickness : Z;
  bnd1 : option Z;
  bnd2 : option Z
}.

(** [ElmerComponent(name, pin1, pin2, component_number, master_body_list, sector)] *)
Definition init (name : string) (pin1 pin2 : Z) (component_number : Z)
    (master_body_list : list (Z + string)) (sector : Z) : t :=
  {| base := mkComponent ClsElmerComponent name pin1 pin2 PyNone;
     component_number := component_number;
     master_bodies := master_body_list;
     sector := sector;
     dimension := "2D";
     coil_type := "Massive";
     is_closed := None;
     number_turns := 1;
     resistance := 0;
     coil_thickness := 0;
     bnd1 := None;
     bnd2 := None |}.

Definition set_is_closed (b : bool) (self : t) : t :=
  {| base := base self; component_number := component_number self;
     master_bodies := master_bodies self;
     sector := sector self; dimension := dimension self;
     coil_type := coil_type self; is_closed := Some b;
     number_turns := number_turns self; resistance := resistance self;
     coil_thickness := coil_thickness self;
     bnd1 := bnd1 self; bnd2 := bnd2 self |}.

Definition set_bnds (b1 b2 : option Z) (self : t) : t :=
  {| base := base self; component_number := component_number self;
     master_bodies := master_bodies self;
     sector := sector self; dimension := dimension self;
     coil_type := coil_type self; is_closed := is_closed self;
     number_turns := number_turns self; resistance := resistance self;
     coil_thickness := coil_thickness self;
     bnd1 := b1; bnd2 := b2 |}.

(** Each method returns the updated object and the value it returns. *)
Definition isClosed (self : t) : t * bool :=
  (set_is_closed true self, true).

Definition isOpen (b1 b2 : option Z) (self : t) : t * bool :=
  (set_is_closed false (set_bnds b1 b2 self), false).

Definition getOpenTerminals (self : t) : list (option Z) := [bnd1 self; bnd2 self].

Definition getTerminalType (self : t) : option bool := is_closed self.

Inductive call :=
  | CallIsClosed
  | CallIsOpen (b1 b2 : option Z).

Definition step (self : t) (c : call) : t :=
  match c with
  | CallIsClosed => fst (isClosed self)
  | CallIsOpen b1 b2 => fst (isOpen b1 b2 self)
  end.

Definition run (calls : list call) (self : t) : t := foldl step self calls.

(** Closed, and yet boundary ids on show. *)
Definition closed_with_boundaries (self : t) : Prop :=
  getTerminalType self = Some true ∧ getOpenTerminals self ≠ [None; None].

End ElmerComponent.

(** ** The incidence matrix as the specification words it *)

(** Row [r] of the matrix without the reference row is row
    [shift_row k r] of the full one, [k] being the deleted row. *)
Definition shift_row (k r : nat) : nat := if decide (r < k) then r else S r.

(** The entry of component [c] at row [r] of the full matrix: [p] where the
    positive terminal maps, [m] where the negative one does, the two
    contributions combined by [comb]. *)
Definition incidence_entry {T} (z p m : T) (comb : T → T → T) (c : Component)
    (r : nat) : T :=
  comb (if decide (pin1 c - 1 = Z.of_nat r)%Z then p else z)
       (if decide (pin2 c - 1 = Z.of_nat r)%Z then m else z).

(** [+1] at row [pin1 - 1] and [-1] at row [pin2 - 1] of each component's
    column, entries adding up, the row of the reference node left out. *)
Definition incidence_spec (components : list Component) (num_nodes : nat) (n_ref : Z)
  : ndarray float64 :=
  NdArray (length components)
    ((fun r => (fun c => incidence_entry (Fin 0) (Fin 1) (Fin (-1)) fadd c
                           (shift_row (Z.to_nat (n_ref - 1)) r)) <$> components)
     <$> seq 0 (num_nodes - 1)).

(** Every terminal id is one of [1 .. num_nodes]. *)
Definition pins_in_range (components : list Component) (num_nodes : nat) : Prop :=
  ∀ c, c ∈ components →
       (1 ≤ pin1 c ≤ Z.of_nat num_nodes)%Z ∧ (1 ≤ pin2 c ≤ Z.of_nat num_nodes)%Z.

(** The sum of column [j]. *)
Definition column_sum (A : ndarray float64) (j : nat) : float64 :=
  foldr fadd (Fin 0) (column A j).

Definition sumZ (l : list Z) : Z := foldr Z.add 0%Z l.

(** The integer entry of component [c] at row [r] of the full matrix. *)
Definition entry_z (c : Component) (r : nat) : Z :=
  ((if decide (pin1 c - 1 = Z.of_nat r) then 1 else 0)
   - (if decide (pin2 c - 1 = Z.of_nat r) then 1 else 0))%Z.

(** What is left of a column's sum once the reference row is gone. *)
Definition reduced_column_sum (c : Component) (n_ref : Z) : Z :=
  ((if decide (pin2 c = n_ref) then 1 else 0)
   - (if decide (pin1 c = n_ref) then 1 else 0))%Z.

(** ** The tableau blocks as the specification words them *)

(** Cell [(i, j)] of [[A, 0, 0], [0, -I, A^T], [R, G, 0]], the row blocks
    being [num_nodes - 1], [num_edges], [num_edges] high and the column
    blocks [num_edges], [num_edges], [num_nodes - 1] wide. *)
Definition stiffness_block_cell {T} `{Dtype T} (Amat Rmat Gmat : ndarray T)
    (num_nodes num_edges i j : nat) : option T :=
  let n1 := num_nodes - 1 in
  if decide (i < n1) then
    if decide (j < num_edges) then cell Amat i j else Some dt_zero
  else if decide (i < n1 + num_edges) then
    if decide (j < num_edges) then Some dt_zero
    else if decide (j < num_edges + num_edges) then
      Some (dt_neg (if decide (i - n1 = j - num_edges) then dt_one else dt_zero))
    else cell Amat (j - (num_edges + num_edges)) (i - n1)
  else
    if decide (j < num_edges) then cell Rmat (i - (n1 + num_edges)) j
    else if decide (j < num_edges + num_edges) then
      cell Gmat (i - (n1 + num_edges)) (j - num_edges)
    else Some dt_zero.

(** Cell [(i, j)] of the matrix that is zero except for its bottom row
    block [[L, C, 0]]. *)
Definition damping_block_cell {T} `{Dtype T} (Lmat Cmat : ndarray T)
    (num_nodes num_edges i j : nat) : option T :=
  let n1 := num_nodes - 1 in
  if decide (i < n1 + num_edges) then Some dt_zero
  else
    if decide (j < num_edges) then cell Lmat (i - (n1 + num_edges)) j
    else if decide (j < num_edges + num_edges) then
      cell Cmat (i - (n1 + num_edges)) (j - num_edges)
    else Some dt_zero.

(** Row [i] of [[0; 0; fvec]]. *)
Definition source_block_cell {U} `{Dtype U} (fvec : ndarray U)
    (num_nodes num_edges i : nat) : option U :=
  let n1 := num_nodes - 1 in
  if decide (i < n1 + num_edges) then Some dt_zero
  else cell fvec (i - (n1 + num_edges)) 0.

(** ** Row exchanges as index maps *)

(** Where row [i] comes from when rows [z] and [v] are exchanged. *)
Definition swap_index (z v i : nat) : nat :=
  if decide (i = v) then z else if decide (i = z) then v else i.

(** Where row [i] comes from after the exchanges of [pairs], made in list
    order, and the inverse map. *)
Fixpoint perm_of (pairs : list (nat * nat)) (i : nat) : nat :=
  match pairs with
  | [] => i
  | (z, v) :: rest => swap_index z v (perm_of rest i)
  end.

Fixpoint inv_of (pairs : list (nat * nat)) (i : nat) : nat :=
  match pairs with
  | [] => i
  | (z, v) :: rest => inv_of rest (swap_index z v i)
  end.

(** ** The branch-law matrices as the specification words them *)

(** The value of the component at index [i], as a float. *)
Definition real_value_at (components : list Component) (i : nat) : float64 :=
  match components !! i with
  | Some c => match value c with PyReal x => Fin x | _ => NaN end
  | None => NaN
  end.

(** The component at index [i] exists and its value is a real number. *)
Definition has_real_value (components : list Component) (i : nat) : Prop :=
  ∃ c x, components !! i = Some c ∧ value c = PyReal x.

(** A diagonal matrix: [d i] at [(i, i)], zero off the diagonal. *)
Definition diag_entry (d : nat → float64) (i j : nat) : float64 :=
  if decide (i = j) then d i else Fin 0.

Definition resistance_diag (components : list Component) (indr indi indcap : list nat)
    (i : nat) : float64 :=
  if decide (i ∈ indr) then real_value_at components i
  else if decide (i ∈ indi) then Fin 1
  else if decide (i ∈ indcap) then Fin 1
  else Fin 0.

Definition conductance_diag (indr indv indInd : list nat) (i : nat) : float64 :=
  if decide (i ∈ indr) then Fin (-1)
  else if decide (i ∈ indv) then Fin 1
  else if decide (i ∈ indInd) then Fin 1
  else Fin 0.

(** The negated value at the indices of [ind], zero elsewhere: the
    diagonal of the inductance and of the capacitance matrix. *)
Definition negated_value_diag (components : list Component) (ind : list nat)
    (i : nat) : float64 :=
  if decide (i ∈ ind) then fneg (real_value_at components i) else Fin 0.

Definition disjoint_lists (l k : list nat) : Prop := ∀ i, i ∈ l → i ∉ k.

(** ** Track agreement *)

(** The tokens the code itself takes for zero: the empty cell of a freshly
    initialised string matrix, the canonical ["0"], and the texts of the
    float zeros. *)
Definition zero_token (s : string) : bool :=
  bool_decide (s = ""%string) || bool_decide (s = "0"%string)
  || bool_decide (s = "0.0"%string) || bool_decide (s = "-0.0"%string).

Definition leading_minus (s : string) : bool :=
  match s with
  | String "-"%char _ => true
  | _ => false
  end.

(** A numeric cell and a text cell agree: the token is a zero token exactly
    when the number is zero, and it starts with ['-'] exactly when the number
    is negative. *)
Definition agree (x : float64) (s : string) : Prop :=
  zero_token s = negb (f_nonzero x) ∧ leading_minus s = f_negative x.

Definition agree_complex (x : complex128) (s : string) : Prop :=
  zero_token s = negb (c_nonzero x) ∧ leading_minus s = c_negative x.

(** Agreement before the cleanup loops, where the text of a float zero may
    still carry the sign of a negative zero. *)
Definition agree_raw (x : float64) (s : string) : Prop :=
  zero_token s = negb (f_nonzero x)
  ∧ leading_minus s && negb (zero_token s) = f_negative x.

(** Two arrays of one shape whose cells are related one by one. *)
Definition arrays_agree {T} (rel : T → string → Prop) (N : ndarray T)
    (S : ndarray string) : Prop :=
  nd_ncols N = nd_ncols S ∧ Forall2 (Forall2 rel) (nd_rows N) (nd_rows S).

(** The same, read cell by cell on arrays of shape [r x c]. *)
Definition cells_agree {T} (rel : T → string → Prop) (r c : nat) (N : ndarray T)
    (S : ndarray string) : Prop :=
  has_shape r c N ∧ has_shape r c S
  ∧ ∀ i j, i < r → j < c → ∃ x s, cell N i j = Some x ∧ cell S i j = Some s ∧ rel x s.

(** A name that fits its cell and reads as a positive symbol. *)
Definition plain_name (s : string) : Prop :=
  String.length s < 500 ∧ leading_minus s = false ∧ zero_token s = false.

(** A resistor, source, inductor or capacitor has a positive real value and
    a plain name. *)
Definition positive_component (c : Component) : Prop :=
  match cls c with
  | ClsComponent | ClsElmerComponent => True
  | _ => (∃ x, value c = PyReal x ∧ (0 < x)%Z) ∧ plain_name (name c)
  end.

Definition name_at (components : list Component) (i : nat) : string :=
  match components !! i with
  | Some c => name c
  | None => ""%string
  end.

(** The float blocks of the string tableau read as a dtype of their own:
    the texts of [0.0] and [1.0], and the sign put in front by negation. *)
Definition text_dtype : Dtype string :=
  {| dt_zero := "0.0"%string; dt_one := "1.0"%string; dt_add := String.append;
     dt_neg := fun s => ("-" +:+ s)%string |}.

(** The six index lists of [get_indices], each with its class. *)
Definition indices_by_class (components : list Component) : list (pyclass * list nat) :=
  let '(indr, indv, indi, indInd, indcap, indcelm) := get_indices components in
  [(ClsR, indr); (ClsV, indv); (ClsI, indi); (ClsL, indInd); (ClsC, indcap);
   (ClsElmerComponent, indcelm)].

(** ** Branch-law coefficients by class *)

Definition value_float (c : Component) : float64 :=
  match value c with PyReal x => Fin x | _ => NaN end.

Definition resistance_of (c : Component) : float64 :=
  match cls c with
  | ClsR => value_float c
  | ClsI | ClsC => Fin 1
  | _ => Fin 0
  end.

Definition conductance_of (c : Component) : float64 :=
  match cls c with
  | ClsR => Fin (-1)
  | ClsV | ClsL => Fin 1
  | _ => Fin 0
  end.

Definition inductance_of (c : Component) : float64 :=
  match cls c with ClsL => fneg (value_float c) | _ => Fin 0 end.

Definition capacitance_of (c : Component) : float64 :=
  match cls c with ClsC => fneg (value_float c) | _ => Fin 0 end.

(** ** Branch-law tokens by class *)

(** The diagonal tokens of a component in the symbolic resistance,
    conductance, inductance and capacitance matrices, and its token in the
    symbolic source vector. *)
Definition resistance_token (c : Component) : string :=
  match cls c with
  | ClsR => bytes500 (name c)
  | ClsI | ClsC => "1"
  | _ => ""
  end.

Definition conductance_token (c : Component) : string :=
  match cls c with
  | ClsR => "-1"
  | ClsV | ClsL => "1"
  | _ => ""
  end.

Definition inductance_token (c : Component) : string :=
  match cls c with
  | ClsL => bytes500 ("-" +:+ name c)
  | _ => ""
  end.

Definition capacitance_token (c : Component) : string :=
  match cls c with
  | ClsC => bytes500 ("-" +:+ name c)
  | _ => ""
  end.

Definition source_token (c : Component) : string :=
  match cls c with
  | ClsV => bytes500 ("-" +:+ name c)
  | ClsI => bytes500 (name c)
  | _ => ""
  end.

(** A component with its value forgotten. *)
Definition without_value (c : Component) : Component :=
  mkComponent (cls c) (name c) (pin1 c) (pin2 c) PyNone.

(** ** Zero-row detection *)

(** [s.strip("-")]: the leading and the trailing minus signs are dropped. *)
Fixpoint lstrip_minus (s : string) : string :=
  match s with
  | String "-"%char s' => lstrip_minus s'
  | _ => s
  end.

Fixpoint rstrip_minus (s : string) : string :=
  match s with
  | EmptyString => EmptyString
  | String a s' =>
      match rstrip_minus s' with
      | EmptyString => if decide (a = "-"%char) then EmptyString else String a EmptyString
      | t => String a t
      end
  end.

Definition strip_minus (s : string) : string := rstrip_minus (lstrip_minus s).

(** [s.strip("-") == str(0.0) or s.strip("-") == str(0)] *)
Definition is_zero_text (s : string) : bool :=
  bool_decide (strip_minus s = "0.0") || bool_decide (strip_minus s = "0").

(** [A[i][j]] read with indices that are not negative. *)
Definition getcell {T} (A : ndarray T) (i j : nat) : result T :=
  match cell A i j with Some x => Ok x | None => Err IndexError end.

Definition get_zero_rows_str (M1_str M2_str b_str : ndarray string) : result (list nat) :=
  let rows := nd_nrows M1_str in
  let cols := nd_ncols M1_str in
  for_each (seq 0 rows)
    (fun i zero_row_index =>
       zero_counter ← for_each (seq 0 cols)
         (fun j zero_counter =>
            m1_ ← getcell M1_str i j;
            m2_ ← getcell M2_str i j;
            let zero_condition1 := is_zero_text m1_ && is_zero_text m2_ in
            Ok (if zero_condition1 then zero_counter + 1 else zero_counter))
         0;
       b_ ← getcell b_str i 0;
       let zero_condition2 := is_zero_text b_ in
       Ok (if bool_decide (zero_counter = cols) && zero_condition2
           then zero_row_index ++ [i] else zero_row_index))
    [].

(** Row [i] holds zero texts only, in both matrices and in the source
    vector. *)
Definition zero_row (M1_str M2_str b_str : ndarray string) (i : nat) : Prop :=
  (∀ j, j < nd_ncols M1_str →
        ∃ m1 m2, cell M1_str i j = Some m1 ∧ cell M2_str i j = Some m2
                 ∧ is_zero_text m1 = true ∧ is_zero_text m2 = true)
  ∧ ∃ b, cell b_str i 0 = Some b ∧ is_zero_text b = true.

(** A list of indices in strictly ascending order. *)
Definition ascending (l : list nat) : Prop :=
  ∀ a b i j, l !! a = Some i → l !! b = Some j → a < b → i < j.

(** The node whose current law is row [r] of the tableau, the reference
    node [n_ref] having no row. *)
Definition node_of_row (n_ref : Z) (r : nat) : Z :=
  (Z.of_nat (shift_row (Z.to_nat (n_ref - 1)) r) + 1)%Z.

(** No component has a terminal at node [p]. *)
Definition isolated_node (components : list Component) (p : Z) : Prop :=
  ∀ c, c ∈ components → pin1 c ≠ p ∧ pin2 c ≠ p.

(** A component the branch-law builders leave without an equation: an
    [ElmerComponent], or an instance of the base class. *)
Definition no_branch_law (c : Component) : Prop :=
  cls c = ClsElmerComponent ∨ cls c = ClsComponent.

(** ** Unknown names *)

(** An element of the component list as [create_unknown_name] sees it: an
    object of one of the lumped classes, or an [ElmerComponent] with its
    own state. *)
Inductive netlist_component :=
  | Lumped (c : Component)
  | FieldCoupled (e : ElmerComponent.t).

(** The attributes every component has. *)
Definition component_of (x : netlist_component) : Component :=
  match x with
  | Lumped c => c
  | FieldCoupled e => ElmerComponent.base e
  end.

(** The double quote character as a string. *)
Definition dquote : string := String (ascii_of_nat 34) EmptyString.

Fixpoint is_prefix (p s : string) : bool :=
  match p, s with
  | EmptyString, _ => true
  | String a p', String b s' => bool_decide (a = b) && is_prefix p' s'
  | String _ _, EmptyString => false
  end.

(** [p in s] on Python strings. *)
Fixpoint contains (p s : string) : bool :=
  is_prefix p s
  || match s with
     | EmptyString => false
     | String _ s' => contains p s'
     end.

(** The pins that are not the reference node, each once, in the order of
    their first appearance. *)
Definition unknown_nodes_of (components : list netlist_component) (ref_node : Z) : list Z :=
  foldl (fun unknown_nodes component =>
           let p1 := pin1 (component_of component) in
           let p2 := pin2 (component_of component) in
           let u1 := if decide ((p1 ∉ unknown_nodes) ∧ (p1 ≠ ref_node))
                     then unknown_nodes ++ [p1] else unknown_nodes in
           if decide ((p2 ∉ u1) ∧ (p2 ≠ ref_node)) then u1 ++ [p2] else u1)
        [] components.

Definition current_string (component : netlist_component) : string :=
  match component with
  | FieldCoupled e =>
      dquote +:+ "i_component(" +:+ pretty (ElmerComponent.component_number e) +:+ ")"
      +:+ dquote
  | Lumped c => dquote +:+ "i_" +:+ name c +:+ dquote
  end.

Definition voltage_string (component : netlist_component) : string :=
  match component with
  | FieldCoupled e =>
      dquote +:+ "v_component(" +:+ pretty (ElmerComponent.component_number e) +:+ ")"
      +:+ dquote
  | Lumped c => dquote +:+ "v_" +:+ name c +:+ dquote
  end.

Definition node_string (circuit_number node_name : Z) : string :=
  dquote +:+ "u_" +:+ pretty node_name +:+ "_circuit_" +:+ pretty circuit_number
  +:+ dquote.

(** Returns [(unknown_names, v_comp_rows)]. *)
Definition create_unknown_name (components : list netlist_component) (ref_node : Z)
    (circuit_number : Z) : list string * list nat :=
  let unknown_nodes := unknown_nodes_of components ref_node in
  let unknown_names :=
    (current_string <$> components) ++ (voltage_string <$> components)
    ++ (node_string circuit_number <$> unknown_nodes) in
  let v_comp_rows :=
    fst <$> filter (fun p => contains "v_component(" (snd p) = true)
                   (imap (fun i name => (i, name)) unknown_names) in
  (unknown_names, v_comp_rows).

(** Some component has a terminal at node [p]. *)
Definition is_terminal (components : list Component) (p : Z) : bool :=
  existsb (fun c => bool_decide (pin1 c = p) || bool_decide (pin2 c = p)) components.

(** No unknown of a lumped component reads as a component voltage. *)
Definition lumped_names_plain (components : list netlist_component) : Prop :=
  ∀ c, Lumped c ∈ components →
       contains "v_component(" (current_string (Lumped c)) = false
       ∧ contains "v_component(" (voltage_string (Lumped c)) = false.

(** The character [a] occurs in [s]. *)
Fixpoint mentions (a : ascii) (s : string) : bool :=
  match s with
  | EmptyString => false
  | String b s' => bool_decide (a = b) || mentions a s'
  end.

(** The positions, counted from [n], of the elements of [l] that satisfy
    [P]. *)
Fixpoint positions_from {X} (P : X → bool) (n : nat) (l : list X) : list nat :=
  match l with
  | [] => []
  | x :: l' => if P x then n :: positions_from P (S n) l' else positions_from P (S n) l'
  end.

Definition is_field_coupled (x : netlist_component) : bool :=
  match x with FieldCoupled _ => true | Lumped _ => false end.

(** ** The source loops, entry by entry *)

Definition is_complex_at (components : list Component) (i : nat) : bool :=
  match components !! i with
  | Some c => match value c with PyComplex _ _ => true | _ => false end
  | None => false
  end.

(** The component at index [i] exists and has a value. *)
Definition has_value (components : list Component) (i : nat) : Prop :=
  ∃ c, components !! i = Some c ∧ value c ≠ PyNone.

(** The value of source [i], with its sign. *)
Definition source_entry (negate : bool) (components : list Component) (i : nat)
  : complex128 :=
  let sgn (x : float64) := if negate then fneg x else x in
  match components !! i with
  | Some c =>
      match value c with
      | PyComplex x y => Complex (sgn (Fin x)) (sgn (Fin y))
      | PyReal x => Complex (sgn (Fin x)) (Fin 0)
      | PyNone => Complex (Fin 0) (Fin 0)
      end
  | None => Complex (Fin 0) (Fin 0)
  end.

(** What comes after the first occurrence of [i] in [l]. *)
Fixpoint after (i : nat) (l : list nat) : list nat :=
  match l with
  | [] => []
  | x :: l' => if decide (x = i) then l' else after i l'
  end.

(** A source is kept by its loop when it is complex, or when no complex
    source comes after it in the index list. *)
Definition source_kept (components : list Component) (ind : list nat) (i : nat) : bool :=
  is_complex_at components i || negb (existsb (is_complex_at components) (after i ind)).

Definition rhs_loop_entry (negate : bool) (components : list Component)
    (ind : list nat) (i : nat) : complex128 :=
  if decide (i ∈ ind) then
    if source_kept components ind i then source_entry negate components i
    else Complex (Fin 0) (Fin 0)
  else Complex (Fin 0) (Fin 0).

(** What the separate real and imaginary vectors of a loop hold at row
    [i]: the complex sources met so far, zero elsewhere. *)
Definition complex_entry (negate : bool) (components : list Component)
    (ind : list nat) (i : nat) : complex128 :=
  if bool_decide (i ∈ ind) && is_complex_at components i
  then source_entry negate components i
  else Complex (Fin 0) (Fin 0).

(** Two floats that are the same number: equal, or both a zero. The
    product [1j * rhs_im] of the source can change the sign of a zero. *)
Definition same_float (x y : float64) : Prop :=
  x = y ∨ (f_nonzero x = false ∧ f_nonzero y = false).

Definition same_complex (a b : complex128) : Prop :=
  same_float (re a) (re b) ∧ same_float (im a) (im b).

(** ** Tokens of the symbolic incidence matrix *)

(** The token of component [c] at row [r] of the full matrix. *)
Definition incidence_token (c : Component) (r : nat) : string :=
  match decide (pin1 c - 1 = Z.of_nat r)%Z, decide (pin2 c - 1 = Z.of_nat r)%Z with
  | left _, left _ => "1-1"
  | left _, right _ => "1"
  | right _, left _ => "-1"
  | right _, right _ => ""
  end.

(** ** Cleaned-up tokens *)

(** A token the cleanup loops of [get_tableau_matrix_str] leave alone. *)
Definition canonical_token (s : string) : Prop :=
  s ≠ ""%string ∧ s ≠ "0.0"%string ∧ s ≠ "-0.0"%string
  ∧ s ≠ "1.0"%string ∧ s ≠ "-1.0"%string.

(** ** Terminal state after a sequence of calls *)

(** The boundaries given to the last [isOpen] call of the sequence. *)
Fixpoint last_open (calls : list ElmerComponent.call) : option (option Z * option Z) :=
  match calls with
  | [] => None
  | c :: rest =>
      match last_open rest with
      | Some b => Some b
      | None =>
          match c with
          | ElmerComponent.CallIsOpen b1 b2 => Some (b1, b2)
          | ElmerComponent.CallIsClosed => None
          end
      end
  end.

(** The values the numeric builders can store: a real number for a
    resistor, an inductor and a capacitor, a real or a complex number for
    a source. *)
Definition storable_value (c : Component) : Prop :=
  match cls c with
  | ClsR | ClsL | ClsC => ∃ x, value c = PyReal x
  | ClsV | ClsI => value c ≠ PyNone
  | ClsComponent | ClsElmerComponent => True
  end.

(** ** One circuit of [generate_elmer_circuits]

    The body of the loop over the circuits, from the node count to the
    reordered matrices. The component list is one list of objects: the
    builders read the class, the name and the terminals of each, and
    [create_unknown_name] reads the component number of the field-coupled
    ones. Returns [(elmerA, elmerB, elmersource, unknown_names, vcomp_rows)]. *)
Definition elmer_circuit_matrices (components : list netlist_component)
    (ref_node circuit_number : Z)
  : result (ndarray string * ndarray string * ndarray string * list string * list nat) :=
  let num_nodes := get_num_nodes (component_of <$> components) in
  let num_edges := get_num_edges (component_of <$> components) in
  m ← symbolic_track (component_of <$> components) num_nodes num_edges ref_node;
  let '(unknown_names, vcomp_rows) :=
    create_unknown_name components ref_node circuit_number in
  zero_rows_str ← get_zero_rows_str (m_M1 m) (m_M2 m) (m_b m);
  '(elmerA, elmerB, elmersource) ←
    elmer_format_matrix (m_M1 m) (m_M2 m) (m_b m) vcomp_rows zero_rows_str;
  Ok (elmerA, elmerB, elmersource, unknown_names, vcomp_rows).

(** Every object of the list is an [R], [V], [I], [L], [C] or an
    [ElmerComponent]. *)
Definition well_classed (components : list netlist_component) : Prop :=
  ∀ x, x ∈ components →
       match x with
       | Lumped c => cls c ∈ [ClsR; ClsV; ClsI; ClsL; ClsC]
       | FieldCoupled e => cls (ElmerComponent.base e) = ClsElmerComponent
       end.

(** * Properties *)

(** ** The error monad and indices *)

Lemma bind_Ok {A B} (a : A) (f : A → result B) : (Ok a ≫= f) = f a.
Proof. reflexivity. Qed.

Lemma bind_Ok_inv {A B} (m : result A) (f : A → result B) b :
  (m ≫= f) = Ok b → ∃ a, m = Ok a ∧ f a = Ok b.
Proof. destruct m as [a|e]; [eauto | discriminate]. Qed.

Lemma norm_index_nat n i : i < n → norm_index n (Z.of_nat i) = Ok i.
Proof.
  intros Hi. unfold norm_index.
  destruct (decide _) as [_|Hn]; [by rewrite Nat2Z.id | lia].
Qed.

Lemma norm_index_out n (i : Z) :
  (Z.of_nat n ≤ i ∨ i < - Z.of_nat n)%Z → norm_index n i = Err IndexError.
Proof.
  intros Hi. unfold norm_index.
  destruct (decide _); [lia|]. destruct (decide _); [lia | done].
Qed.

Lemma getitem_Some {A} (l : list A) i x : l !! i = Some x → getitem l i = Ok x.
Proof. unfold getitem. by intros ->. Qed.

(** ** Shapes and cells *)

Lemma has_shape_ncols {T} r c (A : ndarray T) : has_shape r c A → nd_ncols A = c.
Proof. by intros (? & ? & ?). Qed.

Lemma has_shape_row {T} r c (A : ndarray T) i row :
  has_shape r c A → nd_rows A !! i = Some row → length row = c.
Proof.
  intros (_ & _ & Hall) Hi. rewrite Forall_lookup in Hall. by apply (Hall i).
Qed.

Lemma cell_None_col {T} r c (A : ndarray T) i j :
  has_shape r c A → c ≤ j → cell A i j = None.
Proof.
  intros Hs Hj. unfold cell. destruct (nd_rows A !! i) as [row|] eqn:Hrow; [|done].
  simpl. apply lookup_ge_None_2. rewrite (has_shape_row _ _ _ _ _ Hs Hrow). lia.
Qed.

(** Two arrays of one shape with the same cells are the same array. *)
Lemma ndarray_ext {T} r c (A B : ndarray T) :
  has_shape r c A → has_shape r c B →
  (∀ i j, i < r → j < c → cell A i j = cell B i j) → A = B.
Proof.
  intros HA HB Hcell. destruct A as [ca ra], B as [cb rb].
  assert (ca = cb) as ->.
  { destruct HA as (_ & HA & _), HB as (_ & HB & _). simpl in *. congruence. }
  assert (length ra = r) as Hlra by (by destruct HA).
  assert (length rb = r) as Hlrb by (by destruct HB).
  f_equal. apply list_eq. intros i.
  destruct (decide (i < r)) as [Hi|Hi].
  - destruct (lookup_lt_is_Some_2 ra i) as [rowa Ha]; [lia|].
    destruct (lookup_lt_is_Some_2 rb i) as [rowb Hb]; [lia|].
    rewrite Ha, Hb. f_equal. apply list_eq. intros j.
    destruct (decide (j < c)) as [Hj|Hj].
    + specialize (Hcell i j Hi Hj). unfold cell in Hcell. simpl in Hcell.
      by rewrite Ha, Hb in Hcell.
    + rewrite !lookup_ge_None_2; [done | |].
      * rewrite (has_shape_row _ _ _ _ _ HB Hb). lia.
      * rewrite (has_shape_row _ _ _ _ _ HA Ha). lia.
  - rewrite !lookup_ge_None_2; [done | lia | lia].
Qed.

Lemma np_full_shape {T} r c (x : T) : has_shape r c (np_full r c x).
Proof.
  unfold has_shape, np_full. simpl. rewrite length_replicate. split_and!; [done..|].
  apply Forall_replicate. by rewrite length_replicate.
Qed.

Lemma np_full_cell {T} r c (x : T) i j :
  i < r → j < c → cell (np_full r c x) i j = Some x.
Proof.
  intros Hi Hj. unfold cell, np_full. simpl.
  rewrite lookup_replicate_2 by done. simpl. by rewrite lookup_replicate_2.
Qed.

Lemma np_zip_with_shape {T U V} (f : T → U → V) r c A B :
  has_shape r c A → has_shape r c B → has_shape r c (np_zip_with f A B).
Proof.
  intros (Ha1 & Ha2 & Ha3) (Hb1 & Hb2 & Hb3). unfold has_shape, np_zip_with. simpl.
  split_and!; [|done|].
  - rewrite length_zip_with. lia.
  - apply Forall_lookup. intros i row Hrow.
    apply lookup_zip_with_Some in Hrow as (ra & rb & -> & Hra & Hrb).
    rewrite length_zip_with.
    rewrite Forall_lookup in Ha3. rewrite Forall_lookup in Hb3.
    rewrite (Ha3 _ _ Hra), (Hb3 _ _ Hrb). lia.
Qed.

Lemma np_zip_with_cell {T U V} (f : T → U → V) A B i j a b :
  cell A i j = Some a → cell B i j = Some b →
  cell (np_zip_with f A B) i j = Some (f a b).
Proof.
  unfold cell, np_zip_with. simpl. intros Ha Hb.
  rewrite lookup_zip_with.
  destruct (nd_rows A !! i) as [ra|]; [|done].
  destruct (nd_rows B !! i) as [rb|]; [|done]. simpl in *.
  rewrite lookup_zip_with. by rewrite Ha, Hb.
Qed.

Lemma np_map_shape {T U} (f : T → U) r c A :
  has_shape r c A → has_shape r c (np_map f A).
Proof.
  intros (H1 & H2 & H3). unfold has_shape, np_map. simpl.
  rewrite length_fmap. split_and!; [done..|].
  apply Forall_fmap. eapply Forall_impl; [exact H3|].
  intros row Hrow. simpl. by rewrite length_fmap.
Qed.

Lemma np_map_cell {T U} (f : T → U) A i j :
  cell (np_map f A) i j = f <$> cell A i j.
Proof.
  unfold cell, np_map. simpl. rewrite list_lookup_fmap.
  destruct (nd_rows A !! i) as [row|]; [|done]. simpl. by rewrite list_lookup_fmap.
Qed.

Lemma cell_comprehension {X Y T} (f : X → Y → T) (xs : list X) (ys : list Y) c i j x y :
  xs !! i = Some x → ys !! j = Some y →
  cell (NdArray c ((fun x => f x <$> ys) <$> xs)) i j = Some (f x y).
Proof.
  intros Hx Hy. unfold cell. cbn [nd_rows].
  rewrite list_lookup_fmap, Hx. cbn. by rewrite list_lookup_fmap, Hy.
Qed.

Lemma comprehension_shape {X Y T} (f : X → Y → T) (xs : list X) (ys : list Y) :
  has_shape (length xs) (length ys) (NdArray (length ys) ((fun x => f x <$> ys) <$> xs)).
Proof.
  unfold has_shape. cbn [nd_rows nd_ncols]. rewrite length_fmap.
  split_and!; [done..|]. apply Forall_fmap, Forall_forall. intros x _. cbn.
  by rewrite length_fmap.
Qed.

(** ** Assignments to cells and rows *)

Lemma setitem_nat {T} r c (A : ndarray T) i j v :
  has_shape r c A → i < r → j < c →
  setitem A (Z.of_nat i) (Z.of_nat j) v
  = Ok (NdArray c (alter (fun row => <[j := v]> row) i (nd_rows A))).
Proof.
  intros (Hr & Hc & _) Hi Hj. unfold setitem, nd_nrows.
  rewrite Hr, Hc. rewrite !norm_index_nat by done. reflexivity.
Qed.

Lemma alter_insert_shape {T} r c (A : ndarray T) i j v :
  has_shape r c A →
  has_shape r c (NdArray c (alter (fun row => <[j := v]> row) i (nd_rows A))).
Proof.
  intros (Hr & _ & Hall). unfold has_shape. cbn [nd_rows nd_ncols].
  rewrite length_alter. split_and!; [done..|].
  apply Forall_alter; [done|]. intros row _ Hrow. by rewrite length_insert.
Qed.

Lemma alter_insert_cell {T} r c (A : ndarray T) i j v i' j' :
  has_shape r c A → i < r → j < c →
  cell (NdArray c (alter (fun row => <[j := v]> row) i (nd_rows A))) i' j'
  = if decide (i' = i ∧ j' = j) then Some v else cell A i' j'.
Proof.
  intros Hs Hi Hj. unfold cell. cbn [nd_rows].
  destruct (decide (i' = i)) as [->|Hne].
  - destruct (lookup_lt_is_Some_2 (nd_rows A) i) as [row Hrow].
    { destruct Hs as (Hr & _). lia. }
    rewrite list_lookup_alter_eq, Hrow. cbn.
    assert (length row = c) as Hlen by exact (has_shape_row _ _ _ _ _ Hs Hrow).
    destruct (decide (j' = j)) as [->|Hnej].
    + rewrite decide_True by done. rewrite list_lookup_insert_eq; [done | lia].
    + rewrite decide_False by tauto. by rewrite list_lookup_insert_ne.
  - rewrite list_lookup_alter_ne by done. by rewrite decide_False by tauto.
Qed.

(** A loop of cell assignments whose value depends on the position only:
    the cells named by the loop hold that value, the others are kept. *)
Lemma for_each_assign {X T} (body : X → ndarray T → result (ndarray T))
    (pos : X → nat * nat) (h : nat → nat → T) (xs : list X) r c :
  (∀ x, x ∈ xs →
     fst (pos x) < r ∧ snd (pos x) < c ∧
     ∀ M, has_shape r c M →
          body x M = setitem M (Z.of_nat (fst (pos x))) (Z.of_nat (snd (pos x)))
                       (h (fst (pos x)) (snd (pos x)))) →
  ∀ M, has_shape r c M →
  ∃ M', for_each xs body M = Ok M' ∧ has_shape r c M' ∧
        ∀ i j, cell M' i j
               = if bool_decide ((i, j) ∈ pos <$> xs) then Some (h i j) else cell M i j.
Proof.
  induction xs as [|x xs IH]; intros Hbody M HM.
  - exists M. split_and!; [done..|]. intros i j.
    rewrite bool_decide_eq_false_2; [done | apply not_elem_of_nil].
  - destruct (Hbody x) as (Hi & Hj & Hset); [left|].
    cbn [for_each]. rewrite (Hset M HM), (setitem_nat r c) by done. rewrite bind_Ok.
    destruct (IH (fun y Hy => Hbody y (list_elem_of_further _ _ _ Hy))
                 (NdArray c (alter (fun row => <[snd (pos x) := h (fst (pos x)) (snd (pos x))]> row)
                               (fst (pos x)) (nd_rows M))))
      as (M' & Hrun & HM' & Hcell).
    { by apply alter_insert_shape. }
    exists M'. split_and!; [done..|]. intros i j.
    rewrite Hcell, (alter_insert_cell r c) by done.
    rewrite fmap_cons.
    destruct (decide (i = fst (pos x) ∧ j = snd (pos x))) as [[-> ->]|Hne].
    + rewrite (bool_decide_eq_true_2 (_ ∈ pos x :: _)).
      * by destruct (bool_decide _).
      * rewrite <- surjective_pairing. left.
    + destruct (bool_decide ((i, j) ∈ pos <$> xs)) eqn:Hin.
      * apply bool_decide_eq_true_1 in Hin.
        rewrite bool_decide_eq_true_2; [done | by right].
      * apply bool_decide_eq_false_1 in Hin.
        rewrite bool_decide_eq_false_2; [done|].
        rewrite elem_of_cons. intros [Heq|?]; [|done].
        apply Hne. rewrite <- Heq. done.
Qed.

Lemma setrow_column_vector {T} r (A : ndarray T) i v :
  has_shape r 1 A → setrow A i v = setitem A i 0 v.
Proof.
  intros Hs. unfold setrow, setitem.
  destruct (norm_index (nd_nrows A) i) as [i'|e] eqn:Hi; [|done].
  rewrite !bind_Ok. rewrite (has_shape_ncols _ _ _ Hs).
  change (norm_index 1 0) with (Ok (A:=nat) 0). rewrite bind_Ok. f_equal. f_equal.
  apply list_eq. intros k. destruct (decide (k = i')) as [->|Hne].
  - rewrite list_lookup_alter_eq.
    destruct (nd_rows A !! i') as [row|] eqn:Hrow.
    + rewrite list_lookup_insert_eq by (by eapply lookup_lt_Some).
      simpl. f_equal.
      pose proof (has_shape_row _ _ _ _ _ Hs Hrow) as Hlen.
      destruct row as [|x [|y row]]; simpl in Hlen; try lia. done.
    + simpl. rewrite list_insert_ge; [done|]. by apply lookup_ge_None_1.
  - rewrite list_lookup_alter_ne by done. by rewrite list_lookup_insert_ne.
Qed.

(** ** Deleting a row, stacking, transposing *)

Lemma np_delete_row_nat {T} r c (A : ndarray T) k :
  has_shape r c A → k < r →
  np_delete_row A (Z.of_nat k) = Ok (NdArray c (delete k (nd_rows A))).
Proof.
  intros (Hr & Hc & _) Hk. unfold np_delete_row, nd_nrows.
  rewrite Hr, Hc, norm_index_nat by done. reflexivity.
Qed.

Lemma delete_row_shape {T} r c (A : ndarray T) k :
  has_shape r c A → k < r → has_shape (r - 1) c (NdArray c (delete k (nd_rows A))).
Proof.
  intros (Hr & Hc & Hall) Hk. unfold has_shape. simpl.
  split_and!; [|done|].
  - rewrite length_delete; [lia|]. apply lookup_lt_is_Some_2. lia.
  - by apply Forall_delete.
Qed.

Lemma delete_row_cell {T} c (A : ndarray T) k i j :
  cell (NdArray c (delete k (nd_rows A))) i j
  = cell A (if decide (i < k) then i else S i) j.
Proof.
  unfold cell. simpl. destruct (decide (i < k)).
  - by rewrite list_lookup_delete_lt.
  - rewrite list_lookup_delete_ge by lia. done.
Qed.

Lemma hstack_spec {T} r c1 c2 (A B : ndarray T) :
  has_shape r c1 A → has_shape r c2 B →
  ∃ M, hstack A B = Ok M ∧ has_shape r (c1 + c2) M ∧
       ∀ i j, cell M i j = if decide (j < c1) then cell A i j else cell B i (j - c1).
Proof.
  intros HA HB. unfold hstack, nd_nrows.
  destruct HA as (Ha1 & Ha2 & Ha3), HB as (Hb1 & Hb2 & Hb3).
  rewrite decide_True by congruence. eexists. split; [reflexivity|].
  rewrite Ha2, Hb2. split.
  - unfold has_shape. cbn [nd_rows nd_ncols]. split_and!; [|done|].
    + rewrite length_zip_with. lia.
    + apply Forall_lookup. intros i row Hrow.
      apply lookup_zip_with_Some in Hrow as (ra & rb & -> & Hra & Hrb).
      rewrite Forall_lookup in Ha3. rewrite Forall_lookup in Hb3.
      rewrite length_app, (Ha3 _ _ Hra), (Hb3 _ _ Hrb). done.
  - intros i j. unfold cell. cbn [nd_rows]. rewrite lookup_zip_with.
    destruct (nd_rows A !! i) as [ra|] eqn:Hra.
    + destruct (nd_rows B !! i) as [rb|] eqn:Hrb.
      * cbn. rewrite Forall_lookup in Ha3. specialize (Ha3 _ _ Hra). cbn in Ha3.
        destruct (decide (j < c1)).
        -- by rewrite lookup_app_l by lia.
        -- rewrite lookup_app_r by lia. by rewrite Ha3.
      * exfalso. apply lookup_ge_None_1 in Hrb. apply lookup_lt_Some in Hra. lia.
    + cbn. destruct (decide (j < c1)); [done|].
      apply lookup_ge_None_1 in Hra. rewrite (lookup_ge_None_2 (nd_rows B)) by lia. done.
Qed.

Lemma vstack_spec {T} r1 r2 c (A B : ndarray T) :
  has_shape r1 c A → has_shape r2 c B →
  ∃ M, vstack A B = Ok M ∧ has_shape (r1 + r2) c M ∧
       ∀ i j, cell M i j = if decide (i < r1) then cell A i j else cell B (i - r1) j.
Proof.
  intros (Ha1 & Ha2 & Ha3) (Hb1 & Hb2 & Hb3). unfold vstack.
  rewrite decide_True by congruence. eexists. split; [reflexivity|]. split.
  - unfold has_shape. cbn [nd_rows nd_ncols]. rewrite length_app.
    split_and!; [lia | done | by apply Forall_app].
  - intros i j. unfold cell. cbn [nd_rows]. destruct (decide (i < r1)).
    + by rewrite lookup_app_l by lia.
    + rewrite lookup_app_r by lia. by rewrite Ha1.
Qed.

Lemma hstack3_spec {T} r c1 c2 c3 (A B C : ndarray T) :
  has_shape r c1 A → has_shape r c2 B → has_shape r c3 C →
  ∃ M, hstack3 A B C = Ok M ∧ has_shape r (c1 + c2 + c3) M ∧
       ∀ i j, cell M i j
              = if decide (j < c1) then cell A i j
                else if decide (j < c1 + c2) then cell B i (j - c1)
                else cell C i (j - (c1 + c2)).
Proof.
  intros HA HB HC. unfold hstack3.
  destruct (hstack_spec r c1 c2 A B HA HB) as (AB & -> & HAB & Hcab).
  rewrite bind_Ok.
  destruct (hstack_spec r (c1 + c2) c3 AB C HAB HC) as (M & -> & HM & Hcm).
  exists M. split_and!; [done..|]. intros i j. rewrite Hcm, Hcab.
  repeat case_decide; (done || lia).
Qed.

Lemma vstack3_spec {T} r1 r2 r3 c (A B C : ndarray T) :
  has_shape r1 c A → has_shape r2 c B → has_shape r3 c C →
  ∃ M, vstack3 A B C = Ok M ∧ has_shape (r1 + r2 + r3) c M ∧
       ∀ i j, cell M i j
              = if decide (i < r1) then cell A i j
                else if decide (i < r1 + r2) then cell B (i - r1) j
                else cell C (i - (r1 + r2)) j.
Proof.
  intros HA HB HC. unfold vstack3.
  destruct (vstack_spec r1 r2 c A B HA HB) as (AB & -> & HAB & Hcab).
  rewrite bind_Ok.
  destruct (vstack_spec (r1 + r2) r3 c AB C HAB HC) as (M & -> & HM & Hcm).
  exists M. split_and!; [done..|]. intros i j. rewrite Hcm, Hcab.
  repeat case_decide; (done || lia).
Qed.

Lemma column_lookup {T} c (rows : list (list T)) j i :
  Forall (fun row => length row = c) rows → j < c →
  (rows ≫= (fun row => option_list (row !! j))) !! i = rows !! i ≫= (.!! j).
Proof.
  intros Hall Hj. revert i. induction Hall as [|row rows Hrow _ IH]; intros i; [done|].
  cbn [mbind list_bind]. destruct (lookup_lt_is_Some_2 row j) as [x Hx]; [lia|].
  rewrite Hx. cbn [option_list app]. destruct i as [|i]; cbn.
  - by rewrite Hx.
  - apply IH.
Qed.

Lemma column_length {T} c (rows : list (list T)) j :
  Forall (fun row => length row = c) rows → j < c →
  length (rows ≫= (fun row => option_list (row !! j))) = length rows.
Proof.
  intros Hall Hj. induction Hall as [|row rows Hrow _ IH]; [done|].
  cbn [mbind list_bind]. destruct (lookup_lt_is_Some_2 row j) as [x Hx]; [lia|].
  rewrite Hx. cbn. by rewrite IH.
Qed.

Lemma np_transpose_spec {T} r c (A : ndarray T) :
  has_shape r c A →
  has_shape c r (np_transpose A) ∧ ∀ i j, cell (np_transpose A) j i = cell A i j.
Proof.
  intros HA. pose proof HA as (H1 & H2 & H3). split.
  - unfold has_shape, np_transpose, nd_nrows. cbn [nd_rows nd_ncols].
    rewrite length_fmap, length_seq. split_and!; [done..|].
    apply Forall_fmap, Forall_lookup. intros k j Hk.
    apply lookup_seq in Hk as [-> Hk]. cbn. unfold column.
    rewrite (column_length c) by (done || lia). done.
  - intros i j. unfold cell at 1, np_transpose. cbn [nd_rows].
    rewrite list_lookup_fmap. destruct (decide (j < c)) as [Hj|Hj].
    + rewrite (lookup_seq_lt) by lia. cbn. unfold column.
      rewrite (column_lookup c) by done. done.
    + rewrite lookup_seq_ge by lia. cbn. symmetry.
      apply (cell_None_col r c); [done | lia].
Qed.

(** ** Incidence matrix *)

Lemma pin_indices_prefix (pin : Component → Z) (pre l : list Component) :
  mapM (fun i => c ← getitem (pre ++ l) i; Ok (pin c - 1)%Z) (seq (length pre) (length l))
  = Ok ((fun c => (pin c - 1)%Z) <$> l).
Proof.
  revert pre. induction l as [|x l IH]; intros pre; [done|].
  cbn [length seq mapM].
  rewrite (getitem_Some (pre ++ x :: l) (length pre) x) by (by apply list_lookup_middle).
  rewrite !bind_Ok.
  specialize (IH (pre ++ [x])). rewrite <- app_assoc, length_app in IH.
  cbn [length app] in IH. rewrite Nat.add_1_r in IH. rewrite IH. reflexivity.
Qed.

Lemma pin_indices_ok pin components :
  pin_indices pin components (length components)
  = Ok ((fun c => (pin c - 1)%Z) <$> components).
Proof. apply (pin_indices_prefix pin []). Qed.

(** A loop writing [v] at row [idx[j]] of each column [j]. *)
Lemma column_loop_spec {T} (v z : T) (idx : list Z) n e :
  length idx = e → (∀ i, i ∈ idx → (0 ≤ i < Z.of_nat n)%Z) →
  ∃ M, for_each (zip idx (seq 0 e)) (fun '(i, j) A => setitem A i (Z.of_nat j) v)
         (np_full n e z) = Ok M
       ∧ has_shape n e M
       ∧ ∀ r j, r < n → j < e →
           cell M r j = Some (if decide (idx !! j = Some (Z.of_nat r)) then v else z).
Proof.
  intros Hlen Hidx.
  destruct (for_each_assign
              (fun '(i, j) A => setitem A i (Z.of_nat j) v)
              (fun x : Z * nat => (Z.to_nat (fst x), snd x)) (fun _ _ => v)
              (zip idx (seq 0 e)) n e) with (M := np_full n e z)
    as (M & Hrun & HM & Hcell).
  - intros [i j] Hin. cbn [fst snd].
    apply elem_of_lookup_zip_with in Hin as (k & i' & j' & [= -> ->] & Hi & Hj).
    apply lookup_seq in Hj as [-> Hk]. cbn in Hk |- *.
    pose proof (Hidx _ (list_elem_of_lookup_2 _ _ _ Hi)).
    split_and!; [lia | done |]. intros M _. by rewrite Z2Nat.id by lia.
  - apply np_full_shape.
  - exists M. split_and!; [done..|]. intros r j Hr Hj. rewrite Hcell.
    rewrite np_full_cell by done.
    destruct (decide (idx !! j = Some (Z.of_nat r))) as [Hin|Hnin].
    + rewrite bool_decide_eq_true_2; [done|].
      apply list_elem_of_fmap. exists (Z.of_nat r, j). cbn. rewrite Nat2Z.id.
      split; [done|]. apply elem_of_lookup_zip_with. exists j, (Z.of_nat r), j.
      split_and!; [done..|]. by apply lookup_seq.
    + rewrite bool_decide_eq_false_2; [done|]. intros Hin. apply Hnin.
      apply list_elem_of_fmap in Hin as ([i j'] & [= -> ->] & Hin).
      apply elem_of_lookup_zip_with in Hin as (k & i' & j'' & [= -> ->] & Hi & Hk).
      apply lookup_seq in Hk as [-> Hk]. cbn in *.
      pose proof (Hidx _ (list_elem_of_lookup_2 _ _ _ Hi)).
      rewrite Hi. f_equal. lia.
Qed.

(** The common text of [get_incidence_matrix] and [get_incidence_matrix_str]
    on a circuit whose terminals are in range. *)
Lemma incidence_generic_spec {T} (z p m : T) (comb : T → T → T) components n
    (n_ref : Z) :
  pins_in_range components n → (1 ≤ n_ref ≤ Z.of_nat n)%Z →
  (n1_index ← pin_indices pin1 components (length components);
   n2_index ← pin_indices pin2 components (length components);
   Amat_plus ← for_each (zip n1_index (seq 0 (length components)))
     (fun '(i, j) A => setitem A i (Z.of_nat j) p)
     (np_full n (length components) z);
   Amat_minus ← for_each (zip n2_index (seq 0 (length components)))
     (fun '(i, j) A => setitem A i (Z.of_nat j) m)
     (np_full n (length components) z);
   np_delete_row (np_zip_with comb Amat_plus Amat_minus) (n_ref - 1))
  = Ok (NdArray (length components)
          ((fun r => (fun c => incidence_entry z p m comb c
                                 (shift_row (Z.to_nat (n_ref - 1)) r)) <$> components)
           <$> seq 0 (n - 1))).
Proof.
  intros Hpins Href. set (e := length components).
  unfold e at 1 2. rewrite !pin_indices_ok, !bind_Ok. fold e.
  destruct (column_loop_spec p z ((fun c => (pin1 c - 1)%Z) <$> components) n e)
    as (P & -> & HP & HcP).
  { by rewrite length_fmap. }
  { intros i Hi. apply list_elem_of_fmap in Hi as (c & -> & Hc).
    destruct (Hpins c Hc). lia. }
  destruct (column_loop_spec m z ((fun c => (pin2 c - 1)%Z) <$> components) n e)
    as (Mi & -> & HMi & HcM).
  { by rewrite length_fmap. }
  { intros i Hi. apply list_elem_of_fmap in Hi as (c & -> & Hc).
    destruct (Hpins c Hc). lia. }
  rewrite !bind_Ok.
  pose proof (np_zip_with_shape comb n e P Mi HP HMi) as Hsum.
  replace (n_ref - 1)%Z with (Z.of_nat (Z.to_nat (n_ref - 1))) at 1 by lia.
  rewrite (np_delete_row_nat n e) by (done || lia). f_equal.
  apply (ndarray_ext (n - 1) e).
  - apply delete_row_shape; [done | lia].
  - pose proof (comprehension_shape
        (fun r c => incidence_entry z p m comb c (shift_row (Z.to_nat (n_ref - 1)) r))
        (seq 0 (n - 1)) components) as Hsh.
    by rewrite length_seq in Hsh.
  - intros i j Hi Hj. rewrite delete_row_cell. fold (shift_row (Z.to_nat (n_ref - 1)) i).
    set (r := shift_row (Z.to_nat (n_ref - 1)) i).
    assert (r < n) as Hr by (unfold r, shift_row; case_decide; lia).
    destruct (lookup_lt_is_Some_2 components j) as [c Hc]; [done|].
    rewrite (np_zip_with_cell comb P Mi r j _ _ (HcP r j Hr Hj) (HcM r j Hr Hj)).
    rewrite (cell_comprehension
               (fun r c => incidence_entry z p m comb c (shift_row (Z.to_nat (n_ref - 1)) r))
               _ _ _ i j i c) by (by rewrite ?lookup_seq_lt).
    f_equal. unfold incidence_entry. rewrite !list_lookup_fmap, Hc. cbn. fold r.
    f_equal; repeat case_decide; (done || congruence).
Qed.

(** C3. On a circuit whose terminal ids and reference node lie in
    [1 .. num_nodes], [get_incidence_matrix] returns the
    [(num_nodes - 1) x num_edges] matrix of the specification: [+1] at row
    [pin1 - 1] and [-1] at row [pin2 - 1] of each component's column, the
    entries adding up, and the row [n_ref - 1] deleted; the column of a
    self-loop is zero throughout. *)
Theorem get_incidence_matrix_spec components num_nodes (n_ref : Z) :
  pins_in_range components num_nodes →
  (1 ≤ n_ref ≤ Z.of_nat num_nodes)%Z →
  get_incidence_matrix components num_nodes (get_num_edges components) n_ref
  = Ok (incidence_spec components num_nodes n_ref)
  ∧ has_shape (num_nodes - 1) (get_num_edges components)
      (incidence_spec components num_nodes n_ref)
  ∧ ∀ j c r, components !! j = Some c → pin1 c = pin2 c → r < num_nodes - 1 →
      cell (incidence_spec components num_nodes n_ref) r j = Some (Fin 0).
Proof.
  intros Hpins Href. split_and!.
  - exact (incidence_generic_spec (Fin 0) (Fin 1) (Fin (-1)) fadd
             components num_nodes n_ref Hpins Href).
  - pose proof (comprehension_shape
        (fun r c => incidence_entry (Fin 0) (Fin 1) (Fin (-1)) fadd c
                      (shift_row (Z.to_nat (n_ref - 1)) r))
        (seq 0 (num_nodes - 1)) components) as Hsh.
    by rewrite length_seq in Hsh.
  - intros j c r Hc Hloop Hr. unfold incidence_spec.
    rewrite (cell_comprehension
               (fun r c => incidence_entry (Fin 0) (Fin 1) (Fin (-1)) fadd c
                             (shift_row (Z.to_nat (n_ref - 1)) r))
               _ _ _ r j r c) by (by rewrite ?lookup_seq_lt).
    f_equal. unfold incidence_entry. rewrite Hloop. by case_decide.
Qed.

Lemma get_incidence_matrix_spec_witness :
  get_incidence_matrix
    [mkComponent ClsV "V1" 1 2 (PyReal 1); mkComponent ClsR "R1" 1 2 (PyReal 1);
     mkComponent ClsL "L1" 3 3 (PyReal 1)] 3 3 2
  = Ok (NdArray 3 [[Fin 1; Fin 1; Fin 0]; [Fin 0; Fin 0; Fin 0]]).
Proof.
  refine (proj1 (get_incidence_matrix_spec
    [mkComponent ClsV "V1" 1 2 (PyReal 1); mkComponent ClsR "R1" 1 2 (PyReal 1);
     mkComponent ClsL "L1" 3 3 (PyReal 1)] 3 2 _ _)).
  - intros c Hc. repeat (apply elem_of_cons in Hc as [->|Hc]; [simpl; lia|]).
    by apply elem_of_nil in Hc.
  - lia.
Defined.

(** ** Column sums *)

Lemma column_comprehension {X Y T} (f : X → Y → T) (xs : list X) (ys : list Y) c j y :
  ys !! j = Some y →
  column (NdArray c ((fun x => f x <$> ys) <$> xs)) j = (fun x => f x y) <$> xs.
Proof.
  intros Hy. unfold column. cbn [nd_rows]. induction xs as [|x xs IH]; [done|].
  rewrite !fmap_cons. cbn [mbind list_bind]. rewrite list_lookup_fmap, Hy. cbn.
  f_equal. exact IH.
Qed.

Lemma foldr_fadd_Fin {X} (g : X → Z) (l : list X) :
  foldr fadd (Fin 0) ((fun x => Fin (g x)) <$> l) = Fin (sumZ (g <$> l)).
Proof.
  induction l as [|x l IH]; [done|]. rewrite !fmap_cons. cbn [foldr].
  rewrite IH. reflexivity.
Qed.

Lemma incidence_entry_Fin c r :
  incidence_entry (Fin 0) (Fin 1) (Fin (-1)) fadd c r = Fin (entry_z c r).
Proof. unfold incidence_entry, entry_z. by repeat case_decide. Qed.

Lemma sumZ_app l1 l2 : sumZ (l1 ++ l2) = (sumZ l1 + sumZ l2)%Z.
Proof.
  induction l1 as [|x l1 IH]; [done|].
  change (sumZ ((x :: l1) ++ l2)) with (x + sumZ (l1 ++ l2))%Z.
  change (sumZ (x :: l1)) with (x + sumZ l1)%Z. rewrite IH. lia.
Qed.

Lemma sumZ_delete l k x : l !! k = Some x → sumZ (delete k l) = (sumZ l - x)%Z.
Proof.
  revert k. induction l as [|y l IH]; intros [|k] Hk; try done.
  - injection Hk as ->. change (sumZ l = x + sumZ l - x)%Z. lia.
  - change (y + sumZ (delete k l) = y + sumZ l - x)%Z. rewrite (IH k Hk). lia.
Qed.

Lemma shift_row_seq k n : k < n → shift_row k <$> seq 0 (n - 1) = delete k (seq 0 n).
Proof.
  intros Hk. apply list_eq. intros i. rewrite list_lookup_fmap.
  destruct (decide (i < n - 1)) as [Hi|Hi].
  - rewrite lookup_seq_lt by done. cbn. unfold shift_row. case_decide.
    + rewrite list_lookup_delete_lt, lookup_seq_lt by lia. done.
    + rewrite list_lookup_delete_ge, lookup_seq_lt by lia. done.
  - rewrite lookup_seq_ge by lia. cbn. symmetry. apply lookup_ge_None_2.
    rewrite length_delete, length_seq; [lia|].
    apply lookup_lt_is_Some_2. rewrite length_seq. lia.
Qed.

Lemma sumZ_entry_z c n :
  sumZ (entry_z c <$> seq 0 n)
  = ((if decide (0 ≤ pin1 c - 1 < Z.of_nat n) then 1 else 0)
     - (if decide (0 ≤ pin2 c - 1 < Z.of_nat n) then 1 else 0))%Z.
Proof.
  induction n as [|n IH].
  - change (sumZ (entry_z c <$> seq 0 0)) with 0%Z. repeat case_decide; lia.
  - rewrite seq_S, fmap_app, sumZ_app, IH.
    change (sumZ (entry_z c <$> [0 + n])) with (entry_z c n + 0)%Z. unfold entry_z.
    repeat case_decide; lia.
Qed.

(** C9, counterexample. A resistor between nodes 1 and 2 with node 1 as
    the reference: the one row left holds [-1], and the column does not
    sum to zero. *)
Lemma incidence_column_sum_counterexample :
  get_incidence_matrix [mkComponent ClsR "R1" 1 2 (PyReal 1)] 2 1 1
  = Ok (NdArray 1 [[Fin (-1)]])
  ∧ column_sum (NdArray 1 [[Fin (-1)]]) 0 = Fin (-1)
  ∧ column_sum (NdArray 1 [[Fin (-1)]]) 0 ≠ Fin 0.
Proof. split_and!; [reflexivity | reflexivity | discriminate]. Qed.

(** C9, amended. On a circuit whose terminal ids and reference node lie in
    [1 .. num_nodes], the incidence matrix has exactly [num_nodes - 1] rows
    and the column of a component sums to [+1] when only its negative
    terminal is the reference node, to [-1] when only its positive terminal
    is, and to zero otherwise (neither terminal, or both, at the reference
    node). *)
Theorem incidence_rows_and_column_sums components num_nodes (n_ref : Z) :
  pins_in_range components num_nodes →
  (1 ≤ n_ref ≤ Z.of_nat num_nodes)%Z →
  ∃ A, get_incidence_matrix components num_nodes (get_num_edges components) n_ref = Ok A
       ∧ nd_nrows A = num_nodes - 1
       ∧ ∀ j c, components !! j = Some c →
           column_sum A j = Fin (reduced_column_sum c n_ref).
Proof.
  intros Hpins Href. exists (incidence_spec components num_nodes n_ref). split_and!.
  - exact (incidence_generic_spec (Fin 0) (Fin 1) (Fin (-1)) fadd
             components num_nodes n_ref Hpins Href).
  - unfold nd_nrows, incidence_spec. cbn [nd_rows]. by rewrite length_fmap, length_seq.
  - intros j c Hc. unfold column_sum, incidence_spec.
    rewrite (column_comprehension
               (fun r c => incidence_entry (Fin 0) (Fin 1) (Fin (-1)) fadd c
                             (shift_row (Z.to_nat (n_ref - 1)) r)) _ _ _ j c Hc).
    rewrite (list_fmap_ext _ (fun r => Fin (entry_z c (shift_row (Z.to_nat (n_ref - 1)) r)))
               (seq 0 (num_nodes - 1)))
      by (intros; apply incidence_entry_Fin).
    rewrite (foldr_fadd_Fin (fun r => entry_z c (shift_row (Z.to_nat (n_ref - 1)) r))).
    f_equal.
    rewrite (list_fmap_compose (shift_row (Z.to_nat (n_ref - 1))) (entry_z c)).
    rewrite shift_row_seq by lia. rewrite list_fmap_delete.
    rewrite (sumZ_delete _ _ (entry_z c (Z.to_nat (n_ref - 1)))).
    + rewrite sumZ_entry_z. destruct (Hpins c (list_elem_of_lookup_2 _ _ _ Hc)).
      unfold reduced_column_sum, entry_z. repeat case_decide; lia.
    + rewrite list_lookup_fmap, lookup_seq_lt by lia. done.
Qed.

Lemma incidence_rows_and_column_sums_witness :
  ∃ A, get_incidence_matrix
         [mkComponent ClsV "V1" 1 2 (PyReal 1); mkComponent ClsR "R1" 2 3 (PyReal 1);
          mkComponent ClsL "L1" 3 1 (PyReal 1)] 3 3 1 = Ok A
       ∧ nd_nrows A = 2
       ∧ ∀ j c, [mkComponent ClsV "V1" 1 2 (PyReal 1);
                 mkComponent ClsR "R1" 2 3 (PyReal 1);
                 mkComponent ClsL "L1" 3 1 (PyReal 1)] !! j = Some c →
           column_sum A j = Fin (reduced_column_sum c 1).
Proof.
  refine (incidence_rows_and_column_sums
    [mkComponent ClsV "V1" 1 2 (PyReal 1); mkComponent ClsR "R1" 2 3 (PyReal 1);
     mkComponent ClsL "L1" 3 1 (PyReal 1)] 3 1 _ _).
  - intros c Hc. repeat (apply elem_of_cons in Hc as [->|Hc]; [simpl; lia|]).
    by apply elem_of_nil in Hc.
  - lia.
Defined.

(** ** Terminal ids out of range *)

Lemma norm_index_Err n i e : norm_index n i = Err e → e = IndexError.
Proof. unfold norm_index. repeat case_decide; congruence. Qed.

Lemma setitem_inv {T} (A : ndarray T) i j v :
  (∃ A', setitem A i j v = Ok A' ∧ nd_nrows A' = nd_nrows A
         ∧ norm_index (nd_nrows A) i ≠ Err IndexError)
  ∨ setitem A i j v = Err IndexError.
Proof.
  unfold setitem.
  destruct (norm_index (nd_nrows A) i) as [i'|e] eqn:Hi.
  - destruct (norm_index (nd_ncols A) j) as [j'|e] eqn:Hj.
    + left. eexists. split_and!; [reflexivity | | done].
      unfold nd_nrows. cbn [nd_rows]. by rewrite length_alter.
    + right. by rewrite (norm_index_Err _ _ _ Hj).
  - right. by rewrite (norm_index_Err _ _ _ Hi).
Qed.

(** A loop of cell assignments that meets a row index outside the array
    raises [IndexError]. *)
Lemma for_each_setitem_index_error {T} (v : T) (ops : list (Z * nat)) n :
  (∃ i j, (i, j) ∈ ops ∧ (Z.of_nat n ≤ i ∨ i < - Z.of_nat n)%Z) →
  ∀ M, nd_nrows M = n →
  for_each ops (fun '(i, j) A => setitem A i (Z.of_nat j) v) M = Err IndexError.
Proof.
  intros (i & j & Hin & Hbad). induction ops as [|[i0 j0] ops IH]; intros M HM.
  - by apply elem_of_nil in Hin.
  - cbn [for_each].
    destruct (setitem_inv M i0 (Z.of_nat j0) v) as [(M' & -> & HM' & Hok)| ->]; [|done].
    rewrite bind_Ok. apply elem_of_cons in Hin as [[= <- <-]|Hin].
    + exfalso. apply Hok. rewrite HM. by apply norm_index_out.
    + apply IH; [done | congruence].
Qed.

Lemma for_each_setitem_Err {T} (v : T) (ops : list (Z * nat)) M e :
  for_each ops (fun '(i, j) A => setitem A i (Z.of_nat j) v) M = Err e → e = IndexError.
Proof.
  revert M. induction ops as [|[i0 j0] ops IH]; intros M; [done|].
  cbn [for_each].
  destruct (setitem_inv M i0 (Z.of_nat j0) v) as [(M' & -> & _)| ->].
  - rewrite bind_Ok. apply IH.
  - cbn. congruence.
Qed.

(** The common text of the two incidence builders when a terminal id
    exceeds the node count. *)
Lemma incidence_generic_index_error {T} (z p m : T) (comb : T → T → T) components n
    (n_ref : Z) :
  (∃ c, c ∈ components ∧ (Z.of_nat n < pin1 c ∨ Z.of_nat n < pin2 c)%Z) →
  (n1_index ← pin_indices pin1 components (length components);
   n2_index ← pin_indices pin2 components (length components);
   Amat_plus ← for_each (zip n1_index (seq 0 (length components)))
     (fun '(i, j) A => setitem A i (Z.of_nat j) p)
     (np_full n (length components) z);
   Amat_minus ← for_each (zip n2_index (seq 0 (length components)))
     (fun '(i, j) A => setitem A i (Z.of_nat j) m)
     (np_full n (length components) z);
   np_delete_row (np_zip_with comb Amat_plus Amat_minus) (n_ref - 1))
  = Err IndexError.
Proof.
  intros (c & Hc & Hbad). rewrite !pin_indices_ok, !bind_Ok.
  apply list_elem_of_lookup_1 in Hc as [k Hk].
  assert (∀ pin : Component → Z,
            ((pin c - 1)%Z, k)
            ∈ zip ((fun c => (pin c - 1)%Z) <$> components) (seq 0 (length components)))
    as Hzip.
  { intros pin. apply elem_of_lookup_zip_with. exists k, (pin c - 1)%Z, k.
    split_and!; [done | by rewrite list_lookup_fmap, Hk |].
    apply lookup_seq_lt. by eapply lookup_lt_Some. }
  assert (nd_nrows (np_full n (length components) z) = n) as Hrows.
  { unfold nd_nrows, np_full. cbn [nd_rows]. by rewrite length_replicate. }
  destruct (for_each (zip ((fun c => (pin1 c - 1)%Z) <$> components) _) _ _)
    as [P|e] eqn:HP.
  - rewrite bind_Ok. destruct Hbad as [Hbad|Hbad].
    + rewrite (for_each_setitem_index_error p _ n) in HP; [done | | done].
      exists (pin1 c - 1)%Z, k. split; [apply Hzip | lia].
    + rewrite (for_each_setitem_index_error m _ n); [done | | done].
      exists (pin2 c - 1)%Z, k. split; [apply Hzip | lia].
  - by rewrite (for_each_setitem_Err _ _ _ _ HP).
Qed.

(** C8, counterexample. The terminal id 0 of a component of a three-node
    circuit is not refused: both builders return a matrix, in which the entry
    of that terminal sits in the row of node 3. *)
Lemma incidence_nonpositive_id_counterexample :
  get_incidence_matrix [mkComponent ClsR "R1" 0 1 (PyReal 5)] 3 1 2
  = Ok (NdArray 1 [[Fin (-1)]; [Fin 1]])
  ∧ get_incidence_matrix_str [mkComponent ClsR "R1" 0 1 (PyReal 5)] 3 1 2
    = Ok (NdArray 1 [["-1"%string]; ["1"%string]]).
Proof. split; reflexivity. Qed.

(** C8, amended. When a terminal id of the component list is greater than
    the node count that sizes the matrix, [get_incidence_matrix] and
    [get_incidence_matrix_str] raise [IndexError]: the caller gets no
    matrix, not even a partly built one. *)
Theorem incidence_out_of_range_raises components num_nodes (n_ref : Z) :
  (∃ c, c ∈ components
        ∧ (Z.of_nat num_nodes < pin1 c ∨ Z.of_nat num_nodes < pin2 c)%Z) →
  get_incidence_matrix components num_nodes (get_num_edges components) n_ref
  = Err IndexError
  ∧ get_incidence_matrix_str components num_nodes (get_num_edges components) n_ref
    = Err IndexError.
Proof.
  intros Hbad. split.
  - exact (incidence_generic_index_error (Fin 0) (Fin 1) (Fin (-1)) fadd
             components num_nodes n_ref Hbad).
  - exact (incidence_generic_index_error ""%string (bytes500 "1") (bytes500 "-1")
             String.append components num_nodes n_ref Hbad).
Qed.

Lemma incidence_out_of_range_raises_witness :
  get_incidence_matrix
    [mkComponent ClsR "R1" 1 2 (PyReal 5); mkComponent ClsV "V1" 2 5 (PyReal 1)] 3 2 1
  = Err IndexError
  ∧ get_incidence_matrix_str
      [mkComponent ClsR "R1" 1 2 (PyReal 5); mkComponent ClsV "V1" 2 5 (PyReal 1)] 3 2 1
    = Err IndexError.
Proof.
  refine (incidence_out_of_range_raises
    [mkComponent ClsR "R1" 1 2 (PyReal 5); mkComponent ClsV "V1" 2 5 (PyReal 1)] 3 1 _).
  exists (mkComponent ClsV "V1" 2 5 (PyReal 1)). split.
  - right. left.
  - right. simpl. lia.
Defined.

(** ** Tableau assembly *)

Lemma np_zeros_shape {T} `{Dtype T} r c : has_shape r c (np_zeros r c : ndarray T).
Proof. apply np_full_shape. Qed.

Lemma np_zeros_cell {T} `{Dtype T} r c i j :
  i < r → j < c → cell (np_zeros r c : ndarray T) i j = Some dt_zero.
Proof. apply np_full_cell. Qed.

Lemma np_eye_shape {T} `{Dtype T} n m : has_shape n m (np_eye n m : ndarray T).
Proof.
  pose proof (comprehension_shape
    (fun i j : nat => if decide (i = j) then dt_one else dt_zero : T)
    (seq 0 n) (seq 0 m)) as Hs.
  by rewrite !length_seq in Hs.
Qed.

Lemma np_eye_cell {T} `{Dtype T} n m i j :
  i < n → j < m →
  cell (np_eye n m : ndarray T) i j = Some (if decide (i = j) then dt_one else dt_zero).
Proof.
  intros Hi Hj. unfold np_eye.
  by rewrite (cell_comprehension
    (fun i j : nat => if decide (i = j) then dt_one else dt_zero : T)
    (seq 0 n) (seq 0 m) m i j i j) by (by rewrite lookup_seq_lt).
Qed.

Lemma dim_pred_pos n : 1 ≤ n → dim_pred n = Ok (n - 1).
Proof. destruct n; [lia|]. intros _. cbn. by rewrite Nat.sub_0_r. Qed.

(** The block layout of [get_tableau_matrix], cell by cell. *)
Lemma tableau_blocks_cells {T U} `{Dtype T} `{Dtype U}
    (Amat Rmat Gmat Lmat Cmat : ndarray T) (fvec : ndarray U) num_nodes num_edges :
  1 ≤ num_nodes →
  has_shape (num_nodes - 1) num_edges Amat →
  has_shape num_edges num_edges Rmat → has_shape num_edges num_edges Gmat →
  has_shape num_edges num_edges Lmat → has_shape num_edges num_edges Cmat →
  has_shape num_edges 1 fvec →
  ∃ Mmat1 Mmat2 bvec,
    get_tableau_matrix Amat Rmat Gmat Lmat Cmat fvec num_nodes num_edges
    = Ok (Mmat1, Mmat2, bvec)
    ∧ has_shape ((num_nodes - 1) + num_edges + num_edges)
                (num_edges + num_edges + (num_nodes - 1)) Mmat1
    ∧ has_shape ((num_nodes - 1) + num_edges + num_edges)
                (num_edges + num_edges + (num_nodes - 1)) Mmat2
    ∧ has_shape ((num_nodes - 1) + num_edges + num_edges) 1 bvec
    ∧ ∀ i j, i < (num_nodes - 1) + num_edges + num_edges →
             j < num_edges + num_edges + (num_nodes - 1) →
        cell Mmat1 i j = stiffness_block_cell Amat Rmat Gmat num_nodes num_edges i j
        ∧ cell Mmat2 i j = damping_block_cell Lmat Cmat num_nodes num_edges i j
        ∧ cell bvec i 0 = source_block_cell fvec num_nodes num_edges i.
Proof.
  intros Hn HA HR HG HL HC Hf. unfold get_tableau_matrix.
  rewrite (dim_pred_pos _ Hn), bind_Ok.
  set (n1 := num_nodes - 1) in *. set (e := num_edges) in *.
  destruct (np_transpose_spec n1 e Amat HA) as (HAt & HcAt).
  destruct (hstack3_spec n1 e e n1 Amat (np_zeros n1 e) (np_zeros n1 n1))
    as (Mkcl & -> & Hkcl & Hckcl); [done | apply np_zeros_shape..|].
  destruct (hstack3_spec e e e n1 (np_zeros e e) (np_neg (np_eye e e)) (np_transpose Amat))
    as (Mkvl & -> & Hkvl & Hckvl);
    [apply np_zeros_shape | apply np_map_shape, np_eye_shape | done |].
  destruct (hstack3_spec e e e n1 Rmat Gmat (np_zeros e n1))
    as (Mcomp & -> & Hcomp & Hccomp); [done | done | apply np_zeros_shape |].
  rewrite !bind_Ok.
  destruct (vstack3_spec n1 e e (e + e + n1) Mkcl Mkvl Mcomp Hkcl Hkvl Hcomp)
    as (M1 & -> & HM1 & HcM1).
  destruct (vstack3_spec n1 e e 1 (np_zeros n1 1) (np_zeros e 1) fvec)
    as (b & -> & Hb & Hcb); [apply np_zeros_shape.. | done |].
  destruct (hstack3_spec e e e n1 Lmat Cmat (np_zeros e n1))
    as (Mdyn & -> & Hdyn & Hcdyn); [done | done | apply np_zeros_shape |].
  rewrite !bind_Ok.
  destruct (vstack_spec (e + n1) e (e + e + n1) (np_zeros (e + n1) (2 * e + n1)) Mdyn)
    as (M2 & -> & HM2 & HcM2).
  { replace (2 * e + n1) with (e + e + n1) by lia. apply np_zeros_shape. }
  { done. }
  rewrite bind_Ok. exists M1, M2, b. split_and!; [done | done | | done |].
  { replace (n1 + e + e) with (e + n1 + e) by lia. done. }
  intros i j Hi Hj. split_and!.
  - rewrite HcM1. unfold stiffness_block_cell. fold n1 e.
    destruct (decide (i < n1)) as [Hi1|Hi1].
    + rewrite Hckcl. destruct (decide (j < e)); [done|].
      destruct (decide (j < e + e)); apply np_zeros_cell; lia.
    + destruct (decide (i < n1 + e)) as [Hi2|Hi2].
      * rewrite Hckvl. destruct (decide (j < e)); [apply np_zeros_cell; lia|].
        destruct (decide (j < e + e)); [|apply HcAt].
        unfold np_neg. rewrite np_map_cell, np_eye_cell by lia. done.
      * rewrite Hccomp. destruct (decide (j < e)); [done|].
        destruct (decide (j < e + e)); [done|]. apply np_zeros_cell; lia.
  - rewrite HcM2. unfold damping_block_cell. fold n1 e.
    destruct (decide (i < e + n1)) as [Hi1|Hi1].
    + rewrite decide_True by lia. apply np_zeros_cell; lia.
    + rewrite decide_False by lia. rewrite Hcdyn.
      replace (i - (e + n1)) with (i - (n1 + e)) by lia.
      destruct (decide (j < e)); [done|].
      destruct (decide (j < e + e)); [done|]. apply np_zeros_cell; lia.
  - rewrite Hcb. unfold source_block_cell. fold n1 e.
    destruct (decide (i < n1)) as [Hi1|Hi1].
    + rewrite decide_True by lia. apply np_zeros_cell; lia.
    + destruct (decide (i < n1 + e)); [|done]. apply np_zeros_cell; lia.
Qed.

(** C2. For [Amat] of shape [(num_nodes - 1) x num_edges], [Rmat], [Gmat],
    [Lmat], [Cmat] of shape [num_edges x num_edges] and [fvec] of shape
    [num_edges x 1], [get_tableau_matrix] returns [Mmat1] equal, cell by cell,
    to [[A, 0, 0], [0, -I, A^T], [R, G, 0]], [Mmat2] zero except for its
    bottom row block [[L, C, 0]], and [bvec] equal to [[0; 0; fvec]], with
    the row blocks [num_nodes - 1], [num_edges], [num_edges] high and the
    column blocks [num_edges], [num_edges], [num_nodes - 1] wide. *)
Theorem get_tableau_matrix_blocks {T U} `{Dtype T} `{Dtype U}
    (Amat Rmat Gmat Lmat Cmat : ndarray T) (fvec : ndarray U) num_nodes num_edges :
  1 ≤ num_nodes →
  has_shape (num_nodes - 1) num_edges Amat →
  has_shape num_edges num_edges Rmat → has_shape num_edges num_edges Gmat →
  has_shape num_edges num_edges Lmat → has_shape num_edges num_edges Cmat →
  has_shape num_edges 1 fvec →
  ∃ Mmat1 Mmat2 bvec,
    get_tableau_matrix Amat Rmat Gmat Lmat Cmat fvec num_nodes num_edges
    = Ok (Mmat1, Mmat2, bvec)
    ∧ has_shape ((num_nodes - 1) + num_edges + num_edges)
                (num_edges + num_edges + (num_nodes - 1)) Mmat1
    ∧ has_shape ((num_nodes - 1) + num_edges + num_edges)
                (num_edges + num_edges + (num_nodes - 1)) Mmat2
    ∧ has_shape ((num_nodes - 1) + num_edges + num_edges) 1 bvec
    ∧ ∀ i j, i < (num_nodes - 1) + num_edges + num_edges →
             j < num_edges + num_edges + (num_nodes - 1) →
        cell Mmat1 i j = stiffness_block_cell Amat Rmat Gmat num_nodes num_edges i j
        ∧ cell Mmat2 i j = damping_block_cell Lmat Cmat num_nodes num_edges i j
        ∧ cell bvec i 0 = source_block_cell fvec num_nodes num_edges i.
Proof. apply tableau_blocks_cells. Qed.

Lemma get_tableau_matrix_blocks_witness :
  ∃ Mmat1 Mmat2 bvec,
    get_tableau_matrix (NdArray 1 [[Fin 1]]) (NdArray 1 [[Fin 5]]) (NdArray 1 [[Fin (-1)]])
      (NdArray 1 [[Fin 0]]) (NdArray 1 [[Fin 0]]) (NdArray 1 [[Fin 0]]) 2 1
    = Ok (Mmat1, Mmat2, bvec)
    ∧ has_shape 3 3 Mmat1 ∧ has_shape 3 3 Mmat2 ∧ has_shape 3 1 bvec
    ∧ ∀ i j, i < 3 → j < 3 →
        cell Mmat1 i j
        = stiffness_block_cell (NdArray 1 [[Fin 1]]) (NdArray 1 [[Fin 5]])
            (NdArray 1 [[Fin (-1)]]) 2 1 i j
        ∧ cell Mmat2 i j
          = damping_block_cell (NdArray 1 [[Fin 0]]) (NdArray 1 [[Fin 0]]) 2 1 i j
        ∧ cell bvec i 0 = source_block_cell (NdArray 1 [[Fin 0]]) 2 1 i.
Proof.
  refine (get_tableau_matrix_blocks
    (NdArray 1 [[Fin 1]]) (NdArray 1 [[Fin 5]]) (NdArray 1 [[Fin (-1)]])
    (NdArray 1 [[Fin 0]]) (NdArray 1 [[Fin 0]]) (NdArray 1 [[Fin 0]]) 2 1
    _ _ _ _ _ _ _);
    [lia | repeat split; repeat constructor ..].
Defined.

(** ** Row reordering *)

Lemma swap_index_involutive z v i : swap_index z v (swap_index z v i) = i.
Proof. unfold swap_index. repeat case_decide; congruence. Qed.

Lemma inv_of_perm_of pairs i : inv_of pairs (perm_of pairs i) = i.
Proof.
  induction pairs as [|[z v] pairs IH]; [done|]. cbn.
  by rewrite swap_index_involutive.
Qed.

Lemma perm_of_inv_of pairs i : perm_of pairs (inv_of pairs i) = i.
Proof.
  revert i. induction pairs as [|[z v] pairs IH]; intros i; [done|]. cbn.
  by rewrite IH, swap_index_involutive.
Qed.

Lemma swap_rows_spec {T} (A : ndarray T) z v :
  z < nd_nrows A → v < nd_nrows A →
  ∃ A', swap_rows A z v = Ok A' ∧ nd_nrows A' = nd_nrows A
        ∧ ∀ i, nd_rows A' !! i = nd_rows A !! swap_index z v i.
Proof.
  unfold nd_nrows. intros Hz Hv. unfold swap_rows.
  destruct (lookup_lt_is_Some_2 _ _ Hz) as [rz Hrz].
  destruct (lookup_lt_is_Some_2 _ _ Hv) as [rv Hrv].
  rewrite (getitem_Some _ _ _ Hrv), (getitem_Some _ _ _ Hrz), !bind_Ok.
  eexists. split_and!; [reflexivity | |].
  - cbn [nd_rows]. by rewrite !length_insert.
  - intros i. cbn [nd_rows]. unfold swap_index.
    destruct (decide (i = v)) as [->|Hiv].
    + rewrite list_lookup_insert_eq by (by rewrite length_insert). done.
    + rewrite list_lookup_insert_ne by done.
      destruct (decide (i = z)) as [->|Hiz].
      * by rewrite list_lookup_insert_eq.
      * by rewrite list_lookup_insert_ne.
Qed.

(** The loop of [elmer_format_matrix]: the three arrays go through the same
    exchanges. *)
Lemma swap_loop_spec {T} (pairs : list (nat * nat)) (B A s : ndarray T) :
  (∀ z v, (z, v) ∈ pairs →
     (z < nd_nrows B ∧ v < nd_nrows B) ∧ (z < nd_nrows A ∧ v < nd_nrows A)
     ∧ (z < nd_nrows s ∧ v < nd_nrows s)) →
  ∃ B' A' s',
    for_each pairs
      (fun '(zrow, vcomprow) '(elmer_Bmat, elmer_Amat, elmer_source) =>
         elmer_Bmat ← swap_rows elmer_Bmat zrow vcomprow;
         elmer_Amat ← swap_rows elmer_Amat zrow vcomprow;
         elmer_source ← swap_rows elmer_source zrow vcomprow;
         Ok (elmer_Bmat, elmer_Amat, elmer_source))
      (B, A, s) = Ok (B', A', s')
    ∧ (nd_nrows B' = nd_nrows B ∧ nd_nrows A' = nd_nrows A ∧ nd_nrows s' = nd_nrows s)
    ∧ ∀ i, nd_rows B' !! i = nd_rows B !! perm_of pairs i
           ∧ nd_rows A' !! i = nd_rows A !! perm_of pairs i
           ∧ nd_rows s' !! i = nd_rows s !! perm_of pairs i.
Proof.
  revert B A s. induction pairs as [|[z v] pairs IH]; intros B A s Hin.
  - exists B, A, s. by split_and!.
  - destruct (Hin z v) as ((HzB & HvB) & (HzA & HvA) & (Hzs & Hvs)); [left|].
    destruct (swap_rows_spec B z v HzB HvB) as (B1 & HB1 & HlB & HcB).
    destruct (swap_rows_spec A z v HzA HvA) as (A1 & HA1 & HlA & HcA).
    destruct (swap_rows_spec s z v Hzs Hvs) as (s1 & Hs1 & Hls & Hcs).
    destruct (IH B1 A1 s1) as (B' & A' & s' & Hrun & (HB' & HA' & Hs') & Hcell).
    { intros z' v' Hin'. rewrite HlB, HlA, Hls. apply Hin. by right. }
    exists B', A', s'. split_and!; [| congruence.. |].
    + cbn [for_each]. rewrite HB1, bind_Ok, HA1, bind_Ok, Hs1, !bind_Ok. exact Hrun.
    + intros i. destruct (Hcell i) as (H1 & H2 & H3). cbn [perm_of].
      by rewrite H1, H2, H3, HcB, HcA, Hcs.
Qed.

Lemma lookup_perm_Permutation {X} (l' l : list X) (σ τ : nat → nat) :
  length l' = length l → (∀ i, τ (σ i) = i) → (∀ i, l' !! i = l !! σ i) →
  l' ≡ₚ l.
Proof.
  intros Hlen Hinv Hlook. apply Permutation_inj. split; [done|].
  exists σ. split; [|done]. intros i j Hij.
  by rewrite <- (Hinv i), <- (Hinv j), Hij.
Qed.

(** C5. For zero_rows and vcomp_rows of one length whose indices are row
    indices of the three inputs, [elmer_format_matrix] returns three arrays
    whose rows are a permutation of the rows of the stiffness matrix, the
    damping matrix and the source vector, and one and the same permutation
    of the row indices gives all three. *)
Theorem elmer_format_matrix_permutes {T} (M1_str M2_str b_str : ndarray T)
    (vcomp_rows zero_rows : list nat) :
  length zero_rows = length vcomp_rows →
  (∀ i, i ∈ zero_rows ++ vcomp_rows →
        i < nd_nrows M1_str ∧ i < nd_nrows M2_str ∧ i < nd_nrows b_str) →
  ∃ elmer_Amat elmer_Bmat elmer_source (σ τ : nat → nat),
    elmer_format_matrix M1_str M2_str b_str vcomp_rows zero_rows
    = Ok (elmer_Amat, elmer_Bmat, elmer_source)
    ∧ nd_rows elmer_Bmat ≡ₚ nd_rows M1_str
    ∧ nd_rows elmer_Amat ≡ₚ nd_rows M2_str
    ∧ nd_rows elmer_source ≡ₚ nd_rows b_str
    ∧ (∀ i, τ (σ i) = i) ∧ (∀ i, σ (τ i) = i)
    ∧ ∀ i, nd_rows elmer_Bmat !! i = nd_rows M1_str !! σ i
           ∧ nd_rows elmer_Amat !! i = nd_rows M2_str !! σ i
           ∧ nd_rows elmer_source !! i = nd_rows b_str !! σ i.
Proof.
  intros _ Hrange. unfold elmer_format_matrix.
  destruct (swap_loop_spec (zip zero_rows vcomp_rows) M1_str M2_str b_str)
    as (B' & A' & s' & -> & (HlB & HlA & Hls) & Hcell).
  { intros z v Hin.
    pose proof (Hrange z) as Hz. pose proof (Hrange v) as Hv.
    rewrite elem_of_app in Hz, Hv.
    destruct Hz as (? & ? & ?); [left; by eapply elem_of_zip_l|].
    destruct Hv as (? & ? & ?); [right; by eapply elem_of_zip_r|]. done. }
  rewrite bind_Ok.
  exists A', B', s', (perm_of (zip zero_rows vcomp_rows)),
         (inv_of (zip zero_rows vcomp_rows)).
  split_and!; [done | | | | apply inv_of_perm_of | apply perm_of_inv_of | done].
  - eapply lookup_perm_Permutation; [exact HlB | apply inv_of_perm_of |].
    intros i. by destruct (Hcell i) as (? & ? & ?).
  - eapply lookup_perm_Permutation; [exact HlA | apply inv_of_perm_of |].
    intros i. by destruct (Hcell i) as (? & ? & ?).
  - eapply lookup_perm_Permutation; [exact Hls | apply inv_of_perm_of |].
    intros i. by destruct (Hcell i) as (? & ? & ?).
Qed.

Lemma elmer_format_matrix_permutes_witness :
  ∃ elmer_Amat elmer_Bmat elmer_source (σ τ : nat → nat),
    elmer_format_matrix
      (NdArray 2 [["1"; "0"]; ["R1"; "-1"]; ["0"; "0"]]%string)
      (NdArray 2 [["0"; "0"]; ["0"; "-L1"]; ["0"; "0"]]%string)
      (NdArray 1 [["0"]; ["-V1"]; ["0"]]%string) [1] [2]
    = Ok (elmer_Amat, elmer_Bmat, elmer_source)
    ∧ nd_rows elmer_Bmat ≡ₚ [["1"; "0"]; ["R1"; "-1"]; ["0"; "0"]]%string
    ∧ nd_rows elmer_Amat ≡ₚ [["0"; "0"]; ["0"; "-L1"]; ["0"; "0"]]%string
    ∧ nd_rows elmer_source ≡ₚ [["0"]; ["-V1"]; ["0"]]%string
    ∧ (∀ i, τ (σ i) = i) ∧ (∀ i, σ (τ i) = i)
    ∧ ∀ i, nd_rows elmer_Bmat !! i = [["1"; "0"]; ["R1"; "-1"]; ["0"; "0"]]%string !! σ i
           ∧ nd_rows elmer_Amat !! i
             = [["0"; "0"]; ["0"; "-L1"]; ["0"; "0"]]%string !! σ i
           ∧ nd_rows elmer_source !! i = [["0"]; ["-V1"]; ["0"]]%string !! σ i.
Proof.
  refine (elmer_format_matrix_permutes
    (NdArray 2 [["1"; "0"]; ["R1"; "-1"]; ["0"; "0"]]%string)
    (NdArray 2 [["0"; "0"]; ["0"; "-L1"]; ["0"; "0"]]%string)
    (NdArray 1 [["0"]; ["-V1"]; ["0"]]%string) [1] [2] _ _).
  - reflexivity.
  - intros i Hi. repeat (apply elem_of_cons in Hi as [->|Hi]; [vm_compute; lia|]).
    by apply elem_of_nil in Hi.
Defined.

(** C4. With two field-coupled-voltage rows and one zero row the loop of
    [elmer_format_matrix] stops after the first pair: the call succeeds, the
    first voltage row is exchanged with the zero row and the second one is
    returned as it came in, constraint and all. *)
Theorem elmer_format_matrix_drops_excess_rows :
  elmer_format_matrix
    (NdArray 2 [["R1"; "-1"]; ["R2"; "1"]; ["0"; "0"]]%string)
    (NdArray 2 [["0"; "0"]; ["0"; "-L1"]; ["0"; "0"]]%string)
    (NdArray 1 [["0"]; ["-V1"]; ["0"]]%string) [0; 1] [2]
  = Ok (NdArray 2 [["0"; "0"]; ["0"; "-L1"]; ["0"; "0"]]%string,
        NdArray 2 [["0"; "0"]; ["R2"; "1"]; ["R1"; "-1"]]%string,
        NdArray 1 [["0"]; ["-V1"]; ["0"]]%string).
Proof. reflexivity. Qed.

(** C10. A component declared open with boundaries 1 and 2 and then closed
    reports a closed terminal type while [getOpenTerminals] still returns
    the two boundary ids. *)
Theorem closed_component_keeps_boundaries :
  let comp := ElmerComponent.run
                [ElmerComponent.CallIsOpen (Some 1%Z) (Some 2%Z);
                 ElmerComponent.CallIsClosed]
                (ElmerComponent.init "Coil1" 1 2 1 [] 1) in
  ElmerComponent.getTerminalType comp = Some true
  ∧ ElmerComponent.getOpenTerminals comp = [Some 1%Z; Some 2%Z]
  ∧ ElmerComponent.closed_with_boundaries comp.
Proof. cbv zeta. split_and!; [reflexivity | reflexivity | by split]. Qed.

(** ** Branch-law matrices *)

(** A loop writing [g i] at [(i, i)] for the indices of [ind]. *)
Lemma diag_loop_spec {T} (body : nat → ndarray T → result (ndarray T))
    (g : nat → T) (z : T) (ind : list nat) n :
  (∀ i, i ∈ ind →
        i < n ∧ ∀ M, body i M = setitem M (Z.of_nat i) (Z.of_nat i) (g i)) →
  ∃ M, for_each ind body (np_full n n z) = Ok M ∧ has_shape n n M
       ∧ ∀ i j, i < n → j < n →
           cell M i j = Some (if decide (i = j ∧ i ∈ ind) then g i else z).
Proof.
  intros Hbody.
  destruct (for_each_assign body (fun i => (i, i)) (fun i _ => g i) ind n n)
    with (M := np_full n n z) as (M & Hrun & HM & Hcell).
  - intros i Hi. destruct (Hbody i Hi) as (Hlt & Hset). cbn.
    split_and!; [done..|]. intros M _. apply Hset.
  - apply np_full_shape.
  - exists M. split_and!; [done..|]. intros i j Hi Hj.
    rewrite Hcell, np_full_cell by done.
    destruct (decide (i = j ∧ i ∈ ind)) as [[-> Hin]|Hne].
    + rewrite bool_decide_eq_true_2; [done|].
      apply list_elem_of_fmap. by exists j.
    + rewrite bool_decide_eq_false_2; [done|]. intros Hin. apply Hne.
      apply list_elem_of_fmap in Hin as (k & [= -> ->] & Hk). done.
Qed.

Lemma to_float_real components i :
  has_real_value components i →
  ∀ {T} (k : float64 → result T),
    (c ← getitem components i; v ← to_float (value c); k v)
    = k (real_value_at components i).
Proof.
  intros (c & x & Hc & Hv) T k. unfold real_value_at.
  by rewrite (getitem_Some _ _ _ Hc), bind_Ok, Hc, Hv.
Qed.

Lemma neg_to_float_real components i :
  has_real_value components i →
  ∀ {T} (k : float64 → result T),
    (c ← getitem components i; v ← neg_to_float (value c); k v)
    = k (fneg (real_value_at components i)).
Proof.
  intros (c & x & Hc & Hv) T k. unfold real_value_at.
  by rewrite (getitem_Some _ _ _ Hc), bind_Ok, Hc, Hv.
Qed.

Lemma get_resistance_matrix_cells components nedges indr indi indcap :
  (∀ i, i ∈ indr ++ indi ++ indcap → i < nedges) →
  (∀ i, i ∈ indr → has_real_value components i) →
  ∃ Rmat, get_resistance_matrix components nedges indr indi indcap = Ok Rmat
          ∧ has_shape nedges nedges Rmat
          ∧ ∀ i j, i < nedges → j < nedges →
              cell Rmat i j
              = Some (fadd (fadd (if decide (i = j ∧ i ∈ indr)
                                  then real_value_at components i else Fin 0)
                                 (if decide (i = j ∧ i ∈ indi) then Fin 1 else Fin 0))
                           (if decide (i = j ∧ i ∈ indcap) then Fin 1 else Fin 0)).
Proof.
  intros Hrange Hreal. unfold get_resistance_matrix.
  destruct (diag_loop_spec
              (fun i M => c ← getitem components i; v ← to_float (value c);
                          setitem M (Z.of_nat i) (Z.of_nat i) v)
              (real_value_at components) (Fin 0) indr nedges)
    as (Rr & Hr & HRr & HcRr).
  { intros i Hi. split; [apply Hrange; rewrite !elem_of_app; auto|].
    intros M. apply (to_float_real _ _ (Hreal i Hi)). }
  destruct (diag_loop_spec
              (fun i M => setitem M (Z.of_nat i) (Z.of_nat i) (Fin 1))
              (fun _ => Fin 1) (Fin 0) indi nedges)
    as (Ri & Hi & HRi & HcRi).
  { intros i Hi. split; [apply Hrange; rewrite !elem_of_app; auto | done]. }
  destruct (diag_loop_spec
              (fun i M => setitem M (Z.of_nat i) (Z.of_nat i) (Fin 1))
              (fun _ => Fin 1) (Fin 0) indcap nedges)
    as (Rc & Hc & HRc & HcRc).
  { intros i Hi'. split; [apply Hrange; rewrite !elem_of_app; auto | done]. }
  unfold np_zeros. cbn [dt_zero float64_dtype].
  rewrite Hr, bind_Ok, Hi, bind_Ok, Hc, bind_Ok.
  eexists. split_and!; [reflexivity | |].
  - by repeat apply np_zip_with_shape.
  - intros i j Hi' Hj'. unfold np_add.
    apply np_zip_with_cell; [apply np_zip_with_cell|]; auto.
Qed.

Lemma get_conductance_matrix_cells nedges indr indv indInd :
  (∀ i, i ∈ indr ++ indv ++ indInd → i < nedges) →
  ∃ Gmat, get_conductance_matrix nedges indr indv indInd = Ok Gmat
          ∧ has_shape nedges nedges Gmat
          ∧ ∀ i j, i < nedges → j < nedges →
              cell Gmat i j
              = Some (fadd (fadd (if decide (i = j ∧ i ∈ indr) then Fin (-1) else Fin 0)
                                 (if decide (i = j ∧ i ∈ indv) then Fin 1 else Fin 0))
                           (if decide (i = j ∧ i ∈ indInd) then Fin 1 else Fin 0)).
Proof.
  intros Hrange. unfold get_conductance_matrix.
  destruct (diag_loop_spec
              (fun i M => setitem M (Z.of_nat i) (Z.of_nat i) (Fin (-1)))
              (fun _ => Fin (-1)) (Fin 0) indr nedges)
    as (Gr & Hr & HGr & HcGr).
  { intros i Hi. split; [apply Hrange; rewrite !elem_of_app; auto | done]. }
  destruct (diag_loop_spec
              (fun i M => setitem M (Z.of_nat i) (Z.of_nat i) (Fin 1))
              (fun _ => Fin 1) (Fin 0) indv nedges)
    as (Gv & Hv & HGv & HcGv).
  { intros i Hi. split; [apply Hrange; rewrite !elem_of_app; auto | done]. }
  destruct (diag_loop_spec
              (fun i M => setitem M (Z.of_nat i) (Z.of_nat i) (Fin 1))
              (fun _ => Fin 1) (Fin 0) indInd nedges)
    as (Gi & Hi & HGi & HcGi).
  { intros i Hi'. split; [apply Hrange; rewrite !elem_of_app; auto | done]. }
  unfold np_zeros. cbn [dt_zero float64_dtype].
  rewrite Hr, bind_Ok, Hv, bind_Ok, Hi, bind_Ok.
  eexists. split_and!; [reflexivity | |].
  - by repeat apply np_zip_with_shape.
  - intros i j Hi' Hj'. unfold np_add.
    apply np_zip_with_cell; [apply np_zip_with_cell|]; auto.
Qed.

(** The common text of [get_inductance_matrix] and [get_capacitance_matrix]. *)
Lemma negated_value_matrix_cells components nedges ind :
  (∀ i, i ∈ ind → i < nedges) →
  (∀ i, i ∈ ind → has_real_value components i) →
  ∃ M, for_each ind
         (fun i M => c ← getitem components i; v ← neg_to_float (value c);
                     setitem M (Z.of_nat i) (Z.of_nat i) v)
         (np_zeros nedges nedges) = Ok M
       ∧ has_shape nedges nedges M
       ∧ ∀ i j, i < nedges → j < nedges →
           cell M i j = Some (if decide (i = j ∧ i ∈ ind)
                              then fneg (real_value_at components i) else Fin 0).
Proof.
  intros Hrange Hreal.
  apply (diag_loop_spec
           (fun i M => c ← getitem components i; v ← neg_to_float (value c);
                       setitem M (Z.of_nat i) (Z.of_nat i) v)
           (fun i => fneg (real_value_at components i)) (Fin 0) ind nedges).
  intros i Hi. split; [by apply Hrange|].
  intros M. apply (neg_to_float_real _ _ (Hreal i Hi)).
Qed.

Lemma real_value_at_Fin components i :
  has_real_value components i → ∃ x, real_value_at components i = Fin x.
Proof.
  intros (c & x & Hc & Hv). exists x. unfold real_value_at. by rewrite Hc, Hv.
Qed.



(** ** Source vector *)

(** C6. Two current sources, the first of value 2 and the second of
    value 1+1j: the vector rebuilt from the real and imaginary accumulators
    at the complex source no longer holds the 2 stored before it. In the
    other order both values are kept. *)
Theorem get_rhs_loses_real_source_before_complex :
  get_rhs [mkComponent ClsI "I1" 1 2 (PyReal 2); mkComponent ClsI "I2" 2 1 (PyComplex 1 1)]
    2 [0; 1] []
  = Ok (NdArray 1 [[Complex (Fin 0) (Fin 0)]; [Complex (Fin 1) (Fin 1)]])
  ∧ get_rhs [mkComponent ClsI "I2" 2 1 (PyComplex 1 1); mkComponent ClsI "I1" 1 2 (PyReal 2)]
      2 [0; 1] []
    = Ok (NdArray 1 [[Complex (Fin 1) (Fin 1)]; [Complex (Fin 2) (Fin 0)]]).
Proof. split; reflexivity. Qed.

Lemma for_each_snd {X S1 S2} (body : X → S1 * S2 → result (S1 * S2))
    (body' : X → S2 → result S2) (xs : list X) :
  (∀ x a s, x ∈ xs → body x (a, s) = (s' ← body' x s; Ok (a, s'))) →
  ∀ a s, for_each xs body (a, s) = (s' ← for_each xs body' s; Ok (a, s')).
Proof.
  induction xs as [|x xs IH]; intros Hbody a s; [done|].
  cbn [for_each]. rewrite (Hbody x a s) by left.
  destruct (body' x s) as [s1|e]; [|done]. rewrite !bind_Ok.
  apply IH. intros y a' s' Hy. apply Hbody. by right.
Qed.

(** A source loop over sources that all have a real value. *)
Lemma rhs_loop_real negate components nedges ind :
  (∀ i, i ∈ ind → i < nedges ∧ has_real_value components i) →
  ∃ M, rhs_loop negate components nedges ind = Ok M ∧ has_shape nedges 1 M
       ∧ ∀ i, i < nedges →
           cell M i 0
           = Some (if decide (i ∈ ind)
                   then Complex (if negate then fneg (real_value_at components i)
                                 else real_value_at components i) (Fin 0)
                   else Complex (Fin 0) (Fin 0)).
Proof.
  intros Hind. unfold rhs_loop, rhs_state.
  set (g := fun i => Complex (if negate then fneg (real_value_at components i)
                              else real_value_at components i) (Fin 0)).
  rewrite (for_each_snd _ (fun i M => setrow M (Z.of_nat i) (g i))).
  - destruct (for_each_assign
                (fun i M => setrow M (Z.of_nat i) (g i))
                (fun i => (i, 0)) (fun i _ => g i) ind nedges 1)
      with (M := np_zeros nedges 1 : ndarray complex128) as (M & -> & HM & Hcell).
    + intros i Hi. destruct (Hind i Hi) as (Hlt & _). cbn.
      split_and!; [done | lia |]. intros M HM.
      apply (setrow_column_vector nedges M _ _ HM).
    + apply np_zeros_shape.
    + rewrite !bind_Ok. exists M. split_and!; [done..|]. intros i Hi.
      rewrite Hcell, np_zeros_cell by (done || lia).
      destruct (decide (i ∈ ind)) as [Hin|Hnin].
      * rewrite bool_decide_eq_true_2; [done|].
        apply list_elem_of_fmap. by exists i.
      * rewrite bool_decide_eq_false_2; [done|]. intros Hin. apply Hnin.
        apply list_elem_of_fmap in Hin as (k & [= ->] & Hk). done.
  - intros i a s Hi. destruct (Hind i Hi) as (_ & c & x & Hc & Hv).
    rewrite (getitem_Some _ _ _ Hc), bind_Ok, Hv. cbn [fst snd].
    unfold g, real_value_at. rewrite Hc, Hv.
    destruct negate; cbn [neg_to_float to_float]; rewrite bind_Ok; reflexivity.
Qed.

Lemma get_rhs_real components nedges indi indv :
  (∀ i, i ∈ indi ++ indv → i < nedges ∧ has_real_value components i) →
  ∃ rhs, get_rhs components nedges indi indv = Ok rhs ∧ has_shape nedges 1 rhs
         ∧ ∀ i, i < nedges →
             cell rhs i 0
             = Some (cadd (if decide (i ∈ indv)
                           then Complex (fneg (real_value_at components i)) (Fin 0)
                           else Complex (Fin 0) (Fin 0))
                          (if decide (i ∈ indi)
                           then Complex (real_value_at components i) (Fin 0)
                           else Complex (Fin 0) (Fin 0))).
Proof.
  intros Hind. unfold get_rhs.
  destruct (rhs_loop_real false components nedges indi) as (Ri & -> & HRi & HcRi).
  { intros i Hi. apply Hind. rewrite elem_of_app. auto. }
  destruct (rhs_loop_real true components nedges indv) as (Rv & -> & HRv & HcRv).
  { intros i Hi. apply Hind. rewrite elem_of_app. auto. }
  rewrite !bind_Ok. eexists. split_and!; [reflexivity | |].
  - by apply np_zip_with_shape.
  - intros i Hi. unfold np_add. by apply np_zip_with_cell; auto.
Qed.

(** ** Byte strings and tokens *)

Lemma substring_all n s : String.length s ≤ n → substring 0 n s = s.
Proof.
  revert n. induction s as [|a s IH]; intros [|n] Hn; cbn in *; try done; try lia.
  f_equal. apply IH. lia.
Qed.

Lemma bytes500_short s : String.length s ≤ 500 → bytes500 s = s.
Proof. apply substring_all. Qed.

Lemma append_nil_r s : (s +:+ "")%string = s.
Proof.
  induction s as [|a s IH]; [done|].
  change (String a (s +:+ "") = String a s). by rewrite IH.
Qed.

Lemma zero_token_minus s : zero_token s = false → zero_token ("-" +:+ s)%string = false.
Proof.
  unfold zero_token. change ("-" +:+ s) with (String "-" s).
  rewrite !orb_false_iff. intros (((_ & _) & H0) & _).
  apply bool_decide_eq_false_1 in H0.
  split_and!; apply bool_decide_eq_false_2; intros Heq; try discriminate Heq.
  apply H0. by injection Heq.
Qed.

(** ** Index lists *)

Lemma elem_of_isinstance_indices k components i :
  i ∈ isinstance_indices k components ↔ ∃ c, components !! i = Some c ∧ cls c = k.
Proof.
  unfold isinstance_indices. rewrite list_elem_of_fmap. split.
  - intros ([j c] & -> & Hin). apply list_elem_of_filter in Hin as [Hk Hin].
    apply list_elem_of_lookup_1 in Hin as [n Hn].
    rewrite list_lookup_imap in Hn. destruct (components !! n) eqn:Hc; [|done].
    cbn in Hn. injection Hn as <- <-. eauto.
  - intros (c & Hc & Hk). exists (i, c). split; [done|].
    apply list_elem_of_filter. split; [done|].
    apply (list_elem_of_lookup_2 _ i). by rewrite list_lookup_imap, Hc.
Qed.

Lemma isinstance_indices_lt k components i :
  i ∈ isinstance_indices k components → i < length components.
Proof.
  intros (c & Hc & _)%elem_of_isinstance_indices. by eapply lookup_lt_Some.
Qed.

(** ** The string builders, cell by cell *)

Lemma name_getitem components i :
  i < length components →
  ∀ {T} (k : string → result T),
    (c ← getitem components i; k (name c)) = k (name_at components i).
Proof.
  intros Hi T k. destruct (lookup_lt_is_Some_2 _ _ Hi) as [c Hc].
  unfold name_at. by rewrite (getitem_Some _ _ _ Hc), bind_Ok, Hc.
Qed.

(** Three diagonal loops and the cell by cell combination of their
    results: the text shared by the resistance and conductance builders. *)
Lemma three_diag_loops {T} (comb : T → T → T) (z : T)
    (b1 b2 b3 : nat → ndarray T → result (ndarray T)) (g1 g2 g3 : nat → T)
    (ind1 ind2 ind3 : list nat) n :
  (∀ i, i ∈ ind1 → i < n ∧ ∀ M, b1 i M = setitem M (Z.of_nat i) (Z.of_nat i) (g1 i)) →
  (∀ i, i ∈ ind2 → i < n ∧ ∀ M, b2 i M = setitem M (Z.of_nat i) (Z.of_nat i) (g2 i)) →
  (∀ i, i ∈ ind3 → i < n ∧ ∀ M, b3 i M = setitem M (Z.of_nat i) (Z.of_nat i) (g3 i)) →
  ∃ M, (M1 ← for_each ind1 b1 (np_full n n z);
        M2 ← for_each ind2 b2 (np_full n n z);
        M3 ← for_each ind3 b3 (np_full n n z);
        Ok (np_zip_with comb (np_zip_with comb M1 M2) M3)) = Ok M
       ∧ has_shape n n M
       ∧ ∀ i j, i < n → j < n →
           cell M i j
           = Some (comb (comb (if decide (i = j ∧ i ∈ ind1) then g1 i else z)
                              (if decide (i = j ∧ i ∈ ind2) then g2 i else z))
                        (if decide (i = j ∧ i ∈ ind3) then g3 i else z)).
Proof.
  intros H1 H2 H3.
  destruct (diag_loop_spec b1 g1 z ind1 n H1) as (M1 & -> & Hs1 & Hc1).
  destruct (diag_loop_spec b2 g2 z ind2 n H2) as (M2 & -> & Hs2 & Hc2).
  destruct (diag_loop_spec b3 g3 z ind3 n H3) as (M3 & -> & Hs3 & Hc3).
  rewrite !bind_Ok. eexists. split_and!; [reflexivity | |].
  - by repeat apply np_zip_with_shape.
  - intros i j Hi Hj. apply np_zip_with_cell; [apply np_zip_with_cell|]; auto.
Qed.

Lemma get_resistance_matrix_str_cells components nedges indr indi indcap :
  (∀ i, i ∈ indr ++ indi ++ indcap → i < nedges) →
  (∀ i, i ∈ indr → i < length components) →
  ∃ Rmat_str,
    get_resistance_matrix_str components nedges indr indi indcap = Ok Rmat_str
    ∧ has_shape nedges nedges Rmat_str
    ∧ ∀ i j, i < nedges → j < nedges →
        cell Rmat_str i j
        = Some (((if decide (i = j ∧ i ∈ indr) then bytes500 (name_at components i) else "")
                 +:+ (if decide (i = j ∧ i ∈ indi) then bytes500 "1" else ""))
                +:+ (if decide (i = j ∧ i ∈ indcap) then bytes500 "1" else ""))%string.
Proof.
  intros Hrange Hlen. unfold get_resistance_matrix_str.
  destruct (three_diag_loops String.append ""%string
    (fun i M => c ← getitem components i;
                setitem M (Z.of_nat i) (Z.of_nat i) (bytes500 (name c)))
    (fun i M => setitem M (Z.of_nat i) (Z.of_nat i) (bytes500 "1"))
    (fun i M => setitem M (Z.of_nat i) (Z.of_nat i) (bytes500 "1"))
    (fun i => bytes500 (name_at components i)) (fun _ => bytes500 "1")
    (fun _ => bytes500 "1") indr indi indcap nedges)
    as (M & HM & Hs & Hc).
  - intros i Hi. split; [apply Hrange; rewrite !elem_of_app; auto|].
    intros M.
    apply (name_getitem _ _ (Hlen i Hi)
             (fun nm => setitem M (Z.of_nat i) (Z.of_nat i) (bytes500 nm))).
  - intros i Hi. split; [apply Hrange; rewrite !elem_of_app; auto | done].
  - intros i Hi. split; [apply Hrange; rewrite !elem_of_app; auto | done].
  - exists M. split_and!; [exact HM | done |]. intros i j Hi Hj. by apply Hc.
Qed.

Lemma get_conductance_matrix_str_cells nedges indr indv indInd :
  (∀ i, i ∈ indr ++ indv ++ indInd → i < nedges) →
  ∃ Gmat_str,
    get_conductance_matrix_str nedges indr indv indInd = Ok Gmat_str
    ∧ has_shape nedges nedges Gmat_str
    ∧ ∀ i j, i < nedges → j < nedges →
        cell Gmat_str i j
        = Some (((if decide (i = j ∧ i ∈ indr) then bytes500 "-1" else "")
                 +:+ (if decide (i = j ∧ i ∈ indv) then bytes500 "1" else ""))
                +:+ (if decide (i = j ∧ i ∈ indInd) then bytes500 "1" else ""))%string.
Proof.
  intros Hrange. unfold get_conductance_matrix_str.
  destruct (three_diag_loops String.append ""%string
    (fun i M => setitem M (Z.of_nat i) (Z.of_nat i) (bytes500 "-1"))
    (fun i M => setitem M (Z.of_nat i) (Z.of_nat i) (bytes500 "1"))
    (fun i M => setitem M (Z.of_nat i) (Z.of_nat i) (bytes500 "1"))
    (fun _ => bytes500 "-1") (fun _ => bytes500 "1")
    (fun _ => bytes500 "1") indr indv indInd nedges)
    as (M & HM & Hs & Hc).
  - intros i Hi. split; [apply Hrange; rewrite !elem_of_app; auto | done].
  - intros i Hi. split; [apply Hrange; rewrite !elem_of_app; auto | done].
  - intros i Hi. split; [apply Hrange; rewrite !elem_of_app; auto | done].
  - exists M. split_and!; [exact HM | done |]. intros i j Hi Hj. by apply Hc.
Qed.

(** The common text of [get_inductance_matrix_str] and
    [get_capacitance_matrix_str]. *)
Lemma negated_name_matrix_cells components nedges ind :
  (∀ i, i ∈ ind → i < nedges ∧ i < length components) →
  ∃ M, for_each ind
         (fun i M => c ← getitem components i;
                     setitem M (Z.of_nat i) (Z.of_nat i) (bytes500 ("-" +:+ name c)))
         (np_full nedges nedges ""%string) = Ok M
       ∧ has_shape nedges nedges M
       ∧ ∀ i j, i < nedges → j < nedges →
           cell M i j = Some (if decide (i = j ∧ i ∈ ind)
                              then bytes500 ("-" +:+ name_at components i) else "").
Proof.
  intros Hind.
  apply (diag_loop_spec
           (fun i M => c ← getitem components i;
                       setitem M (Z.of_nat i) (Z.of_nat i) (bytes500 ("-" +:+ name c)))
           (fun i => bytes500 ("-" +:+ name_at components i)) ""%string ind nedges).
  intros i Hi. destruct (Hind i Hi) as [Hlt Hlen]. split; [done|].
  intros M.
  apply (name_getitem _ _ Hlen
           (fun nm => setitem M (Z.of_nat i) (Z.of_nat i) (bytes500 ("-" +:+ nm)))).
Qed.

(** One loop of [get_rhs_str]. *)
Lemma rhs_str_loop_cells (f : string → string) components nedges ind :
  (∀ i, i ∈ ind → i < nedges ∧ i < length components) →
  ∃ M, for_each ind
         (fun i M => c ← getitem components i; setrow M (Z.of_nat i) (f (name c)))
         (np_full nedges 1 ""%string) = Ok M
       ∧ has_shape nedges 1 M
       ∧ ∀ i, i < nedges →
           cell M i 0 = Some (if decide (i ∈ ind) then f (name_at components i) else "").
Proof.
  intros Hind.
  destruct (for_each_assign
              (fun i M => c ← getitem components i; setrow M (Z.of_nat i) (f (name c)))
              (fun i => (i, 0)) (fun i _ => f (name_at components i)) ind nedges 1)
    with (M := np_full nedges 1 ""%string) as (M & HM & Hs & Hc).
  - intros i Hi. destruct (Hind i Hi) as [Hlt Hlen]. cbn.
    split_and!; [done | lia |]. intros M HM.
    rewrite (name_getitem _ _ Hlen (fun nm => setrow M (Z.of_nat i) (f nm))).
    apply (setrow_column_vector nedges M _ _ HM).
  - apply np_full_shape.
  - exists M. split_and!; [done..|]. intros i Hi.
    rewrite Hc, np_full_cell by (done || lia).
    destruct (decide (i ∈ ind)) as [Hin|Hnin].
    + rewrite bool_decide_eq_true_2; [done|]. apply list_elem_of_fmap. by exists i.
    + rewrite bool_decide_eq_false_2; [done|]. intros Hin. apply Hnin.
      apply list_elem_of_fmap in Hin as (k & [= ->] & Hk). done.
Qed.

Lemma get_rhs_str_cells components nedges indi indv :
  (∀ i, i ∈ indi ++ indv → i < nedges ∧ i < length components) →
  ∃ rhs_str, get_rhs_str components nedges indi indv = Ok rhs_str
             ∧ has_shape nedges 1 rhs_str
             ∧ ∀ i, i < nedges →
                 cell rhs_str i 0
                 = Some ((if decide (i ∈ indv)
                          then bytes500 ("-" +:+ name_at components i) else "")
                         +:+ (if decide (i ∈ indi)
                              then bytes500 (name_at components i) else ""))%string.
Proof.
  intros Hind. unfold get_rhs_str.
  destruct (rhs_str_loop_cells bytes500 components nedges indi) as (Mi & -> & Hsi & Hci).
  { intros i Hi. apply Hind. rewrite elem_of_app. auto. }
  destruct (rhs_str_loop_cells (fun nm => bytes500 ("-" +:+ nm)) components nedges indv)
    as (Mv & -> & Hsv & Hcv).
  { intros i Hi. apply Hind. rewrite elem_of_app. auto. }
  rewrite !bind_Ok. eexists. split_and!; [reflexivity | |].
  - by apply np_zip_with_shape.
  - intros i Hi. by apply np_zip_with_cell; auto.
Qed.

(** ** Agreement of the two tracks *)

Lemma cells_agree_arrays {T} (rel : T → string → Prop) r c N S :
  cells_agree rel r c N S → arrays_agree rel N S.
Proof.
  intros (HN & HS & Hcell). split.
  - destruct HN as (_ & -> & _), HS as (_ & -> & _). done.
  - apply Forall2_same_length_lookup_2.
    { destruct HN as (-> & _), HS as (-> & _). done. }
    intros i rn rs Hrn Hrs.
    assert (i < r) as Hi by (destruct HN as (<- & _); by eapply lookup_lt_Some).
    apply Forall2_same_length_lookup_2.
    { by rewrite (has_shape_row _ _ _ _ _ HN Hrn), (has_shape_row _ _ _ _ _ HS Hrs). }
    intros j x s Hx Hs.
    assert (j < c) as Hj.
    { rewrite <- (has_shape_row _ _ _ _ _ HN Hrn). by eapply lookup_lt_Some. }
    destruct (Hcell i j Hi Hj) as (x' & s' & Hx' & Hs' & Hrel).
    unfold cell in Hx', Hs'. rewrite Hrn in Hx'. rewrite Hrs in Hs'. cbn in *.
    congruence.
Qed.

Lemma agree_agree_raw x s : agree x s → agree_raw x s.
Proof.
  intros [Hz Hm]. split; [done|]. rewrite Hz, Hm.
  destruct x as [z| |]; cbn; try done. destruct z; done.
Qed.

Lemma agree_positive x nm : (0 < x)%Z → plain_name nm → agree (Fin x) nm.
Proof.
  intros Hx (_ & Hm & Hz). split; rewrite ?Hz, ?Hm; cbn; symmetry.
  - rewrite negb_involutive. by apply Z.eqb_neq, Z.neq_sym, Z.lt_neq.
  - apply Z.ltb_ge. lia.
Qed.

Lemma agree_negated x nm :
  (0 < x)%Z → plain_name nm → agree (fneg (Fin x)) ("-" +:+ nm).
Proof.
  intros Hx (_ & Hm & Hz). destruct x as [|p|p]; try lia.
  split; [by rewrite zero_token_minus | done].
Qed.

Lemma bytes500_plain nm : plain_name nm → bytes500 nm = nm.
Proof. intros (Hlen & _). apply bytes500_short. lia. Qed.

Lemma bytes500_minus_plain nm : plain_name nm → bytes500 ("-" +:+ nm) = ("-" +:+ nm)%string.
Proof.
  intros (Hlen & _). apply bytes500_short.
  change (S (String.length nm) ≤ 500). lia.
Qed.

Lemma decide_isinstance {X} k components i c (a b : X) :
  components !! i = Some c →
  (if decide (i = i ∧ i ∈ isinstance_indices k components) then a else b)
  = if decide (cls c = k) then a else b.
Proof.
  intros Hc. destruct (decide (cls c = k)) as [Hk|Hk].
  - rewrite decide_True; [done|]. split; [done|].
    apply elem_of_isinstance_indices. eauto.
  - rewrite decide_False; [done|]. intros [_ Hin].
    apply elem_of_isinstance_indices in Hin as (c' & Hc' & Hk'). congruence.
Qed.

Lemma decide_isinstance_mem {X} k components i c (a b : X) :
  components !! i = Some c →
  (if decide (i ∈ isinstance_indices k components) then a else b)
  = if decide (cls c = k) then a else b.
Proof.
  intros Hc. destruct (decide (cls c = k)) as [Hk|Hk].
  - rewrite decide_True; [done|]. apply elem_of_isinstance_indices. eauto.
  - rewrite decide_False; [done|]. intros Hin.
    apply elem_of_isinstance_indices in Hin as (c' & Hc' & Hk'). congruence.
Qed.

Section Agreement.

Variable components : list Component.
Hypothesis Hpos : ∀ c, c ∈ components → positive_component c.

Lemma positive_at i c k :
  components !! i = Some c → cls c = k → k ≠ ClsComponent → k ≠ ClsElmerComponent →
  ∃ x, real_value_at components i = Fin x ∧ (0 < x)%Z
       ∧ plain_name (name_at components i) ∧ has_real_value components i.
Proof.
  intros Hc Hk Hk1 Hk2. pose proof (Hpos c (list_elem_of_lookup_2 _ _ _ Hc)) as Hp.
  unfold positive_component in Hp. rewrite Hk in Hp.
  assert ((∃ x, value c = PyReal x ∧ (0 < x)%Z) ∧ plain_name (name c))
    as ((x & Hv & Hx) & Hn) by (by destruct k).
  exists x. unfold real_value_at, name_at, has_real_value. rewrite Hc, Hv.
  split_and!; [done..|]. eauto.
Qed.

Lemma real_indices k i :
  k ≠ ClsComponent → k ≠ ClsElmerComponent →
  i ∈ isinstance_indices k components → has_real_value components i.
Proof.
  intros Hk1 Hk2 (c & Hc & Hk)%elem_of_isinstance_indices.
  by destruct (positive_at i c k Hc Hk Hk1 Hk2) as (x & _ & _ & _ & ?).
Qed.

Lemma resistance_agree :
  ∃ R R_str,
    get_resistance_matrix components (length components)
      (isinstance_indices ClsR components) (isinstance_indices ClsI components)
      (isinstance_indices ClsC components) = Ok R
    ∧ get_resistance_matrix_str components (length components)
        (isinstance_indices ClsR components) (isinstance_indices ClsI components)
        (isinstance_indices ClsC components) = Ok R_str
    ∧ cells_agree agree (length components) (length components) R R_str.
Proof.
  destruct (get_resistance_matrix_cells components (length components)
              (isinstance_indices ClsR components) (isinstance_indices ClsI components)
              (isinstance_indices ClsC components)) as (R & HR & HsR & HcR).
  { intros i Hi. rewrite !elem_of_app in Hi.
    destruct Hi as [?|[?|?]]; by eapply isinstance_indices_lt. }
  { intros i Hi. by apply (real_indices ClsR). }
  destruct (get_resistance_matrix_str_cells components (length components)
              (isinstance_indices ClsR components) (isinstance_indices ClsI components)
              (isinstance_indices ClsC components)) as (Rs & HRs & HsRs & HcRs).
  { intros i Hi. rewrite !elem_of_app in Hi.
    destruct Hi as [?|[?|?]]; by eapply isinstance_indices_lt. }
  { intros i Hi. by eapply isinstance_indices_lt. }
  exists R, Rs. split_and!; [done..|]. split_and!; [done..|].
  intros i j Hi Hj. eexists _, _. split_and!; [by apply HcR | by apply HcRs |].
  destruct (decide (i = j)) as [->|Hne].
  - destruct (lookup_lt_is_Some_2 components j) as [c Hc]; [done|].
    rewrite !(decide_isinstance _ _ _ _ _ _ Hc).
    destruct (cls c) eqn:Hk; repeat (case_decide; try done).
    destruct (positive_at j c ClsR Hc Hk) as (x & -> & Hx & Hn & _); [done..|].
    rewrite bytes500_plain, !append_nil_r by done.
    replace (fadd (fadd (Fin x) (Fin 0)) (Fin 0)) with (Fin x)
      by (cbn; f_equal; lia).
    by apply agree_positive.
  - rewrite !decide_False by tauto. done.
Qed.

Lemma conductance_agree :
  ∃ G G_str,
    get_conductance_matrix (length components)
      (isinstance_indices ClsR components) (isinstance_indices ClsV components)
      (isinstance_indices ClsL components) = Ok G
    ∧ get_conductance_matrix_str (length components)
        (isinstance_indices ClsR components) (isinstance_indices ClsV components)
        (isinstance_indices ClsL components) = Ok G_str
    ∧ cells_agree agree (length components) (length components) G G_str.
Proof.
  destruct (get_conductance_matrix_cells (length components)
              (isinstance_indices ClsR components) (isinstance_indices ClsV components)
              (isinstance_indices ClsL components)) as (G & HG & HsG & HcG).
  { intros i Hi. rewrite !elem_of_app in Hi.
    destruct Hi as [?|[?|?]]; by eapply isinstance_indices_lt. }
  destruct (get_conductance_matrix_str_cells (length components)
              (isinstance_indices ClsR components) (isinstance_indices ClsV components)
              (isinstance_indices ClsL components)) as (Gs & HGs & HsGs & HcGs).
  { intros i Hi. rewrite !elem_of_app in Hi.
    destruct Hi as [?|[?|?]]; by eapply isinstance_indices_lt. }
  exists G, Gs. split_and!; [done..|]. split_and!; [done..|].
  intros i j Hi Hj. eexists _, _. split_and!; [by apply HcG | by apply HcGs |].
  destruct (decide (i = j)) as [->|Hne].
  - destruct (lookup_lt_is_Some_2 components j) as [c Hc]; [done|].
    rewrite !(decide_isinstance _ _ _ _ _ _ Hc).
    destruct (cls c) eqn:Hk; repeat (case_decide; try done).
  - rewrite !decide_False by tauto. done.
Qed.

(** Inductance and capacitance: the class [k] is [ClsL] or [ClsC]. *)
Lemma negated_value_agree k :
  k ≠ ClsComponent → k ≠ ClsElmerComponent →
  ∃ M M_str,
    for_each (isinstance_indices k components)
      (fun i M => c ← getitem components i; v ← neg_to_float (value c);
                  setitem M (Z.of_nat i) (Z.of_nat i) v)
      (np_zeros (length components) (length components)) = Ok M
    ∧ for_each (isinstance_indices k components)
        (fun i M => c ← getitem components i;
                    setitem M (Z.of_nat i) (Z.of_nat i) (bytes500 ("-" +:+ name c)))
        (np_full (length components) (length components) ""%string) = Ok M_str
    ∧ cells_agree agree (length components) (length components) M M_str.
Proof.
  intros Hk1 Hk2.
  destruct (negated_value_matrix_cells components (length components)
              (isinstance_indices k components)) as (M & HM & HsM & HcM).
  { intros i Hi. by eapply isinstance_indices_lt. }
  { intros i Hi. by apply (real_indices k). }
  destruct (negated_name_matrix_cells components (length components)
              (isinstance_indices k components)) as (Ms & HMs & HsMs & HcMs).
  { intros i Hi. split; by eapply isinstance_indices_lt. }
  exists M, Ms. split_and!; [done..|]. split_and!; [done..|].
  intros i j Hi Hj. eexists _, _. split_and!; [by apply HcM | by apply HcMs |].
  destruct (decide (i = j)) as [->|Hne].
  - destruct (lookup_lt_is_Some_2 components j) as [c Hc]; [done|].
    rewrite !(decide_isinstance _ _ _ _ _ _ Hc).
    destruct (decide (cls c = k)) as [Hk|Hk]; [|done].
    destruct (positive_at j c k Hc Hk) as (x & -> & Hx & Hn & _); [done..|].
    rewrite bytes500_minus_plain by done. by apply agree_negated.
  - rewrite !decide_False by tauto. done.
Qed.

Lemma rhs_agree :
  ∃ f f_str,
    get_rhs components (length components)
      (isinstance_indices ClsI components) (isinstance_indices ClsV components) = Ok f
    ∧ get_rhs_str components (length components)
        (isinstance_indices ClsI components) (isinstance_indices ClsV components)
      = Ok f_str
    ∧ cells_agree agree_complex (length components) 1 f f_str.
Proof.
  destruct (get_rhs_real components (length components)
              (isinstance_indices ClsI components) (isinstance_indices ClsV components))
    as (f & Hf & Hsf & Hcf).
  { intros i Hi. rewrite elem_of_app in Hi. split.
    - destruct Hi; by eapply isinstance_indices_lt.
    - destruct Hi; [by apply (real_indices ClsI) | by apply (real_indices ClsV)]. }
  destruct (get_rhs_str_cells components (length components)
              (isinstance_indices ClsI components) (isinstance_indices ClsV components))
    as (fs & Hfs & Hsfs & Hcfs).
  { intros i Hi. rewrite elem_of_app in Hi.
    split; destruct Hi; by eapply isinstance_indices_lt. }
  exists f, fs. split_and!; [done..|]. split_and!; [done..|].
  intros i j Hi Hj. assert (j = 0) as -> by lia.
  eexists _, _. split_and!; [by apply Hcf | by apply Hcfs |].
  destruct (lookup_lt_is_Some_2 components i) as [c Hc]; [done|].
  rewrite !(decide_isinstance_mem _ _ _ _ _ _ Hc).
  destruct (cls c) eqn:Hk; repeat (case_decide; try done).
  - destruct (positive_at i c ClsV Hc Hk) as (x & -> & Hx & Hn & _); [done..|].
    rewrite bytes500_minus_plain, append_nil_r by done.
    destruct (agree_negated x _ Hx Hn) as [Hz Hm].
    destruct x as [|p|p]; try lia. split; [by rewrite Hz | by rewrite Hm].
  - destruct (positive_at i c ClsI Hc Hk) as (x & -> & Hx & Hn & _); [done..|].
    rewrite bytes500_plain by done.
    change ("" +:+ name_at components i) with (name_at components i).
    destruct (agree_positive x _ Hx Hn) as [Hz Hm].
    destruct x as [|p|p]; try lia. split; [by rewrite Hz | by rewrite Hm].
Qed.

End Agreement.

(** ** The string tableau as an instance of the generic assembly *)

Lemma astype_str_zeros r c :
  astype_str (np_zeros r c) = @np_zeros string text_dtype r c.
Proof.
  unfold astype_str, np_map, np_zeros, np_full. cbn [nd_rows nd_ncols]. f_equal.
  rewrite fmap_replicate. f_equal. by rewrite fmap_replicate.
Qed.

Lemma astype_str_neg_eye n m :
  astype_str (np_neg (np_eye n m)) = @np_neg string text_dtype (@np_eye string text_dtype n m).
Proof.
  unfold astype_str, np_neg, np_map, np_eye. cbn [nd_rows nd_ncols]. f_equal.
  rewrite <- !list_fmap_compose. apply list_fmap_ext. intros _ i _. cbn.
  rewrite <- !list_fmap_compose. apply list_fmap_ext. intros _ j _. cbn.
  by case_decide.
Qed.

Lemma mapM_Ok_fmap {X Y} (f : X → result Y) (g : X → Y) (l : list X) :
  Forall (fun x => f x = Ok (g x)) l → mapM f l = Ok (g <$> l).
Proof.
  induction 1 as [|x l Hx _ IH]; [done|]. cbn [mapM]. by rewrite Hx, bind_Ok, IH.
Qed.

Lemma normalize_rows_single (rows : list (list string)) :
  Forall (fun row => length row = 1) rows →
  mapM (fun row : list string =>
          match row with [x] => Ok [normalize_zero x] | _ => Err ValueError end) rows
  = Ok ((fun row : list string => normalize_zero <$> row) <$> rows)
  ∧ mapM (fun row : list string =>
            match row with
            | x :: rest => Ok (normalize_zero x :: rest)
            | [] => Err IndexError
            end) rows
    = Ok ((fun row : list string => normalize_zero <$> row) <$> rows).
Proof.
  intros Hall. split; apply mapM_Ok_fmap; (eapply Forall_impl; [exact Hall|]);
    intros [|x [|y row]] Hlen; cbn in Hlen; try lia; done.
Qed.

Lemma agree_raw_normalize x s : agree_raw x s → agree x (normalize_cell s).
Proof.
  unfold agree_raw, agree, normalize_cell, is_blank_zero, zero_token.
  intros [Hz Hm].
  repeat (case_bool_decide; subst; cbn in *; try done).
  by rewrite andb_true_r in Hm.
Qed.

Lemma agree_complex_normalize_zero x s :
  agree_complex x s → agree_complex x (normalize_zero s).
Proof.
  unfold agree_complex, normalize_zero, is_blank_zero, zero_token.
  intros [Hz Hm]. destruct x as [xr xi]. unfold c_nonzero, c_negative in *. cbn in *.
  repeat (case_bool_decide; subst; cbn in *; try done);
    destruct xr as [[|?|?]| |]; cbn in *; done.
Qed.

(** Under the shapes of the tableau, [get_tableau_matrix_str] is the generic
    assembly on byte strings followed by the cleanup of every cell. *)
Lemma get_tableau_matrix_str_generic (Amat_str Rmat_str Gmat_str Lmat_str Cmat_str
    fvec_str : ndarray string) numnodes numedges :
  1 ≤ numnodes →
  has_shape (numnodes - 1) numedges Amat_str →
  has_shape numedges numedges Rmat_str → has_shape numedges numedges Gmat_str →
  has_shape numedges numedges Lmat_str → has_shape numedges numedges Cmat_str →
  has_shape numedges 1 fvec_str →
  ∃ M1 M2 b,
    @get_tableau_matrix string string text_dtype text_dtype
      Amat_str Rmat_str Gmat_str Lmat_str Cmat_str (np_map normalize_zero fvec_str)
      numnodes numedges = Ok (M1, M2, b)
    ∧ get_tableau_matrix_str Amat_str Rmat_str Gmat_str Lmat_str Cmat_str fvec_str
        numnodes numedges
      = Ok (np_map normalize_cell M1, np_map normalize_cell M2, np_map normalize_zero b).
Proof.
  intros Hn HA HR HG HL HC Hf.
  pose proof (np_map_shape normalize_zero _ _ _ Hf) as Hf'.
  destruct (@tableau_blocks_cells string string text_dtype text_dtype
              Amat_str Rmat_str Gmat_str Lmat_str Cmat_str
              (np_map normalize_zero fvec_str) numnodes numedges Hn HA HR HG HL HC Hf')
    as (M1 & M2 & b & Hrun & _ & _ & Hb & _).
  exists M1, M2, b. split; [exact Hrun|].
  unfold get_tableau_matrix in Hrun. unfold get_tableau_matrix_str.
  destruct (dim_pred numnodes) as [n1|]; [|done]. rewrite bind_Ok in Hrun |- *.
  rewrite !astype_str_zeros, astype_str_neg_eye.
  apply bind_Ok_inv in Hrun as (Mkcl & HMkcl & Hrun). rewrite HMkcl, bind_Ok.
  apply bind_Ok_inv in Hrun as (Mkvl & HMkvl & Hrun). rewrite HMkvl, bind_Ok.
  apply bind_Ok_inv in Hrun as (Mcomp & HMcomp & Hrun). rewrite HMcomp, bind_Ok.
  apply bind_Ok_inv in Hrun as (M1' & HM1' & Hrun). rewrite HM1', bind_Ok.
  apply bind_Ok_inv in Hrun as (b' & Hb' & Hrun).
  apply bind_Ok_inv in Hrun as (Mdyn & HMdyn & Hrun).
  apply bind_Ok_inv in Hrun as (M2' & HM2' & Hrun).
  injection Hrun as -> -> ->.
  destruct (normalize_rows_single (nd_rows fvec_str)) as [-> _].
  { by destruct Hf as (_ & _ & ?). }
  rewrite bind_Ok.
  change (NdArray (nd_ncols fvec_str) _) with (np_map normalize_zero fvec_str).
  rewrite Hb', bind_Ok.
  destruct (normalize_rows_single (nd_rows b)) as [_ ->].
  { by destruct Hb as (_ & _ & ?). }
  rewrite bind_Ok, HMdyn, bind_Ok, HM2', bind_Ok. reflexivity.
Qed.

Lemma incidence_agree components num_nodes (n_ref : Z) :
  pins_in_range components num_nodes →
  (1 ≤ n_ref ≤ Z.of_nat num_nodes)%Z →
  (∀ c, c ∈ components → pin1 c ≠ pin2 c) →
  ∃ A A_str,
    get_incidence_matrix components num_nodes (length components) n_ref = Ok A
    ∧ get_incidence_matrix_str components num_nodes (length components) n_ref = Ok A_str
    ∧ cells_agree agree (num_nodes - 1) (length components) A A_str.
Proof.
  intros Hpins Href Hloop. eexists _, _. split_and!.
  - exact (incidence_generic_spec (Fin 0) (Fin 1) (Fin (-1)) fadd
             components num_nodes n_ref Hpins Href).
  - exact (incidence_generic_spec ""%string (bytes500 "1") (bytes500 "-1") String.append
             components num_nodes n_ref Hpins Href).
  - split_and!.
    + pose proof (comprehension_shape
        (fun r c => incidence_entry (Fin 0) (Fin 1) (Fin (-1)) fadd c
                      (shift_row (Z.to_nat (n_ref - 1)) r))
        (seq 0 (num_nodes - 1)) components) as Hsh.
      by rewrite length_seq in Hsh.
    + pose proof (comprehension_shape
        (fun r c => incidence_entry ""%string (bytes500 "1") (bytes500 "-1") String.append
                      c (shift_row (Z.to_nat (n_ref - 1)) r))
        (seq 0 (num_nodes - 1)) components) as Hsh.
      by rewrite length_seq in Hsh.
    + intros i j Hi Hj. destruct (lookup_lt_is_Some_2 components j) as [c Hc]; [done|].
      eexists _, _. split_and!.
      * apply (cell_comprehension
          (fun r c => incidence_entry (Fin 0) (Fin 1) (Fin (-1)) fadd c
                        (shift_row (Z.to_nat (n_ref - 1)) r)) _ _ _ i j i c);
          [by rewrite lookup_seq_lt | done].
      * apply (cell_comprehension
          (fun r c => incidence_entry ""%string (bytes500 "1") (bytes500 "-1")
                        String.append c (shift_row (Z.to_nat (n_ref - 1)) r)) _ _ _ i j i c);
          [by rewrite lookup_seq_lt | done].
      * pose proof (Hloop c (list_elem_of_lookup_2 _ _ _ Hc)) as Hne.
        unfold incidence_entry. repeat case_decide; (done || (exfalso; apply Hne; lia)).
Qed.

Lemma tableau_agree (A R G L C : ndarray float64) (f : ndarray complex128)
    (A_str R_str G_str L_str C_str f_str : ndarray string) n e :
  1 ≤ n →
  cells_agree agree (n - 1) e A A_str →
  cells_agree agree e e R R_str → cells_agree agree e e G G_str →
  cells_agree agree e e L L_str → cells_agree agree e e C C_str →
  cells_agree agree_complex e 1 f f_str →
  ∃ M1 M2 b M1_str M2_str b_str,
    get_tableau_matrix A R G L C f n e = Ok (M1, M2, b)
    ∧ get_tableau_matrix_str A_str R_str G_str L_str C_str f_str n e
      = Ok (M1_str, M2_str, b_str)
    ∧ cells_agree agree ((n - 1) + e + e) (e + e + (n - 1)) M1 M1_str
    ∧ cells_agree agree ((n - 1) + e + e) (e + e + (n - 1)) M2 M2_str
    ∧ cells_agree agree_complex ((n - 1) + e + e) 1 b b_str.
Proof.
  intros Hn (HA & HAs & HcA) (HR & HRs & HcR) (HG & HGs & HcG) (HL & HLs & HcL)
    (HC & HCs & HcC) (Hf & Hfs & Hcf).
  destruct (tableau_blocks_cells A R G L C f n e Hn HA HR HG HL HC Hf)
    as (M1 & M2 & b & Hrun & HM1 & HM2 & Hb & Hcells).
  destruct (get_tableau_matrix_str_generic A_str R_str G_str L_str C_str f_str n e
              Hn HAs HRs HGs HLs HCs Hfs) as (M1s & M2s & bs & Hruns & Hstr).
  pose proof (np_map_shape normalize_zero _ _ _ Hfs) as Hfs'.
  destruct (@tableau_blocks_cells string string text_dtype text_dtype
              A_str R_str G_str L_str C_str (np_map normalize_zero f_str) n e
              Hn HAs HRs HGs HLs HCs Hfs')
    as (M1s' & M2s' & bs' & Hruns' & HM1s & HM2s & Hbs & Hcellss).
  rewrite Hruns in Hruns'. injection Hruns' as <- <- <-.
  eexists _, _, _, _, _, _. split_and!; [exact Hrun | exact Hstr | | |].
  - split_and!; [done | by apply np_map_shape |]. intros i j Hi Hj.
    destruct (Hcells i j Hi Hj) as (-> & _ & _).
    destruct (Hcellss i j Hi Hj) as (Hs & _ & _). rewrite np_map_cell, Hs.
    unfold stiffness_block_cell. cbn [dt_zero dt_one dt_neg float64_dtype text_dtype].
    destruct (decide (i < n - 1)); [destruct (decide (j < e))|
      destruct (decide (i < n - 1 + e));
        [destruct (decide (j < e)); [|destruct (decide (j < e + e))]|
         destruct (decide (j < e)); [|destruct (decide (j < e + e))]]].
    + destruct (HcA i j) as (x & s & -> & -> & Hag); [lia..|].
      eexists _, _. split_and!; [done..|]. by apply agree_raw_normalize, agree_agree_raw.
    + by eexists _, _.
    + by eexists _, _.
    + case_decide; by eexists _, _.
    + destruct (HcA (j - (e + e)) (i - (n - 1))) as (x & s & -> & -> & Hag); [lia..|].
      eexists _, _. split_and!; [done..|]. by apply agree_raw_normalize, agree_agree_raw.
    + destruct (HcR (i - (n - 1 + e)) j) as (x & s & -> & -> & Hag); [lia..|].
      eexists _, _. split_and!; [done..|]. by apply agree_raw_normalize, agree_agree_raw.
    + destruct (HcG (i - (n - 1 + e)) (j - e)) as (x & s & -> & -> & Hag); [lia..|].
      eexists _, _. split_and!; [done..|]. by apply agree_raw_normalize, agree_agree_raw.
    + by eexists _, _.
  - split_and!; [done | by apply np_map_shape |]. intros i j Hi Hj.
    destruct (Hcells i j Hi Hj) as (_ & -> & _).
    destruct (Hcellss i j Hi Hj) as (_ & Hs & _). rewrite np_map_cell, Hs.
    unfold damping_block_cell. cbn [dt_zero dt_one dt_neg float64_dtype text_dtype].
    destruct (decide (i < n - 1 + e));
      [|destruct (decide (j < e)); [|destruct (decide (j < e + e))]].
    + by eexists _, _.
    + destruct (HcL (i - (n - 1 + e)) j) as (x & s & -> & -> & Hag); [lia..|].
      eexists _, _. split_and!; [done..|]. by apply agree_raw_normalize, agree_agree_raw.
    + destruct (HcC (i - (n - 1 + e)) (j - e)) as (x & s & -> & -> & Hag); [lia..|].
      eexists _, _. split_and!; [done..|]. by apply agree_raw_normalize, agree_agree_raw.
    + by eexists _, _.
  - split_and!; [done | by apply np_map_shape |]. intros i j Hi Hj.
    assert (j = 0) as -> by lia.
    destruct (Hcells i 0) as (_ & _ & ->); [lia..|].
    destruct (Hcellss i 0) as (_ & _ & Hs); [lia..|]. rewrite np_map_cell, Hs.
    unfold source_block_cell.
    cbn [dt_zero dt_one dt_neg complex128_dtype text_dtype].
    destruct (decide (i < n - 1 + e)).
    + by eexists _, _.
    + rewrite np_map_cell.
      destruct (Hcf (i - (n - 1 + e)) 0) as (x & s & -> & -> & Hag); [lia..|].
      eexists _, _. split_and!; [done..|]. by do 2 apply agree_complex_normalize_zero.
Qed.

(** A self-loop in the string incidence matrix: the two tokens are
    concatenated, not added. *)
Example self_loop_token :
  get_incidence_matrix_str [mkComponent ClsR "R1" 2 2 (PyReal 5)] 2 1 1
  = Ok (NdArray 1 [["1-1"]])
  ∧ get_incidence_matrix [mkComponent ClsR "R1" 2 2 (PyReal 5)] 2 1 1
    = Ok (NdArray 1 [[Fin 0]]).
Proof. split; reflexivity. Qed.




(** * Further properties of the code *)

(** ** Index lists *)

Lemma ascending_nil : ascending [].
Proof. intros a b i j Ha. by rewrite lookup_nil in Ha. Qed.

Lemma ascending_cons x l :
  (∀ y, y ∈ l → x < y) → ascending l → ascending (x :: l).
Proof.
  intros Hx Hl [|a] [|b] i j Ha Hb Hab; try lia; cbn in *.
  - injection Ha as <-. apply Hx. by eapply list_elem_of_lookup_2.
  - eapply (Hl a b); [done..|lia].
Qed.

Lemma ascending_NoDup l : ascending l → NoDup l.
Proof.
  intros Hl. apply NoDup_alt. intros a b x Ha Hb.
  destruct (Nat.lt_trichotomy a b) as [Hlt|[->|Hlt]]; [|done|].
  - pose proof (Hl a b x x Ha Hb Hlt). lia.
  - pose proof (Hl b a x x Hb Ha Hlt). lia.
Qed.

Lemma offset_indices_ascending k n (l : list Component) :
  ascending (fst <$> filter (fun p => cls (snd p) = k) (imap (fun i c => (n + i, c)) l))
  ∧ ∀ i, i ∈ fst <$> filter (fun p => cls (snd p) = k) (imap (fun i c => (n + i, c)) l)
         → n ≤ i.
Proof.
  revert n. induction l as [|c l IH]; intros n.
  - split; [apply ascending_nil | intros i Hi; by apply elem_of_nil in Hi].
  - rewrite imap_cons.
    rewrite (imap_ext _ (fun i c => (S n + i, c))) by (intros; cbn; f_equal; lia).
    destruct (IH (S n)) as [Hasc Hge].
    destruct (decide (cls c = k)) as [Hk|Hk].
    + rewrite filter_cons_True by done. rewrite fmap_cons. cbn [fst]. split.
      * apply ascending_cons; [|done]. intros y Hy. specialize (Hge y Hy). lia.
      * intros i [->|Hi]%elem_of_cons; [lia|]. specialize (Hge i Hi). lia.
    + rewrite filter_cons_False by done. split; [done|].
      intros i Hi. specialize (Hge i Hi). lia.
Qed.

(** X1. Each list returned by [get_indices] holds exactly the positions of
    the components of its class, in strictly ascending order; so the lists
    have no duplicates, lie within the component list and are pairwise
    disjoint. *)
Theorem get_indices_spec components k ind :
  (k, ind) ∈ indices_by_class components →
  ascending ind ∧ NoDup ind
  ∧ (∀ i, i ∈ ind ↔ ∃ c, components !! i = Some c ∧ cls c = k)
  ∧ (∀ i, i ∈ ind → i < length components)
  ∧ ∀ k' ind', (k', ind') ∈ indices_by_class components → k ≠ k' →
               disjoint_lists ind ind'.
Proof.
  intros Hin.
  assert (∀ k ind, (k, ind) ∈ indices_by_class components →
                   ind = isinstance_indices k components) as Heq.
  { intros k0 ind0 H0. unfold indices_by_class, get_indices in H0.
    repeat (apply elem_of_cons in H0 as [[= -> ->]|H0]; [done|]).
    by apply elem_of_nil in H0. }
  rewrite (Heq _ _ Hin).
  assert (ascending (isinstance_indices k components)) as Hasc.
  { unfold isinstance_indices.
    by destruct (offset_indices_ascending k 0 components) as [? _]. }
  split_and!; [done | by apply ascending_NoDup | apply elem_of_isinstance_indices
               | apply isinstance_indices_lt |].
  intros k' ind' Hin' Hne i Hi Hi'. rewrite (Heq _ _ Hin') in Hi'.
  apply elem_of_isinstance_indices in Hi as (c & Hc & Hk).
  apply elem_of_isinstance_indices in Hi' as (c' & Hc' & Hk'). congruence.
Qed.

Lemma get_indices_spec_witness :
  ascending [0; 2] ∧ NoDup [0; 2]
  ∧ (∀ i, i ∈ [0; 2]
          ↔ ∃ c, [mkComponent ClsR "R1" 1 2 (PyReal 1); mkComponent ClsV "V1" 2 1 (PyReal 1);
                  mkComponent ClsR "R2" 1 2 (PyReal 1)] !! i = Some c ∧ cls c = ClsR)
  ∧ (∀ i, i ∈ [0; 2] → i < 3)
  ∧ ∀ k' ind',
      (k', ind') ∈ indices_by_class
        [mkComponent ClsR "R1" 1 2 (PyReal 1); mkComponent ClsV "V1" 2 1 (PyReal 1);
         mkComponent ClsR "R2" 1 2 (PyReal 1)] →
      ClsR ≠ k' → disjoint_lists [0; 2] ind'.
Proof.
  refine (get_indices_spec
    [mkComponent ClsR "R1" 1 2 (PyReal 1); mkComponent ClsV "V1" 2 1 (PyReal 1);
     mkComponent ClsR "R2" 1 2 (PyReal 1)] ClsR [0; 2] _).
  left.
Defined.

(** ** Node count *)

Lemma unique_nodes_fold (components : list Component) (acc : list Z) :
  NoDup acc →
  let unique_nodes :=
    foldl (fun unique_nodes component =>
             let u1 := if decide (pin1 component ∈ unique_nodes) then unique_nodes
                       else unique_nodes ++ [pin1 component] in
             if decide (pin2 component ∈ u1) then u1 else u1 ++ [pin2 component])
          acc components in
  NoDup unique_nodes
  ∧ ∀ p, p ∈ unique_nodes
         ↔ p ∈ acc ∨ ∃ c, c ∈ components ∧ (p = pin1 c ∨ p = pin2 c).
Proof.
  revert acc. induction components as [|c l IH]; intros acc Hacc; cbn zeta.
  - split; [done|]. intros p. split; [by left|].
    intros [?|(c & Hc & _)]; [done | by apply elem_of_nil in Hc].
  - cbn [foldl].
    set (u1 := if decide (pin1 c ∈ acc) then acc else acc ++ [pin1 c]).
    set (u2 := if decide (pin2 c ∈ u1) then u1 else u1 ++ [pin2 c]).
    assert (NoDup u1 ∧ ∀ p, p ∈ u1 ↔ p ∈ acc ∨ p = pin1 c) as [Hu1 Hm1].
    { unfold u1. case_decide.
      - split; [done|]. intros p. split; [by left | by intros [?| ->]].
      - split.
        + apply NoDup_app. split_and!; [done | | apply NoDup_singleton].
          intros x Hx ->%list_elem_of_singleton. done.
        + intros p. rewrite elem_of_app, list_elem_of_singleton. done. }
    assert (NoDup u2 ∧ ∀ p, p ∈ u2 ↔ p ∈ u1 ∨ p = pin2 c) as [Hu2 Hm2].
    { unfold u2. case_decide.
      - split; [done|]. intros p. split; [by left | by intros [?| ->]].
      - split.
        + apply NoDup_app. split_and!; [done | | apply NoDup_singleton].
          intros x Hx ->%list_elem_of_singleton. done.
        + intros p. rewrite elem_of_app, list_elem_of_singleton. done. }
    destruct (IH u2 Hu2) as [Hnd Hmem]. split; [done|].
    intros p. rewrite Hmem, Hm2, Hm1. split.
    + intros [[[?| ->]| ->]|(c' & Hc' & Hp)]; [by left | right..].
      * exists c. split; [left | by left].
      * exists c. split; [left | by right].
      * exists c'. split; [by right | done].
    + intros [?|(c' & [->|Hc']%elem_of_cons & Hp)]; [by do 3 left | |].
      * destruct Hp as [->| ->]; [left; left; by right | left; by right].
      * right. by exists c'.
Qed.

(** X2. [get_num_nodes] counts the distinct terminal ids: it is the length
    of a duplicate-free list that holds exactly the ids appearing as [pin1]
    or [pin2] of a component. *)
Theorem get_num_nodes_spec components :
  ∃ unique_nodes,
    get_num_nodes components = length unique_nodes
    ∧ NoDup unique_nodes
    ∧ ∀ p, p ∈ unique_nodes ↔ ∃ c, c ∈ components ∧ (p = pin1 c ∨ p = pin2 c).
Proof.
  destruct (unique_nodes_fold components [] (NoDup_nil_2)) as [Hnd Hmem].
  eexists. split_and!; [reflexivity | exact Hnd |].
  intros p. rewrite Hmem. split; [|by right].
  intros [Hp|?]; [by apply elem_of_nil in Hp | done].
Qed.

(** ** Branch-law matrices on the index lists of [get_indices] *)

Lemma real_value_at_lookup components i c :
  components !! i = Some c → real_value_at components i = value_float c.
Proof. intros Hc. unfold real_value_at, value_float. by rewrite Hc. Qed.



(** ** Failures of the branch-law builders *)

Lemma diag_const_loop_Err {T} (v : T) (ind : list nat) M e :
  for_each ind (fun i M => setitem M (Z.of_nat i) (Z.of_nat i) v) M = Err e →
  e = IndexError.
Proof.
  revert M. induction ind as [|i ind IH]; intros M; [done|]. cbn [for_each].
  destruct (setitem_inv M (Z.of_nat i) (Z.of_nat i) v) as [(M' & -> & _)| ->].
  - rewrite bind_Ok. apply IH.
  - cbn. congruence.
Qed.

Lemma diag_const_loop_index_error {T} (v : T) (ind : list nat) n :
  (∃ i, i ∈ ind ∧ n ≤ i) →
  ∀ M, nd_nrows M = n →
  for_each ind (fun i M => setitem M (Z.of_nat i) (Z.of_nat i) v) M = Err IndexError.
Proof.
  intros (i & Hin & Hbad). induction ind as [|i0 ind IH]; intros M HM.
  - by apply elem_of_nil in Hin.
  - cbn [for_each].
    destruct (setitem_inv M (Z.of_nat i0) (Z.of_nat i0) v) as [(M' & -> & HM' & Hok)| ->];
      [|done].
    rewrite bind_Ok. apply elem_of_cons in Hin as [<-|Hin].
    + exfalso. apply Hok. rewrite HM. apply norm_index_out. lia.
    + apply IH; [done | congruence].
Qed.

Lemma np_full_nrows {T} r c (x : T) : nd_nrows (np_full r c x) = r.
Proof. unfold nd_nrows, np_full. cbn [nd_rows]. by rewrite length_replicate. Qed.

(** Three loops of constant diagonal assignments, one of them meeting an
    index outside the matrix. *)
Lemma three_const_loops_index_error {T} (comb : T → T → T) (z v1 v2 v3 : T)
    (ind1 ind2 ind3 : list nat) n :
  (∃ i, i ∈ ind1 ++ ind2 ++ ind3 ∧ n ≤ i) →
  (M1 ← for_each ind1 (fun i M => setitem M (Z.of_nat i) (Z.of_nat i) v1) (np_full n n z);
   M2 ← for_each ind2 (fun i M => setitem M (Z.of_nat i) (Z.of_nat i) v2) (np_full n n z);
   M3 ← for_each ind3 (fun i M => setitem M (Z.of_nat i) (Z.of_nat i) v3) (np_full n n z);
   Ok (np_zip_with comb (np_zip_with comb M1 M2) M3)) = Err IndexError.
Proof.
  intros (i & Hin & Hbad). rewrite !elem_of_app in Hin.
  destruct (for_each ind1 _ _) as [M1|e] eqn:H1;
    [|by rewrite (diag_const_loop_Err _ _ _ _ H1)].
  rewrite bind_Ok.
  destruct (for_each ind2 _ _) as [M2|e] eqn:H2;
    [|by rewrite (diag_const_loop_Err _ _ _ _ H2)].
  rewrite bind_Ok.
  destruct (for_each ind3 _ _) as [M3|e] eqn:H3;
    [|by rewrite (diag_const_loop_Err _ _ _ _ H3)].
  exfalso. destruct Hin as [Hin|[Hin|Hin]].
  - rewrite (diag_const_loop_index_error v1 ind1 n) in H1;
      [done | by exists i | apply np_full_nrows].
  - rewrite (diag_const_loop_index_error v2 ind2 n) in H2;
      [done | by exists i | apply np_full_nrows].
  - rewrite (diag_const_loop_index_error v3 ind3 n) in H3;
      [done | by exists i | apply np_full_nrows].
Qed.

(** X4. An index at or beyond [nedges] in any of the three lists makes
    [get_conductance_matrix] and [get_conductance_matrix_str] raise
    [IndexError]: the matrices are sized by [nedges], not by the lists. *)
Theorem get_conductance_matrix_index_error nedges indr indv indInd :
  (∃ i, i ∈ indr ++ indv ++ indInd ∧ nedges ≤ i) →
  get_conductance_matrix nedges indr indv indInd = Err IndexError
  ∧ get_conductance_matrix_str nedges indr indv indInd = Err IndexError.
Proof.
  intros Hbad. split.
  - exact (three_const_loops_index_error fadd (Fin 0) (Fin (-1)) (Fin 1) (Fin 1)
             indr indv indInd nedges Hbad).
  - exact (three_const_loops_index_error String.append ""%string (bytes500 "-1")
             (bytes500 "1") (bytes500 "1") indr indv indInd nedges Hbad).
Qed.

Lemma get_conductance_matrix_index_error_witness :
  get_conductance_matrix 2 [0] [1] [2] = Err IndexError
  ∧ get_conductance_matrix_str 2 [0] [1] [2] = Err IndexError.
Proof.
  refine (get_conductance_matrix_index_error 2 [0] [1] [2] _).
  exists 2. split; [|lia]. do 2 right. left.
Defined.

(** The loop shared by [get_inductance_matrix] and [get_capacitance_matrix]
    when a listed component has no value. *)
Lemma negated_value_loop_type_error components nedges ind :
  (∀ i, i ∈ ind →
        i < nedges
        ∧ ∃ c, components !! i = Some c ∧ (value c = PyNone ∨ ∃ x, value c = PyReal x)) →
  (∃ i c, i ∈ ind ∧ components !! i = Some c ∧ value c = PyNone) →
  ∀ M, has_shape nedges nedges M →
  for_each ind
    (fun i M => c ← getitem components i; v ← neg_to_float (value c);
                setitem M (Z.of_nat i) (Z.of_nat i) v) M = Err TypeError.
Proof.
  intros Hind (i & c & Hin & Hc & Hnone).
  induction ind as [|i0 ind IH]; intros M HM; [by apply elem_of_nil in Hin|].
  cbn [for_each]. destruct (Hind i0) as (Hlt & c0 & Hc0 & Hv0); [left|].
  rewrite (getitem_Some _ _ _ Hc0), bind_Ok.
  destruct Hv0 as [Hv0|[x Hv0]]; rewrite Hv0; [done|].
  cbn [neg_to_float]. rewrite bind_Ok, (setitem_nat nedges nedges) by done.
  rewrite bind_Ok. apply elem_of_cons in Hin as [->|Hin]; [congruence|].
  apply IH; [|done|by apply alter_insert_shape].
  intros j Hj. apply Hind. by right.
Qed.



(** ** The source vector, entry by entry *)

Lemma for_each_app {X S} (xs ys : list X) (body : X → S → result S) s :
  for_each (xs ++ ys) body s = (s' ← for_each xs body s; for_each ys body s').
Proof.
  revert s. induction xs as [|x xs IH]; intros s; cbn [for_each app].
  - by rewrite bind_Ok.
  - destruct (body x s) as [s1|e]; [|done]. rewrite !bind_Ok. apply IH.
Qed.

Lemma after_app_in i l l' : i ∈ l → after i (l ++ l') = after i l ++ l'.
Proof.
  induction l as [|x l IH]; intros Hin; [by apply elem_of_nil in Hin|].
  cbn [after app]. destruct (decide (x = i)); [done|].
  apply elem_of_cons in Hin as [->|Hin]; [done | by apply IH].
Qed.

Lemma after_app_notin i l l' : i ∉ l → after i (l ++ l') = after i l'.
Proof.
  induction l as [|x l IH]; intros Hnin; [done|].
  cbn [after app]. apply not_elem_of_cons in Hnin as (Hne & Hnin).
  destruct (decide (x = i)); [congruence | by apply IH].
Qed.

Lemma rhs_loop_entry_snoc_complex negate components ind x i :
  x ∉ ind → is_complex_at components x = true →
  rhs_loop_entry negate components (ind ++ [x]) i
  = complex_entry negate components (ind ++ [x]) i.
Proof.
  intros Hx Hcx. unfold rhs_loop_entry, complex_entry, source_kept.
  destruct (decide (i ∈ ind ++ [x])) as [Hin|Hnin].
  - rewrite bool_decide_eq_true_2 by done. cbn [andb].
    destruct (is_complex_at components i) eqn:Hci; [done|]. cbn [orb].
    apply elem_of_app in Hin as [Hin|Hin].
    + rewrite after_app_in, existsb_app by done. cbn [existsb].
      rewrite Hcx. by rewrite !orb_true_r.
    + apply list_elem_of_singleton in Hin as ->. congruence.
  - by rewrite bool_decide_eq_false_2.
Qed.

Lemma rhs_loop_entry_snoc_real negate components ind x i :
  x ∉ ind → is_complex_at components x = false →
  rhs_loop_entry negate components (ind ++ [x]) i
  = if decide (i = x) then source_entry negate components x
    else rhs_loop_entry negate components ind i.
Proof.
  intros Hx Hcx. unfold rhs_loop_entry, source_kept.
  destruct (decide (i = x)) as [->|Hne].
  - rewrite decide_True by (apply elem_of_app; right; by left).
    rewrite Hcx, after_app_notin by done. cbn [after].
    by rewrite decide_True.
  - destruct (decide (i ∈ ind)) as [Hin|Hnin].
    + rewrite decide_True by (apply elem_of_app; by left).
      rewrite after_app_in, existsb_app by done. cbn [existsb].
      by rewrite Hcx, !orb_false_r.
    + rewrite decide_False; [done|]. intros [H|H]%elem_of_app; [done|].
      by apply list_elem_of_singleton in H.
Qed.

Lemma complex_entry_none negate components ind i :
  (∀ k, k ∈ ind → is_complex_at components k = false) →
  complex_entry negate components ind i = Complex (Fin 0) (Fin 0).
Proof.
  intros Hno. unfold complex_entry. case_bool_decide as Hin; [|done].
  by rewrite (Hno i Hin).
Qed.

Lemma complex_entry_snoc negate components ind x i :
  is_complex_at components x = true →
  complex_entry negate components (ind ++ [x]) i
  = if decide (i = x) then source_entry negate components x
    else complex_entry negate components ind i.
Proof.
  intros Hcx. unfold complex_entry. destruct (decide (i = x)) as [->|Hne].
  - rewrite bool_decide_eq_true_2 by (apply elem_of_app; right; by left).
    by rewrite Hcx.
  - case_bool_decide as H1; case_bool_decide as H2; try done.
    + exfalso. apply elem_of_app in H1 as [H1|H1]; [done|].
      by apply list_elem_of_singleton in H1.
    + exfalso. apply H1, elem_of_app. by left.
Qed.

Lemma complex_entry_snoc_real negate components ind x i :
  is_complex_at components x = false →
  complex_entry negate components (ind ++ [x]) i
  = complex_entry negate components ind i.
Proof.
  intros Hcx. unfold complex_entry.
  case_bool_decide as H1; case_bool_decide as H2; try done.
  - apply elem_of_app in H1 as [H1|H1]; [done|].
    apply list_elem_of_singleton in H1 as ->. by rewrite Hcx.
  - exfalso. apply H1, elem_of_app. by left.
Qed.

Lemma setrow_cell {T} n (A : ndarray T) x v :
  has_shape n 1 A → x < n →
  ∃ A', setrow A (Z.of_nat x) v = Ok A' ∧ has_shape n 1 A'
        ∧ ∀ i, cell A' i 0 = if decide (i = x) then Some v else cell A i 0.
Proof.
  intros HA Hx. rewrite (setrow_column_vector n) by done.
  change (setitem A (Z.of_nat x) 0 v) with (setitem A (Z.of_nat x) (Z.of_nat 0) v).
  rewrite (setitem_nat n 1) by (done || lia). eexists. split_and!; [done | |].
  - by apply alter_insert_shape.
  - intros i. rewrite (alter_insert_cell n 1) by (done || lia).
    destruct (decide (i = x)) as [->|Hne].
    + by rewrite decide_True.
    + rewrite decide_False; [done|]. by intros [? _].
Qed.

(** The state of a source loop after the whole list. *)
Lemma rhs_loop_state (negate : bool) components nedges ind :
  NoDup ind →
  (∀ i, i ∈ ind → i < nedges ∧ has_value components i) →
  ∃ acc rhs,
    @for_each nat rhs_state ind
      (fun i (st : rhs_state) =>
         c ← getitem components i;
         match value c with
         | PyComplex x y =>
             let '(rhs_re, rhs_im) :=
               match fst st with
               | None => (np_zeros nedges 1, np_zeros nedges 1)
               | Some acc => acc
               end in
             rhs_re ← setrow rhs_re (Z.of_nat i)
                        ((if negate then fneg (Fin x) else Fin x));
             rhs_im ← setrow rhs_im (Z.of_nat i)
                        ((if negate then fneg (Fin y) else Fin y));
             Ok (Some (rhs_re, rhs_im), np_zip_with Complex rhs_re rhs_im)
         | v =>
             x ← (if negate then neg_to_float v else to_float v);
             rhs ← setrow (snd st) (Z.of_nat i) (Complex x (Fin 0));
             Ok (fst st, rhs)
         end)
      (None, np_zeros nedges 1) = Ok (acc, rhs)
    ∧ has_shape nedges 1 rhs
    ∧ (∀ i, i < nedges →
            cell rhs i 0 = Some (rhs_loop_entry negate components ind i))
    ∧ match acc with
      | None => ∀ k, k ∈ ind → is_complex_at components k = false
      | Some (rhs_re, rhs_im) =>
          has_shape nedges 1 rhs_re ∧ has_shape nedges 1 rhs_im
          ∧ ∀ i, i < nedges →
              cell rhs_re i 0 = Some (re (complex_entry negate components ind i))
              ∧ cell rhs_im i 0 = Some (im (complex_entry negate components ind i))
      end.
Proof.
  induction ind as [|x ind IH] using rev_ind; intros Hnd Hind.
  - exists None, (np_zeros nedges 1). split_and!; [done | apply np_zeros_shape | |].
    + intros i Hi. by rewrite np_zeros_cell by (done || lia).
    + intros k Hk. by apply elem_of_nil in Hk.
  - apply NoDup_app in Hnd as (Hnd & Hx & _).
    assert (x ∉ ind) as Hxn.
    { intros Hin. apply (Hx x Hin). by left. }
    destruct IH as (acc & rhs & Hrun & Hrhs & Hcell & Hacc); [done| |].
    { intros i Hi. apply Hind, elem_of_app. by left. }
    destruct (Hind x) as (Hlt & c & Hc & Hv); [apply elem_of_app; right; by left|].
    rewrite for_each_app, Hrun, bind_Ok. cbn [for_each fst snd].
    rewrite (getitem_Some _ _ _ Hc), bind_Ok.
    destruct (value c) as [|vx|vx vy] eqn:Hval; [done| |].
    + (* a real source *)
      assert (is_complex_at components x = false) as Hcx.
      { unfold is_complex_at. by rewrite Hc, Hval. }
      assert ((if negate then neg_to_float (PyReal vx) else to_float (PyReal vx))
              = Ok (if negate then fneg (Fin vx) else Fin vx)) as -> by by destruct negate.
      rewrite bind_Ok.
      destruct (setrow_cell nedges rhs x
                  (Complex (if negate then fneg (Fin vx) else Fin vx) (Fin 0)) Hrhs Hlt)
        as (rhs' & -> & Hrhs' & Hcell').
      rewrite !bind_Ok. exists acc, rhs'. split_and!; [done..| |].
      * intros i Hi. rewrite Hcell', rhs_loop_entry_snoc_real by done.
        destruct (decide (i = x)) as [->|Hne]; [|by apply Hcell].
        unfold source_entry. by rewrite Hc, Hval.
      * destruct acc as [[rhs_re rhs_im]|].
        -- destruct Hacc as (Hre & Him & Hacc). split_and!; [done..|].
           intros i Hi. rewrite complex_entry_snoc_real by done. by apply Hacc.
        -- intros k [Hk|Hk]%elem_of_app; [by apply Hacc|].
           by apply list_elem_of_singleton in Hk as ->.
    + (* a complex source *)
      assert (is_complex_at components x = true) as Hcx.
      { unfold is_complex_at. by rewrite Hc, Hval. }
      assert (source_entry negate components x
              = Complex (if negate then fneg (Fin vx) else Fin vx)
                        (if negate then fneg (Fin vy) else Fin vy)) as Hsrc.
      { unfold source_entry. by rewrite Hc, Hval. }
      assert (∃ rhs_re rhs_im,
                 match acc with
                 | None => (np_zeros nedges 1, np_zeros nedges 1)
                 | Some acc => acc
                 end = (rhs_re, rhs_im)
                 ∧ has_shape nedges 1 rhs_re ∧ has_shape nedges 1 rhs_im
                 ∧ ∀ i, i < nedges →
                     cell rhs_re i 0 = Some (re (complex_entry negate components ind i))
                     ∧ cell rhs_im i 0 = Some (im (complex_entry negate components ind i)))
        as (rhs_re & rhs_im & -> & Hre & Him & Hold).
      { destruct acc as [[rhs_re rhs_im]|].
        - exists rhs_re, rhs_im. by destruct Hacc as (? & ? & ?).
        - exists (np_zeros nedges 1), (np_zeros nedges 1).
          split_and!; [done | apply np_zeros_shape | apply np_zeros_shape |].
          intros i Hi. rewrite complex_entry_none by done.
          by rewrite !np_zeros_cell by (done || lia). }
      destruct (setrow_cell nedges rhs_re x
                  (if negate then fneg (Fin vx) else Fin vx) Hre Hlt)
        as (rhs_re' & -> & Hre' & Hcre).
      rewrite bind_Ok.
      destruct (setrow_cell nedges rhs_im x
                  (if negate then fneg (Fin vy) else Fin vy) Him Hlt)
        as (rhs_im' & -> & Him' & Hcim).
      rewrite bind_Ok.
      assert (∀ i, i < nedges →
                cell rhs_re' i 0
                = Some (re (complex_entry negate components (ind ++ [x]) i))
                ∧ cell rhs_im' i 0
                  = Some (im (complex_entry negate components (ind ++ [x]) i)))
        as Hnew.
      { intros i Hi. rewrite Hcre, Hcim, complex_entry_snoc by done.
        destruct (decide (i = x)) as [->|Hne]; [by rewrite Hsrc | by apply Hold]. }
      exists (Some (rhs_re', rhs_im')), (np_zip_with Complex rhs_re' rhs_im').
      split_and!; [done | by apply np_zip_with_shape | | done..].
      intros i Hi. destruct (Hnew i Hi) as (H1 & H2).
      rewrite (np_zip_with_cell Complex _ _ _ _ _ _ H1 H2).
      rewrite rhs_loop_entry_snoc_complex by done.
      by destruct (complex_entry negate components (ind ++ [x]) i).
Qed.

Lemma rhs_loop_cells negate components nedges ind :
  NoDup ind →
  (∀ i, i ∈ ind → i < nedges ∧ has_value components i) →
  ∃ rhs, rhs_loop negate components nedges ind = Ok rhs ∧ has_shape nedges 1 rhs
         ∧ ∀ i, i < nedges →
             cell rhs i 0 = Some (rhs_loop_entry negate components ind i).
Proof.
  intros Hnd Hind.
  destruct (rhs_loop_state negate components nedges ind Hnd Hind)
    as (acc & rhs & Hrun & Hrhs & Hcell & _).
  exists rhs. split_and!; [|done..].
  unfold rhs_loop. cbv beta zeta.
  etransitivity; [apply (f_equal (fun m => st ← m; Ok (snd st))); exact Hrun|].
  by rewrite bind_Ok.
Qed.

Lemma same_float_refl x : same_float x x.
Proof. by left. Qed.

Lemma same_complex_refl a : same_complex a a.
Proof. split; apply same_float_refl. Qed.



(** ** The incidence builders: tokens and the reference node *)

(** The common text of the two incidence builders up to the deletion of
    the reference row. *)
Lemma incidence_generic_full {T} (z p m : T) (comb : T → T → T) components n :
  pins_in_range components n →
  ∃ M, has_shape n (length components) M
       ∧ ∀ n_ref : Z,
           (n1_index ← pin_indices pin1 components (length components);
            n2_index ← pin_indices pin2 components (length components);
            Amat_plus ← for_each (zip n1_index (seq 0 (length components)))
              (fun '(i, j) A => setitem A i (Z.of_nat j) p)
              (np_full n (length components) z);
            Amat_minus ← for_each (zip n2_index (seq 0 (length components)))
              (fun '(i, j) A => setitem A i (Z.of_nat j) m)
              (np_full n (length components) z);
            np_delete_row (np_zip_with comb Amat_plus Amat_minus) (n_ref - 1))
           = np_delete_row M (n_ref - 1).
Proof.
  intros Hpins. set (e := length components).
  destruct (column_loop_spec p z ((fun c => (pin1 c - 1)%Z) <$> components) n e)
    as (P & HrunP & HP & _).
  { by rewrite length_fmap. }
  { intros i Hi. apply list_elem_of_fmap in Hi as (c & -> & Hc).
    destruct (Hpins c Hc). lia. }
  destruct (column_loop_spec m z ((fun c => (pin2 c - 1)%Z) <$> components) n e)
    as (Mi & HrunM & HMi & _).
  { by rewrite length_fmap. }
  { intros i Hi. apply list_elem_of_fmap in Hi as (c & -> & Hc).
    destruct (Hpins c Hc). lia. }
  exists (np_zip_with comb P Mi). split; [by apply np_zip_with_shape|].
  intros n_ref. unfold e at 1 2. rewrite !pin_indices_ok, !bind_Ok. fold e.
  by rewrite HrunP, bind_Ok, HrunM, bind_Ok.
Qed.

Lemma get_incidence_matrix_str_tokens_aux components num_nodes (n_ref : Z) :
  pins_in_range components num_nodes →
  (1 ≤ n_ref ≤ Z.of_nat num_nodes)%Z →
  ∃ A, get_incidence_matrix_str components num_nodes (length components) n_ref = Ok A
       ∧ has_shape (num_nodes - 1) (length components) A
       ∧ ∀ r j c, r < num_nodes - 1 → components !! j = Some c →
           cell A r j
           = Some (incidence_token c (shift_row (Z.to_nat (n_ref - 1)) r)).
Proof.
  intros Hpins Href. eexists. split_and!.
  - exact (incidence_generic_spec ""%string (bytes500 "1") (bytes500 "-1") String.append
             components num_nodes n_ref Hpins Href).
  - pose proof (comprehension_shape
        (fun r c => incidence_entry ""%string (bytes500 "1") (bytes500 "-1")
                      String.append c (shift_row (Z.to_nat (n_ref - 1)) r))
        (seq 0 (num_nodes - 1)) components) as Hsh.
    by rewrite length_seq in Hsh.
  - intros r j c Hr Hc.
    rewrite (cell_comprehension
               (fun r c => incidence_entry ""%string (bytes500 "1") (bytes500 "-1")
                             String.append c (shift_row (Z.to_nat (n_ref - 1)) r))
               _ _ _ r j r c) by (by rewrite ?lookup_seq_lt).
    f_equal. unfold incidence_entry, incidence_token.
    by destruct (decide _), (decide _).
Qed.

(** X7. On a circuit whose terminal ids and reference node lie in
    [1 .. num_nodes], [get_incidence_matrix_str] returns a
    [(num_nodes - 1) x num_edges] array of tokens: ["1"] at the row of
    [pin1], ["-1"] at the row of [pin2], the empty string elsewhere, and
    ["1-1"] where both terminals of a self-loop meet; rows are numbered
    with the reference row left out. *)
Theorem get_incidence_matrix_str_tokens components num_nodes (n_ref : Z) :
  pins_in_range components num_nodes →
  (1 ≤ n_ref ≤ Z.of_nat num_nodes)%Z →
  ∃ A, get_incidence_matrix_str components num_nodes (get_num_edges components) n_ref
       = Ok A
       ∧ has_shape (num_nodes - 1) (get_num_edges components) A
       ∧ ∀ r j c, r < num_nodes - 1 → components !! j = Some c →
           cell A r j
           = Some (incidence_token c (shift_row (Z.to_nat (n_ref - 1)) r)).
Proof. apply get_incidence_matrix_str_tokens_aux. Qed.

Lemma get_incidence_matrix_str_tokens_witness :
  ∃ A, get_incidence_matrix_str
         [mkComponent ClsV "V1" 1 2 (PyReal 1); mkComponent ClsR "R1" 1 2 (PyReal 1);
          mkComponent ClsL "L1" 3 3 (PyReal 1)] 3 3 2
       = Ok A
       ∧ has_shape 2 3 A
       ∧ ∀ r j c, r < 3 - 1 →
           [mkComponent ClsV "V1" 1 2 (PyReal 1); mkComponent ClsR "R1" 1 2 (PyReal 1);
            mkComponent ClsL "L1" 3 3 (PyReal 1)] !! j = Some c →
           cell A r j = Some (incidence_token c (shift_row (Z.to_nat (2 - 1)) r)).
Proof.
  refine (get_incidence_matrix_str_tokens
    [mkComponent ClsV "V1" 1 2 (PyReal 1); mkComponent ClsR "R1" 1 2 (PyReal 1);
     mkComponent ClsL "L1" 3 3 (PyReal 1)] 3 2 _ _).
  - intros c Hc. repeat (apply elem_of_cons in Hc as [->|Hc]; [simpl; lia|]).
    by apply elem_of_nil in Hc.
  - lia.
Defined.

(** X8. With the terminal ids in range, a reference node beyond
    [num_nodes], or at or below [- num_nodes], makes both incidence
    builders raise [IndexError]: the row [n_ref - 1] to delete does not
    exist. *)
Theorem incidence_reference_out_of_range components num_nodes (n_ref : Z) :
  pins_in_range components num_nodes →
  (Z.of_nat num_nodes < n_ref ∨ n_ref ≤ - Z.of_nat num_nodes)%Z →
  get_incidence_matrix components num_nodes (get_num_edges components) n_ref
  = Err IndexError
  ∧ get_incidence_matrix_str components num_nodes (get_num_edges components) n_ref
    = Err IndexError.
Proof.
  intros Hpins Href.
  assert (∀ T (M : ndarray T), has_shape num_nodes (length components) M →
            np_delete_row M (n_ref - 1) = Err IndexError) as Hdel.
  { intros T M (Hr & _). unfold np_delete_row, nd_nrows.
    rewrite Hr, norm_index_out by lia. done. }
  split.
  - destruct (incidence_generic_full (Fin 0) (Fin 1) (Fin (-1)) fadd
                components num_nodes Hpins) as (M & HM & Hrun).
    unfold get_incidence_matrix, get_num_edges.
    etransitivity; [apply (Hrun n_ref) | by apply Hdel].
  - destruct (incidence_generic_full ""%string (bytes500 "1") (bytes500 "-1")
                String.append components num_nodes Hpins) as (M & HM & Hrun).
    unfold get_incidence_matrix_str, get_num_edges.
    etransitivity; [apply (Hrun n_ref) | by apply Hdel].
Qed.

Lemma incidence_reference_out_of_range_witness :
  get_incidence_matrix
    [mkComponent ClsV "V1" 1 2 (PyReal 1); mkComponent ClsR "R1" 1 2 (PyReal 1)] 2 2 3
  = Err IndexError
  ∧ get_incidence_matrix_str
      [mkComponent ClsV "V1" 1 2 (PyReal 1); mkComponent ClsR "R1" 1 2 (PyReal 1)] 2 2 3
    = Err IndexError.
Proof.
  refine (incidence_reference_out_of_range
    [mkComponent ClsV "V1" 1 2 (PyReal 1); mkComponent ClsR "R1" 1 2 (PyReal 1)] 2 3 _ _).
  - intros c Hc. repeat (apply elem_of_cons in Hc as [->|Hc]; [simpl; lia|]).
    by apply elem_of_nil in Hc.
  - lia.
Defined.

(** X9. A reference node in [- num_nodes + 1 .. 0] is not refused: the
    index [n_ref - 1] counts from the end, and both incidence builders
    succeed with what they return for the node [n_ref + num_nodes]; with
    [n_ref = 0] the row of the last node is the one left out. *)
Theorem incidence_reference_wraps components num_nodes (n_ref : Z) :
  pins_in_range components num_nodes →
  (- Z.of_nat num_nodes < n_ref ≤ 0)%Z →
  ∃ A S,
    get_incidence_matrix components num_nodes (get_num_edges components) n_ref = Ok A
    ∧ get_incidence_matrix components num_nodes (get_num_edges components)
        (n_ref + Z.of_nat num_nodes) = Ok A
    ∧ get_incidence_matrix_str components num_nodes (get_num_edges components) n_ref
      = Ok S
    ∧ get_incidence_matrix_str components num_nodes (get_num_edges components)
        (n_ref + Z.of_nat num_nodes) = Ok S.
Proof.
  intros Hpins Href.
  assert (∀ T (M : ndarray T), has_shape num_nodes (length components) M →
            np_delete_row M (n_ref - 1)
            = np_delete_row M (n_ref + Z.of_nat num_nodes - 1)) as Hdel.
  { intros T M (Hr & _). unfold np_delete_row, nd_nrows, norm_index. rewrite Hr.
    rewrite (decide_False (P := (0 ≤ n_ref - 1 < _)%Z)) by lia.
    rewrite (decide_True (P := (- _ ≤ n_ref - 1 < 0)%Z)) by lia.
    rewrite (decide_True (P := (0 ≤ n_ref + _ - 1 < _)%Z)) by lia.
    do 3 f_equal. lia. }
  assert (1 ≤ n_ref + Z.of_nat num_nodes ≤ Z.of_nat num_nodes)%Z as Href' by lia.
  pose proof (incidence_generic_spec (Fin 0) (Fin 1) (Fin (-1)) fadd
                components num_nodes _ Hpins Href') as HA.
  pose proof (incidence_generic_spec ""%string (bytes500 "1") (bytes500 "-1")
                String.append components num_nodes _ Hpins Href') as HS.
  eexists _, _. split_and!; [|exact HA| |exact HS].
  - destruct (incidence_generic_full (Fin 0) (Fin 1) (Fin (-1)) fadd
                components num_nodes Hpins) as (M & HM & Hrun).
    rewrite <- HA. unfold get_incidence_matrix, get_num_edges.
    etransitivity; [apply (Hrun n_ref)|]. rewrite (Hdel _ M HM).
    symmetry. apply (Hrun (n_ref + Z.of_nat num_nodes)%Z).
  - destruct (incidence_generic_full ""%string (bytes500 "1") (bytes500 "-1")
                String.append components num_nodes Hpins) as (M & HM & Hrun).
    rewrite <- HS. unfold get_incidence_matrix_str, get_num_edges.
    etransitivity; [apply (Hrun n_ref)|]. rewrite (Hdel _ M HM).
    symmetry. apply (Hrun (n_ref + Z.of_nat num_nodes)%Z).
Qed.

Lemma incidence_reference_wraps_witness :
  ∃ A S,
    get_incidence_matrix
      [mkComponent ClsV "V1" 1 2 (PyReal 1); mkComponent ClsR "R1" 1 2 (PyReal 1)] 2 2 0
    = Ok A
    ∧ get_incidence_matrix
        [mkComponent ClsV "V1" 1 2 (PyReal 1); mkComponent ClsR "R1" 1 2 (PyReal 1)] 2 2
        (0 + 2) = Ok A
    ∧ get_incidence_matrix_str
        [mkComponent ClsV "V1" 1 2 (PyReal 1); mkComponent ClsR "R1" 1 2 (PyReal 1)] 2 2 0
      = Ok S
    ∧ get_incidence_matrix_str
        [mkComponent ClsV "V1" 1 2 (PyReal 1); mkComponent ClsR "R1" 1 2 (PyReal 1)] 2 2
        (0 + 2) = Ok S.
Proof.
  refine (incidence_reference_wraps
    [mkComponent ClsV "V1" 1 2 (PyReal 1); mkComponent ClsR "R1" 1 2 (PyReal 1)] 2 0 _ _).
  - intros c Hc. repeat (apply elem_of_cons in Hc as [->|Hc]; [simpl; lia|]).
    by apply elem_of_nil in Hc.
  - lia.
Defined.

(** ** Dimension checks of the tableau assembly *)

Lemma hstack_Ok_inv {T} (A B M : ndarray T) :
  hstack A B = Ok M →
  nd_nrows A = nd_nrows B ∧ nd_nrows M = nd_nrows A
  ∧ nd_ncols M = nd_ncols A + nd_ncols B.
Proof.
  unfold hstack. case_decide as Hr; [|done]. intros [= <-].
  split_and!; [done | | done]. unfold nd_nrows in *. cbn [nd_rows].
  rewrite length_zip_with. lia.
Qed.

Lemma vstack_Ok_inv {T} (A B M : ndarray T) :
  vstack A B = Ok M →
  nd_ncols A = nd_ncols B ∧ nd_ncols M = nd_ncols A
  ∧ nd_nrows M = nd_nrows A + nd_nrows B.
Proof.
  unfold vstack. case_decide as Hc; [|done]. intros [= <-].
  split_and!; [done..|]. unfold nd_nrows. cbn [nd_rows]. by rewrite length_app.
Qed.

Lemma hstack_Err {T} (A B : ndarray T) e : hstack A B = Err e → e = ValueError.
Proof. unfold hstack. case_decide; congruence. Qed.

Lemma vstack_Err {T} (A B : ndarray T) e : vstack A B = Err e → e = ValueError.
Proof. unfold vstack. case_decide; congruence. Qed.

Lemma hstack3_inv {T} (A B C : ndarray T) :
  match hstack3 A B C with
  | Ok M => nd_nrows A = nd_nrows B ∧ nd_nrows A = nd_nrows C
            ∧ nd_nrows M = nd_nrows A
            ∧ nd_ncols M = nd_ncols A + nd_ncols B + nd_ncols C
  | Err e => e = ValueError
  end.
Proof.
  unfold hstack3. destruct (hstack A B) as [AB|e] eqn:H1;
    [|by apply hstack_Err in H1].
  rewrite bind_Ok. apply hstack_Ok_inv in H1 as (H1 & H2 & H3).
  destruct (hstack AB C) as [M|e] eqn:H4; [|by apply hstack_Err in H4].
  apply hstack_Ok_inv in H4 as (H4 & H5 & H6). split_and!; congruence.
Qed.

Lemma vstack3_inv {T} (A B C : ndarray T) :
  match vstack3 A B C with
  | Ok M => nd_ncols A = nd_ncols B ∧ nd_ncols A = nd_ncols C
            ∧ nd_ncols M = nd_ncols A
            ∧ nd_nrows M = nd_nrows A + nd_nrows B + nd_nrows C
  | Err e => e = ValueError
  end.
Proof.
  unfold vstack3. destruct (vstack A B) as [AB|e] eqn:H1;
    [|by apply vstack_Err in H1].
  rewrite bind_Ok. apply vstack_Ok_inv in H1 as (H1 & H2 & H3).
  destruct (vstack AB C) as [M|e] eqn:H4; [|by apply vstack_Err in H4].
  apply vstack_Ok_inv in H4 as (H4 & H5 & H6). split_and!; congruence.
Qed.

Lemma np_transpose_nrows {T} (A : ndarray T) : nd_nrows (np_transpose A) = nd_ncols A.
Proof.
  unfold nd_nrows, np_transpose. cbn [nd_rows]. by rewrite length_fmap, length_seq.
Qed.

(** X10. [get_tableau_matrix] raises nothing but [ValueError], and it
    returns only when the dimensions fit: at least one node, an incidence
    matrix of [num_nodes - 1] rows and [num_edges] columns, branch-law
    matrices of [num_edges] rows whose widths add up to [2 * num_edges]
    in each pair, and a source vector of one column. *)
Theorem get_tableau_matrix_dimension_check {T U} `{Dtype T} `{Dtype U}
    (Amat Rmat Gmat Lmat Cmat : ndarray T) (fvec : ndarray U) num_nodes num_edges :
  match get_tableau_matrix Amat Rmat Gmat Lmat Cmat fvec num_nodes num_edges with
  | Ok _ =>
      1 ≤ num_nodes
      ∧ nd_nrows Amat = num_nodes - 1 ∧ nd_ncols Amat = num_edges
      ∧ nd_nrows Rmat = num_edges ∧ nd_nrows Gmat = num_edges
      ∧ nd_nrows Lmat = num_edges ∧ nd_nrows Cmat = num_edges
      ∧ nd_ncols Rmat + nd_ncols Gmat = 2 * num_edges
      ∧ nd_ncols Lmat + nd_ncols Cmat = 2 * num_edges
      ∧ nd_ncols fvec = 1
  | Err e => e = ValueError
  end.
Proof.
  unfold get_tableau_matrix. destruct num_nodes as [|n1]; [done|].
  cbn [dim_pred]. rewrite bind_Ok.
  pose proof (hstack3_inv Amat (np_zeros n1 num_edges) (np_zeros n1 n1)) as Hkcl.
  destruct (hstack3 Amat _ _) as [M_kcl|e]; [|done]. rewrite bind_Ok.
  pose proof (hstack3_inv (np_zeros num_edges num_edges)
                (np_neg (np_eye num_edges num_edges)) (np_transpose Amat)) as Hkvl.
  destruct (hstack3 (np_zeros num_edges num_edges) _ _) as [M_kvl|e]; [|done].
  rewrite bind_Ok.
  pose proof (hstack3_inv Rmat Gmat (np_zeros num_edges n1)) as Hcomp.
  destruct (hstack3 Rmat Gmat _) as [M_comp|e]; [|done]. rewrite bind_Ok.
  pose proof (vstack3_inv M_kcl M_kvl M_comp) as HM1.
  destruct (vstack3 M_kcl M_kvl M_comp) as [Mmat1|e]; [|done]. rewrite bind_Ok.
  pose proof (vstack3_inv (np_zeros n1 1) (np_zeros num_edges 1) fvec) as Hb.
  destruct (vstack3 (np_zeros n1 1) _ fvec) as [bvec|e]; [|done]. rewrite bind_Ok.
  pose proof (hstack3_inv Lmat Cmat (np_zeros num_edges n1)) as Hdyn.
  destruct (hstack3 Lmat Cmat _) as [M_dyn|e]; [|done]. rewrite bind_Ok.
  destruct (vstack (np_zeros (num_edges + n1) (2 * num_edges + n1)) M_dyn)
    as [Mmat2|e] eqn:HM2; [|by apply vstack_Err in HM2].
  apply vstack_Ok_inv in HM2 as (HM2 & _).
  rewrite bind_Ok.
  unfold np_zeros in *. rewrite ?np_full_nrows, ?np_transpose_nrows in *.
  cbn [nd_ncols np_full np_transpose np_neg np_map np_eye] in *.
  destruct Hkcl as (? & ? & ? & ?), Hkvl as (? & ? & ? & ?), Hcomp as (? & ? & ? & ?),
    HM1 as (? & ? & ? & ?), Hb as (? & ? & ? & ?), Hdyn as (? & ? & ? & ?).
  split_and!; lia.
Qed.

(** ** The symbolic tableau, cell by cell *)

Lemma cell_Some_lt {T} r c (A : ndarray T) i j x :
  has_shape r c A → cell A i j = Some x → i < r ∧ j < c.
Proof.
  intros (Hr & Hc & Hall) Hcell. unfold cell in Hcell.
  destruct (nd_rows A !! i) as [row|] eqn:Hrow; [|done]. cbn in Hcell.
  split.
  - rewrite <- Hr. by eapply lookup_lt_Some.
  - rewrite Forall_forall in Hall.
    rewrite <- (Hall row (list_elem_of_lookup_2 _ _ _ Hrow)). by eapply lookup_lt_Some.
Qed.

Lemma tableau_str_cells (Amat_str Rmat_str Gmat_str Lmat_str Cmat_str
    fvec_str : ndarray string) numnodes numedges :
  1 ≤ numnodes →
  has_shape (numnodes - 1) numedges Amat_str →
  has_shape numedges numedges Rmat_str → has_shape numedges numedges Gmat_str →
  has_shape numedges numedges Lmat_str → has_shape numedges numedges Cmat_str →
  has_shape numedges 1 fvec_str →
  ∃ M1 M2 b,
    get_tableau_matrix_str Amat_str Rmat_str Gmat_str Lmat_str Cmat_str fvec_str
      numnodes numedges = Ok (M1, M2, b)
    ∧ has_shape ((numnodes - 1) + numedges + numedges)
                (numedges + numedges + (numnodes - 1)) M1
    ∧ has_shape ((numnodes - 1) + numedges + numedges)
                (numedges + numedges + (numnodes - 1)) M2
    ∧ has_shape ((numnodes - 1) + numedges + numedges) 1 b
    ∧ ∀ i j, i < (numnodes - 1) + numedges + numedges →
             j < numedges + numedges + (numnodes - 1) →
        cell M1 i j
        = normalize_cell <$> @stiffness_block_cell string text_dtype
                               Amat_str Rmat_str Gmat_str numnodes numedges i j
        ∧ cell M2 i j
          = normalize_cell <$> @damping_block_cell string text_dtype
                                 Lmat_str Cmat_str numnodes numedges i j
        ∧ cell b i 0
          = normalize_zero <$> @source_block_cell string text_dtype
                                 (np_map normalize_zero fvec_str) numnodes numedges i.
Proof.
  intros Hn HA HR HG HL HC Hf.
  destruct (get_tableau_matrix_str_generic Amat_str Rmat_str Gmat_str Lmat_str Cmat_str
              fvec_str numnodes numedges Hn HA HR HG HL HC Hf)
    as (M1 & M2 & b & Hgen & Hrun).
  pose proof (np_map_shape normalize_zero _ _ _ Hf) as Hf'.
  destruct (@tableau_blocks_cells string string text_dtype text_dtype
              Amat_str Rmat_str Gmat_str Lmat_str Cmat_str
              (np_map normalize_zero fvec_str) numnodes numedges Hn HA HR HG HL HC Hf')
    as (M1' & M2' & b' & Hgen' & HM1 & HM2 & Hb & Hcells).
  rewrite Hgen in Hgen'. injection Hgen' as <- <- <-.
  eexists _, _, _. split_and!; [exact Hrun | by apply np_map_shape..|].
  intros i j Hi Hj. rewrite !np_map_cell.
  destruct (Hcells i j Hi Hj) as (-> & -> & ->). done.
Qed.

Lemma normalize_cell_canonical s : canonical_token (normalize_cell s).
Proof.
  unfold canonical_token, normalize_cell, is_blank_zero.
  repeat (case_bool_decide; subst; cbn [orb]); split_and!; (congruence || done).
Qed.

Lemma normalize_zero_not_blank s :
  normalize_zero s ≠ ""%string ∧ normalize_zero s ≠ "0.0"%string
  ∧ normalize_zero s ≠ "-0.0"%string.
Proof.
  unfold normalize_zero, is_blank_zero.
  repeat (case_bool_decide; subst; cbn [orb]); split_and!; (congruence || done).
Qed.



(** ** Symbolic branch-law matrices on the index lists of [get_indices] *)

Lemma symbolic_builders_by_class components :
  ∃ R G L C f,
    get_resistance_matrix_str components (length components)
      (isinstance_indices ClsR components) (isinstance_indices ClsI components)
      (isinstance_indices ClsC components) = Ok R
    ∧ get_conductance_matrix_str (length components)
        (isinstance_indices ClsR components) (isinstance_indices ClsV components)
        (isinstance_indices ClsL components) = Ok G
    ∧ get_inductance_matrix_str components (length components)
        (isinstance_indices ClsL components) = Ok L
    ∧ get_capacitance_matrix_str components (length components)
        (isinstance_indices ClsC components) = Ok C
    ∧ get_rhs_str components (length components)
        (isinstance_indices ClsI components) (isinstance_indices ClsV components) = Ok f
    ∧ has_shape (length components) (length components) R
    ∧ has_shape (length components) (length components) G
    ∧ has_shape (length components) (length components) L
    ∧ has_shape (length components) (length components) C
    ∧ has_shape (length components) 1 f
    ∧ ∀ i j c, components !! i = Some c → j < length components →
        cell R i j = Some (if decide (i = j) then resistance_token c else ""%string)
        ∧ cell G i j = Some (if decide (i = j) then conductance_token c else ""%string)
        ∧ cell L i j = Some (if decide (i = j) then inductance_token c else ""%string)
        ∧ cell C i j = Some (if decide (i = j) then capacitance_token c else ""%string)
        ∧ cell f i 0 = Some (source_token c).
Proof.
  destruct (get_resistance_matrix_str_cells components (length components)
              (isinstance_indices ClsR components) (isinstance_indices ClsI components)
              (isinstance_indices ClsC components)) as (R & HR & HsR & HcR).
  { intros i Hi. rewrite !elem_of_app in Hi.
    destruct Hi as [?|[?|?]]; by eapply isinstance_indices_lt. }
  { intros i Hi. by eapply isinstance_indices_lt. }
  destruct (get_conductance_matrix_str_cells (length components)
              (isinstance_indices ClsR components) (isinstance_indices ClsV components)
              (isinstance_indices ClsL components)) as (G & HG & HsG & HcG).
  { intros i Hi. rewrite !elem_of_app in Hi.
    destruct Hi as [?|[?|?]]; by eapply isinstance_indices_lt. }
  destruct (negated_name_matrix_cells components (length components)
              (isinstance_indices ClsL components)) as (L & HL & HsL & HcL).
  { intros i Hi. split; by eapply isinstance_indices_lt. }
  destruct (negated_name_matrix_cells components (length components)
              (isinstance_indices ClsC components)) as (C & HC & HsC & HcC).
  { intros i Hi. split; by eapply isinstance_indices_lt. }
  destruct (get_rhs_str_cells components (length components)
              (isinstance_indices ClsI components) (isinstance_indices ClsV components))
    as (f & Hf & Hsf & Hcf).
  { intros i Hi. rewrite !elem_of_app in Hi.
    destruct Hi as [?|?]; split; by eapply isinstance_indices_lt. }
  exists R, G, L, C, f. split_and!; [done..|].
  intros i j c Hc Hj. pose proof (lookup_lt_Some _ _ _ Hc) as Hi.
  rewrite HcR, HcG, HcL, HcC, Hcf by done.
  rewrite !(decide_isinstance_mem _ _ _ _ _ _ Hc).
  assert (name_at components i = name c) as Hnm by (unfold name_at; by rewrite Hc).
  rewrite Hnm.
  destruct (decide (i = j)) as [->|Hne].
  - rewrite !(decide_isinstance _ _ _ _ _ _ Hc).
    unfold resistance_token, conductance_token, inductance_token, capacitance_token,
      source_token.
    destruct (cls c) eqn:Hk; repeat (case_decide; try done);
      cbn [String.append]; rewrite ?append_nil_r; done.
  - rewrite !decide_False by tauto. split_and!; try done.
    unfold source_token. destruct (cls c); repeat (case_decide; try done);
      cbn [String.append]; rewrite ?append_nil_r; done.
Qed.


(** ** The symbolic track on a well-formed circuit *)

(** The whole symbolic track, with the cells of every array it builds. *)
Lemma symbolic_track_run components n (ref_node : Z) :
  pins_in_range components n → (1 ≤ ref_node ≤ Z.of_nat n)%Z →
  ∃ A R G L C f M1 M2 b,
    symbolic_track components n (length components) ref_node
    = Ok (Matrices A R G L C f M1 M2 b)
    ∧ (∀ r j c, r < n - 1 → components !! j = Some c →
         cell A r j = Some (incidence_token c (shift_row (Z.to_nat (ref_node - 1)) r)))
    ∧ (∀ i j c, components !! i = Some c → j < length components →
         cell R i j = Some (if decide (i = j) then resistance_token c else ""%string)
         ∧ cell G i j = Some (if decide (i = j) then conductance_token c else ""%string)
         ∧ cell L i j = Some (if decide (i = j) then inductance_token c else ""%string)
         ∧ cell C i j = Some (if decide (i = j) then capacitance_token c else ""%string)
         ∧ cell f i 0 = Some (source_token c))
    ∧ has_shape ((n - 1) + length components + length components)
                (length components + length components + (n - 1)) M1
    ∧ has_shape ((n - 1) + length components + length components)
                (length components + length components + (n - 1)) M2
    ∧ has_shape ((n - 1) + length components + length components) 1 b
    ∧ ∀ i j, i < (n - 1) + length components + length components →
             j < length components + length components + (n - 1) →
        cell M1 i j
        = normalize_cell <$> @stiffness_block_cell string text_dtype
                               A R G n (length components) i j
        ∧ cell M2 i j
          = normalize_cell <$> @damping_block_cell string text_dtype
                                 L C n (length components) i j
        ∧ cell b i 0
          = normalize_zero <$> @source_block_cell string text_dtype
                                 (np_map normalize_zero f) n (length components) i.
Proof.
  intros Hpins Href. unfold symbolic_track, get_indices.
  destruct (get_incidence_matrix_str_tokens_aux components n ref_node Hpins Href)
    as (A & HA & HsA & HcA).
  destruct (symbolic_builders_by_class components)
    as (R & G & L & C & f & HR & HG & HL & HC & Hf & HsR & HsG & HsL & HsC & Hsf & Hcells).
  destruct (tableau_str_cells A R G L C f n (length components))
    as (M1 & M2 & b & Hrun & HM1 & HM2 & Hb & Hblocks); [lia | done..|].
  exists A, R, G, L, C, f, M1, M2, b.
  rewrite HA, bind_Ok, HR, bind_Ok, HG, bind_Ok, HL, bind_Ok, HC, bind_Ok, Hf, bind_Ok.
  rewrite Hrun, bind_Ok. split_and!; done.
Qed.



(** ** The symbolic track does not read the values *)

Lemma for_each_ext {X S} (body body' : X → S → result S) (xs : list X) s :
  (∀ x s, body x s = body' x s) → for_each xs body s = for_each xs body' s.
Proof.
  intros Hext. revert s. induction xs as [|x xs IH]; intros s; [done|].
  cbn [for_each]. rewrite Hext. destruct (body' x s) as [s'|e]; [|done].
  rewrite !bind_Ok. apply IH.
Qed.

Lemma mapM_result_ext {X Y} (f g : X → result Y) (l : list X) :
  (∀ x, f x = g x) → mapM f l = mapM g l.
Proof.
  intros Hext. induction l as [|x l IH]; [done|]. cbn [mapM]. by rewrite Hext, IH.
Qed.

Lemma getitem_without_value components i {T} (k : Component → result T) :
  (∀ c, k (without_value c) = k c) →
  (c ← getitem (without_value <$> components) i; k c)
  = (c ← getitem components i; k c).
Proof.
  intros Hk. unfold getitem. rewrite list_lookup_fmap.
  destruct (components !! i) as [c|]; [|done]. cbn [fmap option_fmap option_map].
  by rewrite !bind_Ok.
Qed.

Lemma isinstance_indices_offset_without_value k (g : nat → nat) components :
  fst <$> filter (fun p => cls (snd p) = k)
            (imap (fun i comp => (g i, comp)) (without_value <$> components))
  = fst <$> filter (fun p => cls (snd p) = k)
              (imap (fun i comp => (g i, comp)) components).
Proof.
  revert g. induction components as [|c l IH]; intros g; [done|].
  rewrite fmap_cons, !imap_cons.
  destruct (decide (cls c = k)) as [Hk|Hk].
  - rewrite !filter_cons_True by done. rewrite !fmap_cons. cbn [fst]. f_equal.
    apply (IH (g ∘ S)).
  - rewrite !filter_cons_False by done. apply (IH (g ∘ S)).
Qed.

Lemma isinstance_indices_without_value k components :
  isinstance_indices k (without_value <$> components) = isinstance_indices k components.
Proof. apply (isinstance_indices_offset_without_value k id). Qed.

Lemma pin_indices_without_value pin components n :
  (∀ c, pin (without_value c) = pin c) →
  pin_indices pin (without_value <$> components) n = pin_indices pin components n.
Proof.
  intros Hpin. unfold pin_indices. apply mapM_result_ext. intros i.
  apply (getitem_without_value components i (fun c => Ok (pin c - 1)%Z)).
  intros c. by rewrite Hpin.
Qed.

Lemma symbolic_track_without_value components n e (ref_node : Z) :
  symbolic_track (without_value <$> components) n e ref_node
  = symbolic_track components n e ref_node.
Proof.
  unfold symbolic_track, get_indices. rewrite !isinstance_indices_without_value.
  assert (get_incidence_matrix_str (without_value <$> components) n e ref_node
          = get_incidence_matrix_str components n e ref_node) as ->.
  { unfold get_incidence_matrix_str. by rewrite !pin_indices_without_value. }
  assert (∀ i1 i2 i3,
            get_resistance_matrix_str (without_value <$> components) e i1 i2 i3
            = get_resistance_matrix_str components e i1 i2 i3) as HR.
  { intros i1 i2 i3. unfold get_resistance_matrix_str.
    rewrite (for_each_ext
               (fun i M => c ← getitem (without_value <$> components) i;
                           setitem M (Z.of_nat i) (Z.of_nat i) (bytes500 (name c)))
               (fun i M => c ← getitem components i;
                           setitem M (Z.of_nat i) (Z.of_nat i) (bytes500 (name c))));
      [done|].
    intros i M.
    by apply (getitem_without_value components i
                (fun c => setitem M (Z.of_nat i) (Z.of_nat i) (bytes500 (name c)))). }
  assert (∀ ind,
            get_inductance_matrix_str (without_value <$> components) e ind
            = get_inductance_matrix_str components e ind) as HL.
  { intros ind. unfold get_inductance_matrix_str. apply for_each_ext. intros i M.
    by apply (getitem_without_value components i
                (fun c => setitem M (Z.of_nat i) (Z.of_nat i)
                            (bytes500 ("-" +:+ name c)))). }
  assert (∀ ind,
            get_capacitance_matrix_str (without_value <$> components) e ind
            = get_capacitance_matrix_str components e ind) as HC.
  { intros ind. unfold get_capacitance_matrix_str. apply for_each_ext. intros i M.
    by apply (getitem_without_value components i
                (fun c => setitem M (Z.of_nat i) (Z.of_nat i)
                            (bytes500 ("-" +:+ name c)))). }
  assert (∀ i1 i2,
            get_rhs_str (without_value <$> components) e i1 i2
            = get_rhs_str components e i1 i2) as Hf.
  { intros i1 i2. unfold get_rhs_str.
    rewrite (for_each_ext
               (fun i M => c ← getitem (without_value <$> components) i;
                           setrow M (Z.of_nat i) (bytes500 (name c)))
               (fun i M => c ← getitem components i;
                           setrow M (Z.of_nat i) (bytes500 (name c)))).
    - destruct (for_each i1 _ _) as [M1|err]; [|done]. rewrite !bind_Ok.
      rewrite (for_each_ext
                 (fun i M => c ← getitem (without_value <$> components) i;
                             setrow M (Z.of_nat i) (bytes500 ("-" +:+ name c)))
                 (fun i M => c ← getitem components i;
                             setrow M (Z.of_nat i) (bytes500 ("-" +:+ name c))));
        [done|].
      intros i M.
      by apply (getitem_without_value components i
                  (fun c => setrow M (Z.of_nat i) (bytes500 ("-" +:+ name c)))).
    - intros i M.
      by apply (getitem_without_value components i
                  (fun c => setrow M (Z.of_nat i) (bytes500 (name c)))). }
  by rewrite HR, HL, HC, Hf.
Qed.

(** X14. The symbolic track never reads a value: two component lists that
    agree on the class, the name and the two terminals of every component
    give the same result, be it the arrays or the exception. *)
Theorem symbolic_track_ignores_values components components' n e (ref_node : Z) :
  without_value <$> components = without_value <$> components' →
  symbolic_track components n e ref_node = symbolic_track components' n e ref_node.
Proof.
  intros Heq.
  rewrite <- (symbolic_track_without_value components),
          <- (symbolic_track_without_value components').
  by rewrite Heq.
Qed.

Lemma symbolic_track_ignores_values_witness :
  symbolic_track
    [mkComponent ClsV "V1" 1 2 (PyComplex 1 1); mkComponent ClsR "R1" 2 1 (PyReal 5)] 2 2 1
  = symbolic_track
      [mkComponent ClsV "V1" 1 2 PyNone; mkComponent ClsR "R1" 2 1 (PyReal 7)] 2 2 1.
Proof.
  refine (symbolic_track_ignores_values
    [mkComponent ClsV "V1" 1 2 (PyComplex 1 1); mkComponent ClsR "R1" 2 1 (PyReal 5)]
    [mkComponent ClsV "V1" 1 2 PyNone; mkComponent ClsR "R1" 2 1 (PyReal 7)] 2 2 1 _).
  reflexivity.
Defined.

(** ** Zero rows *)

Lemma cell_in_shape {T} r c (A : ndarray T) i j :
  has_shape r c A → i < r → j < c → ∃ x, cell A i j = Some x.
Proof.
  intros (Hr & Hc & Hall) Hi Hj. unfold cell.
  destruct (lookup_lt_is_Some_2 (nd_rows A) i) as [row Hrow]; [lia|].
  rewrite Hrow. cbn. rewrite Forall_forall in Hall.
  pose proof (Hall row (list_elem_of_lookup_2 _ _ _ Hrow)) as Hlen.
  apply lookup_lt_is_Some_2. lia.
Qed.

Lemma getcell_Some {T} (A : ndarray T) i j x : cell A i j = Some x → getcell A i j = Ok x.
Proof. unfold getcell. by intros ->. Qed.

(** The inner loop of [get_zero_rows_str]: the counter goes up by one at
    every column where both matrices hold a zero text. *)
Lemma zero_counter_loop (M1_str M2_str : ndarray string) i (js : list nat) :
  (∀ j, j ∈ js → ∃ m1 m2, cell M1_str i j = Some m1 ∧ cell M2_str i j = Some m2) →
  ∀ k, ∃ cnt,
    for_each js
      (fun j zero_counter =>
         m1_ ← getcell M1_str i j;
         m2_ ← getcell M2_str i j;
         Ok (if is_zero_text m1_ && is_zero_text m2_
             then zero_counter + 1 else zero_counter)) k = Ok cnt
    ∧ cnt ≤ k + length js
    ∧ (cnt = k + length js
       ↔ ∀ j, j ∈ js →
           ∃ m1 m2, cell M1_str i j = Some m1 ∧ cell M2_str i j = Some m2
                    ∧ is_zero_text m1 = true ∧ is_zero_text m2 = true).
Proof.
  induction js as [|j js IH]; intros Hcells k.
  - exists k. cbn [for_each length]. split_and!; [done | lia |].
    split; [|lia]. intros _ j Hj. by apply elem_of_nil in Hj.
  - destruct (Hcells j) as (m1 & m2 & H1 & H2); [left|].
    cbn [for_each]. rewrite (getcell_Some _ _ _ _ H1), bind_Ok.
    rewrite (getcell_Some _ _ _ _ H2), bind_Ok.
    destruct (IH (fun j' Hj' => Hcells j' (list_elem_of_further _ _ _ Hj'))
                (if is_zero_text m1 && is_zero_text m2 then k + 1 else k))
      as (cnt & Hrun & Hle & Hall).
    exists cnt. split; [exact Hrun|]. cbn [length].
    destruct (is_zero_text m1 && is_zero_text m2) eqn:Hz.
    + apply andb_true_iff in Hz as [Hz1 Hz2]. split; [lia|]. split.
      * intros Hcnt j' [->|Hj']%elem_of_cons.
        -- by exists m1, m2.
        -- apply Hall; [lia | done].
      * intros Hzero. assert (cnt = k + 1 + length js) as ->; [|lia].
        apply Hall. intros j' Hj'. apply Hzero. by right.
    + split; [lia|]. split; [lia|]. intros Hzero. exfalso.
      destruct (Hzero j) as (m1' & m2' & H1' & H2' & Hz1 & Hz2); [left|].
      rewrite H1 in H1'. rewrite H2 in H2'. injection H1' as <-. injection H2' as <-.
      by rewrite Hz1, Hz2 in Hz.
Qed.

(** The outer loop over the rows [a .. a + n - 1]. *)
Lemma zero_rows_loop (M1_str M2_str b_str : ndarray string) r c :
  has_shape r c M1_str → has_shape r c M2_str → has_shape r 1 b_str →
  ∀ n a acc, a + n ≤ r →
  ∃ zl,
    for_each (seq a n)
      (fun i zero_row_index =>
         zero_counter ← for_each (seq 0 (nd_ncols M1_str))
           (fun j zero_counter =>
              m1_ ← getcell M1_str i j;
              m2_ ← getcell M2_str i j;
              Ok (if is_zero_text m1_ && is_zero_text m2_
                  then zero_counter + 1 else zero_counter))
           0;
         b_ ← getcell b_str i 0;
         Ok (if bool_decide (zero_counter = nd_ncols M1_str) && is_zero_text b_
             then zero_row_index ++ [i] else zero_row_index)) acc = Ok (acc ++ zl)
    ∧ ascending zl
    ∧ ∀ i, i ∈ zl ↔ (a ≤ i < a + n) ∧ zero_row M1_str M2_str b_str i.
Proof.
  intros HM1 HM2 Hb.
  assert (nd_ncols M1_str = c) as Hc by (by destruct HM1 as (_ & ? & _)).
  induction n as [|n IH]; intros a acc Han.
  - exists []. cbn [seq for_each]. rewrite app_nil_r.
    split_and!; [done | apply ascending_nil |].
    intros i. split; [by intros ?%elem_of_nil | lia].
  - cbn [seq for_each].
    destruct (zero_counter_loop M1_str M2_str a (seq 0 (nd_ncols M1_str))) with (k := 0)
      as (cnt & -> & Hle & Hcnt).
    { intros j Hj%elem_of_seq. rewrite Hc in Hj.
      destruct (cell_in_shape r c M1_str a j HM1) as [m1 H1]; [lia..|].
      destruct (cell_in_shape r c M2_str a j HM2) as [m2 H2]; [lia..|].
      by exists m1, m2. }
    rewrite bind_Ok.
    destruct (cell_in_shape r 1 b_str a 0 Hb) as [b0 Hb0]; [lia..|].
    rewrite (getcell_Some _ _ _ _ Hb0), !bind_Ok.
    rewrite length_seq in Hle, Hcnt. cbn [Nat.add] in Hle, Hcnt.
    assert (bool_decide (cnt = nd_ncols M1_str) && is_zero_text b0 = true
            ↔ zero_row M1_str M2_str b_str a) as Hrow.
    { rewrite andb_true_iff, bool_decide_eq_true, Hcnt. unfold zero_row. split.
      - intros [Hall Hz]. split; [|by exists b0].
        intros j Hj. apply Hall, elem_of_seq. lia.
      - intros [Hall (b0' & Hb0' & Hz)]. split.
        + intros j Hj%elem_of_seq. apply Hall. lia.
        + rewrite Hb0 in Hb0'. by injection Hb0' as <-. }
    destruct (bool_decide (cnt = nd_ncols M1_str) && is_zero_text b0) eqn:Hcond;
      cbv iota.
    + destruct (IH (S a) (acc ++ [a])) as (zl & Hrun & Hasc & Hmem); [lia|].
      exists (a :: zl). rewrite Hrun, <- app_assoc. split_and!; [done | |].
      * apply ascending_cons; [|done]. intros y Hy%Hmem. lia.
      * intros i. rewrite elem_of_cons, Hmem. split.
        -- intros [->|[Hi Hz]]; [|split; [lia | done]].
           split; [lia|]. by apply Hrow.
        -- intros [Hi Hz]. destruct (decide (i = a)) as [->|Hne]; [by left|].
           right. split; [lia | done].
    + destruct (IH (S a) acc) as (zl & Hrun & Hasc & Hmem); [lia|].
      exists zl. split_and!; [done..|].
      intros i. rewrite Hmem. split.
      * intros [Hi Hz]. split; [lia | done].
      * intros [Hi Hz]. destruct (decide (i = a)) as [->|Hne].
        -- apply Hrow in Hz. congruence.
        -- split; [lia | done].
Qed.

Lemma zero_rows_characterised (M1_str M2_str b_str : ndarray string) r c :
  has_shape r c M1_str → has_shape r c M2_str → has_shape r 1 b_str →
  ∃ zero_row_index,
    get_zero_rows_str M1_str M2_str b_str = Ok zero_row_index
    ∧ ascending zero_row_index
    ∧ ∀ i, i ∈ zero_row_index ↔ i < r ∧ zero_row M1_str M2_str b_str i.
Proof.
  intros HM1 HM2 Hb.
  destruct (zero_rows_loop M1_str M2_str b_str r c HM1 HM2 Hb r 0 []) as (zl & Hrun & Hasc & Hmem);
    [lia|].
  exists zl. split_and!; [|done|].
  - unfold get_zero_rows_str. cbv zeta.
    assert (nd_nrows M1_str = r) as -> by (by destruct HM1 as (? & _)).
    exact Hrun.
  - intros i. rewrite Hmem. split; intros [? ?]; (split; [lia | done]).
Qed.



(** ** The zero rows of the symbolic tableau *)

Lemma zero_text_incidence_token c r :
  is_zero_text (normalize_cell (incidence_token c r)) = true
  ↔ (pin1 c - 1 ≠ Z.of_nat r)%Z ∧ (pin2 c - 1 ≠ Z.of_nat r)%Z.
Proof.
  unfold incidence_token.
  destruct (decide (pin1 c - 1 = Z.of_nat r)%Z), (decide (pin2 c - 1 = Z.of_nat r)%Z);
    (split; [intros Hz; vm_compute in Hz; done | intros [? ?]; done]).
Qed.

Lemma zero_text_branch_tokens c :
  is_zero_text (normalize_cell (resistance_token c)) = true
  ∧ is_zero_text (normalize_cell (conductance_token c)) = true
  ↔ no_branch_law c.
Proof.
  unfold resistance_token, conductance_token, no_branch_law.
  destruct (cls c); split;
    first [ intros [H1 H2]; vm_compute in H1, H2; (done || (by left) || (by right))
          | intros [?|?]; done ].
Qed.

Lemma no_branch_law_tokens c :
  no_branch_law c →
  resistance_token c = ""%string ∧ conductance_token c = ""%string
  ∧ inductance_token c = ""%string ∧ capacitance_token c = ""%string
  ∧ source_token c = ""%string.
Proof.
  unfold no_branch_law, resistance_token, conductance_token, inductance_token,
    capacitance_token, source_token.
  by intros [-> | ->].
Qed.

(** The symbolic track followed by the search for zero rows. *)
Lemma symbolic_zero_rows_run components num_nodes (ref_node : Z) :
  pins_in_range components num_nodes → (1 ≤ ref_node ≤ Z.of_nat num_nodes)%Z →
  ∃ A R G L C f M1 M2 b zero_rows,
    symbolic_track components num_nodes (length components) ref_node
    = Ok (Matrices A R G L C f M1 M2 b)
    ∧ has_shape ((num_nodes - 1) + length components + length components)
                (length components + length components + (num_nodes - 1)) M1
    ∧ has_shape ((num_nodes - 1) + length components + length components)
                (length components + length components + (num_nodes - 1)) M2
    ∧ has_shape ((num_nodes - 1) + length components + length components) 1 b
    ∧ get_zero_rows_str M1 M2 b = Ok zero_rows
    ∧ ascending zero_rows
    ∧ (∀ i, i ∈ zero_rows
            ↔ i < (num_nodes - 1) + length components + length components
              ∧ zero_row M1 M2 b i)
    ∧ ∀ i, i ∈ zero_rows
           ↔ (i < num_nodes - 1
              ∧ isolated_node components (node_of_row ref_node i))
             ∨ ∃ k c, i = (num_nodes - 1) + length components + k
                      ∧ components !! k = Some c ∧ no_branch_law c.
Proof.
  intros Hpins Href.
  destruct (symbolic_track_run components num_nodes ref_node Hpins Href)
    as (A & R & G & L & C & f & M1 & M2 & b & Hrun & HcA & Hcomp & HM1 & HM2 & Hb
        & Hblocks).
  set (e := length components) in *. set (n1 := num_nodes - 1) in *.
  destruct (zero_rows_characterised M1 M2 b (n1 + e + e) (e + e + n1) HM1 HM2 Hb)
    as (zl & Hz & Hasc & Hmem).
  exists A, R, G, L, C, f, M1, M2, b, zl.
  split_and!; [done..|].
  assert (nd_ncols M1 = e + e + n1) as Hcols by (by destruct HM1 as (_ & ? & _)).
  assert (∀ i j, i < n1 + e + e → j < e + e + n1 →
            ∃ x1 x2 x3,
              @stiffness_block_cell string text_dtype A R G num_nodes e i j = Some x1
              ∧ @damping_block_cell string text_dtype L C num_nodes e i j = Some x2
              ∧ @source_block_cell string text_dtype (np_map normalize_zero f)
                  num_nodes e i = Some x3) as Hsome.
  { intros i j Hi Hj. destruct (Hblocks i j Hi Hj) as (H1 & H2 & H3).
    destruct (cell_in_shape _ _ M1 i j HM1 Hi Hj) as [y1 Hy1].
    destruct (cell_in_shape _ _ M2 i j HM2 Hi Hj) as [y2 Hy2].
    destruct (cell_in_shape _ _ b i 0 Hb Hi) as [y3 Hy3]; [lia|].
    rewrite Hy1 in H1. rewrite Hy2 in H2. rewrite Hy3 in H3.
    destruct (stiffness_block_cell _ _ _ _ _ _ _) as [x1|]; [|done].
    destruct (damping_block_cell _ _ _ _ _ _) as [x2|]; [|done].
    destruct (source_block_cell _ _ _ _) as [x3|]; [|done]. by exists x1, x2, x3. }
  assert (∀ i, i < n1 + e + e →
            (zero_row M1 M2 b i
             ↔ (∀ j, j < e + e + n1 →
                  ∀ x1 x2 x3,
                    @stiffness_block_cell string text_dtype A R G num_nodes e i j
                    = Some x1 →
                    @damping_block_cell string text_dtype L C num_nodes e i j
                    = Some x2 →
                    @source_block_cell string text_dtype (np_map normalize_zero f)
                      num_nodes e i = Some x3 →
                    is_zero_text (normalize_cell x1) = true
                    ∧ is_zero_text (normalize_cell x2) = true
                    ∧ is_zero_text (normalize_zero x3) = true))) as Hzero.
  { intros i Hi. unfold zero_row. rewrite Hcols. split.
    - intros [Hall (b0 & Hb0 & Hzb)] j Hj x1 x2 x3 Hx1 Hx2 Hx3.
      destruct (Hall j Hj) as (m1 & m2 & Hm1 & Hm2 & Hz1 & Hz2).
      destruct (Hblocks i j Hi Hj) as (H1 & H2 & H3).
      rewrite Hm1, Hx1 in H1. rewrite Hm2, Hx2 in H2. rewrite Hb0, Hx3 in H3.
      cbn in H1, H2, H3. injection H1 as ->. injection H2 as ->. injection H3 as ->.
      done.
    - intros Hall. split.
      + intros j Hj. destruct (Hsome i j Hi Hj) as (x1 & x2 & x3 & Hx1 & Hx2 & Hx3).
        destruct (Hall j Hj x1 x2 x3 Hx1 Hx2 Hx3) as (Hz1 & Hz2 & _).
        destruct (Hblocks i j Hi Hj) as (H1 & H2 & _).
        rewrite Hx1 in H1. rewrite Hx2 in H2.
        exists (normalize_cell x1), (normalize_cell x2). done.
      + assert (0 < e + e + n1 ∨ e + e + n1 = 0) as [Hpos|Hnil] by lia; [|lia].
        destruct (Hsome i 0 Hi Hpos) as (x1 & x2 & x3 & Hx1 & Hx2 & Hx3).
        destruct (Hall 0 Hpos x1 x2 x3 Hx1 Hx2 Hx3) as (_ & _ & Hz3).
        destruct (Hblocks i 0 Hi Hpos) as (_ & _ & H3). rewrite Hx3 in H3.
        exists (normalize_zero x3). done. }
  assert (∀ j c, components !! j = Some c → j < e) as Hlt.
  { intros j c Hc. by eapply lookup_lt_Some. }
  intros i. rewrite Hmem. split.
  - intros [Hi Hrow]. rewrite (Hzero i Hi) in Hrow.
    destruct (decide (i < n1)) as [Hkcl|Hnk].
    + left. split; [done|]. intros c Hc.
      apply list_elem_of_lookup in Hc as [j Hc]. pose proof (Hlt j c Hc) as Hj.
      destruct (Hsome i j Hi) as (x1 & x2 & x3 & Hx1 & Hx2 & Hx3); [lia|].
      destruct (Hrow j) with (x1 := x1) (x2 := x2) (x3 := x3) as (Hz1 & _); [lia|done..|].
      unfold stiffness_block_cell in Hx1. cbv zeta in Hx1. fold n1 in Hx1.
      rewrite decide_True in Hx1 by done. rewrite decide_True in Hx1 by done.
      rewrite (HcA i j c Hkcl Hc) in Hx1. injection Hx1 as <-.
      apply zero_text_incidence_token in Hz1. unfold node_of_row. lia.
    + destruct (decide (i < n1 + e)) as [Hkvl|Hnv].
      * exfalso.
        destruct (Hsome i (e + (i - n1)) Hi) as (x1 & x2 & x3 & Hx1 & Hx2 & Hx3); [lia|].
        destruct (Hrow (e + (i - n1))) with (x1 := x1) (x2 := x2) (x3 := x3)
          as (Hz1 & _); [lia|done..|].
        unfold stiffness_block_cell in Hx1. cbv zeta in Hx1. fold n1 in Hx1.
        rewrite decide_False in Hx1 by done. rewrite decide_True in Hx1 by done.
        rewrite decide_False in Hx1 by lia. rewrite decide_True in Hx1 by lia.
        rewrite decide_True in Hx1 by lia. injection Hx1 as <-.
        vm_compute in Hz1. done.
      * right. set (k := i - (n1 + e)).
        destruct (lookup_lt_is_Some_2 components k) as [c Hc]; [unfold k; fold e; lia|].
        exists k, c. split_and!; [unfold k; lia | done |].
        destruct (Hcomp k k c Hc) as (HR & HG & _); [by eapply Hlt|].
        rewrite decide_True in HR, HG by done.
        apply zero_text_branch_tokens. split.
        -- destruct (Hsome i k Hi) as (x1 & x2 & x3 & Hx1 & Hx2 & Hx3);
             [pose proof (Hlt k c Hc); lia|].
           destruct (Hrow k) with (x1 := x1) (x2 := x2) (x3 := x3) as (Hz1 & _);
             [pose proof (Hlt k c Hc); lia|done..|].
           unfold stiffness_block_cell in Hx1. cbv zeta in Hx1. fold n1 in Hx1.
           rewrite decide_False in Hx1 by done. rewrite decide_False in Hx1 by done.
           rewrite decide_True in Hx1 by (by eapply Hlt).
           fold k in Hx1. rewrite HR in Hx1. by injection Hx1 as <-.
        -- pose proof (Hlt k c Hc) as Hk.
           destruct (Hsome i (e + k) Hi) as (x1 & x2 & x3 & Hx1 & Hx2 & Hx3); [lia|].
           destruct (Hrow (e + k)) with (x1 := x1) (x2 := x2) (x3 := x3) as (Hz1 & _);
             [lia|done..|].
           unfold stiffness_block_cell in Hx1. cbv zeta in Hx1. fold n1 in Hx1.
           rewrite decide_False in Hx1 by done. rewrite decide_False in Hx1 by done.
           rewrite decide_False in Hx1 by lia. rewrite decide_True in Hx1 by lia.
           fold k in Hx1. replace (e + k - e) with k in Hx1 by lia.
           rewrite HG in Hx1. by injection Hx1 as <-.
  - intros [[Hi Hiso]|(k & c & -> & Hc & Hnb)].
    + assert (i < n1 + e + e) as Hi' by lia. split; [done|].
      apply (Hzero i Hi'). intros j Hj x1 x2 x3 Hx1 Hx2 Hx3.
      unfold stiffness_block_cell in Hx1. unfold damping_block_cell in Hx2.
      unfold source_block_cell in Hx3. cbv zeta in Hx1, Hx2, Hx3.
      fold n1 in Hx1, Hx2, Hx3.
      rewrite decide_True in Hx1 by done. rewrite decide_True in Hx2 by lia.
      rewrite decide_True in Hx3 by lia.
      injection Hx2 as <-. injection Hx3 as <-. split_and!; [|done..].
      destruct (decide (j < e)) as [Hje|Hje]; [|by injection Hx1 as <-].
      destruct (lookup_lt_is_Some_2 components j Hje) as [c Hc].
      rewrite (HcA i j c Hi Hc) in Hx1. injection Hx1 as <-.
      apply zero_text_incidence_token.
      destruct (Hiso c (list_elem_of_lookup_2 _ _ _ Hc)) as [H1 H2].
      unfold node_of_row in H1, H2. lia.
    + pose proof (Hlt k c Hc) as Hk. fold e n1.
      assert (n1 + e + k < n1 + e + e) as Hi' by lia. split; [done|].
      destruct (no_branch_law_tokens c Hnb) as (HtR & HtG & HtL & HtC & Htf).
      apply (Hzero _ Hi'). intros j Hj x1 x2 x3 Hx1 Hx2 Hx3.
      unfold stiffness_block_cell in Hx1. unfold damping_block_cell in Hx2.
      unfold source_block_cell in Hx3. cbv zeta in Hx1, Hx2, Hx3.
      fold n1 in Hx1, Hx2, Hx3.
      rewrite decide_False in Hx1 by lia. rewrite decide_False in Hx1 by lia.
      rewrite decide_False in Hx2 by lia. rewrite decide_False in Hx3 by lia.
      replace (n1 + e + k - (n1 + e)) with k in Hx1, Hx2, Hx3 by lia.
      rewrite np_map_cell in Hx3.
      destruct (Hcomp k k c Hc Hk) as (_ & _ & _ & _ & Hf). rewrite Hf, Htf in Hx3.
      injection Hx3 as <-. split_and!; [| |done].
      * destruct (decide (j < e)) as [Hje|Hje].
        -- destruct (Hcomp k j c Hc Hje) as (HR & _). rewrite HR, HtR in Hx1.
           injection Hx1 as <-. by case_decide.
        -- destruct (decide (j < e + e)) as [Hje2|Hje2]; [|by injection Hx1 as <-].
           destruct (Hcomp k (j - e) c Hc) as (_ & HG & _); [lia|].
           rewrite HG, HtG in Hx1. injection Hx1 as <-. by case_decide.
      * destruct (decide (j < e)) as [Hje|Hje].
        -- destruct (Hcomp k j c Hc Hje) as (_ & _ & HL & _). rewrite HL, HtL in Hx2.
           injection Hx2 as <-. by case_decide.
        -- destruct (decide (j < e + e)) as [Hje2|Hje2]; [|by injection Hx2 as <-].
           destruct (Hcomp k (j - e) c Hc) as (_ & _ & _ & HC & _); [lia|].
           rewrite HC, HtC in Hx2. injection Hx2 as <-. by case_decide.
Qed.



(** ** The terminal state of a field-coupled component *)

Lemma last_open_snoc calls c :
  last_open (calls ++ [c])
  = match c with
    | ElmerComponent.CallIsOpen b1 b2 => Some (b1, b2)
    | ElmerComponent.CallIsClosed => last_open calls
    end.
Proof.
  induction calls as [|c0 calls IH]; cbn [app last_open].
  - by destruct c.
  - rewrite IH. destruct c; [|done]. by destruct (last_open calls).
Qed.

(** X17. After any sequence of [isClosed] and [isOpen] calls on an
    [ElmerComponent], [getOpenTerminals] shows the boundary ids of the last
    [isOpen] call, however many [isClosed] calls came after it, or the
    initial ones when there was none; [getTerminalType] is decided by the
    last call alone; the name, the terminals and the component number are
    what they were. *)
Theorem terminal_state_after_calls calls self :
  ElmerComponent.getOpenTerminals (ElmerComponent.run calls self)
  = match last_open calls with
    | Some (b1, b2) => [b1; b2]
    | None => ElmerComponent.getOpenTerminals self
    end
  ∧ ElmerComponent.getTerminalType (ElmerComponent.run calls self)
    = match last calls with
      | Some ElmerComponent.CallIsClosed => Some true
      | Some (ElmerComponent.CallIsOpen _ _) => Some false
      | None => ElmerComponent.getTerminalType self
      end
  ∧ ElmerComponent.base (ElmerComponent.run calls self) = ElmerComponent.base self
  ∧ ElmerComponent.component_number (ElmerComponent.run calls self)
    = ElmerComponent.component_number self.
Proof.
  induction calls as [|c calls IH] using rev_ind; [done|].
  destruct IH as (Hb & Ht & Hbase & Hnum).
  unfold ElmerComponent.run in *. rewrite foldl_app. cbn [foldl].
  rewrite last_open_snoc, last_snoc.
  destruct c as [|b1 b2]; cbn; split_and!; try done.
Qed.

(** ** The names of the unknowns *)

Lemma unknown_nodes_fold (components : list netlist_component) (ref_node : Z)
    (acc : list Z) :
  NoDup acc → ref_node ∉ acc →
  let unknown_nodes :=
    foldl (fun unknown_nodes component =>
             let p1 := pin1 (component_of component) in
             let p2 := pin2 (component_of component) in
             let u1 := if decide ((p1 ∉ unknown_nodes) ∧ (p1 ≠ ref_node))
                       then unknown_nodes ++ [p1] else unknown_nodes in
             if decide ((p2 ∉ u1) ∧ (p2 ≠ ref_node)) then u1 ++ [p2] else u1)
          acc components in
  NoDup unknown_nodes
  ∧ ∀ p, p ∈ unknown_nodes
         ↔ p ∈ acc
           ∨ (p ≠ ref_node
              ∧ ∃ c, c ∈ components
                     ∧ (p = pin1 (component_of c) ∨ p = pin2 (component_of c))).
Proof.
  revert acc. induction components as [|c l IH]; intros acc Hacc Href; cbn zeta.
  - split; [done|]. intros p. split; [by left|].
    intros [?|(_ & c & Hc & _)]; [done | by apply elem_of_nil in Hc].
  - cbn [foldl].
    set (p1 := pin1 (component_of c)). set (p2 := pin2 (component_of c)).
    set (u1 := if decide ((p1 ∉ acc) ∧ (p1 ≠ ref_node)) then acc ++ [p1] else acc).
    set (u2 := if decide ((p2 ∉ u1) ∧ (p2 ≠ ref_node)) then u1 ++ [p2] else u1).
    assert (NoDup u1 ∧ (ref_node ∉ u1)
            ∧ ∀ p, p ∈ u1 ↔ p ∈ acc ∨ (p ≠ ref_node ∧ p = p1)) as (Hu1 & Hr1 & Hm1).
    { unfold u1. case_decide as Hd.
      - destruct Hd as [Hn Hne]. split_and!.
        + apply NoDup_app. split_and!; [done | | apply NoDup_singleton].
          intros x Hx ->%list_elem_of_singleton. done.
        + rewrite elem_of_app, list_elem_of_singleton. intros [?|?]; [done|].
          by apply Hne.
        + intros p. rewrite elem_of_app, list_elem_of_singleton. split.
          * intros [?| ->]; [by left | by right].
          * intros [?|[_ ->]]; [by left | by right].
      - split_and!; [done..|]. intros p. split; [by left|].
        intros [?|[Hne ->]]; [done|].
        destruct (decide (p1 ∈ acc)); [done|]. exfalso. apply Hd. done. }
    assert (NoDup u2 ∧ (ref_node ∉ u2)
            ∧ ∀ p, p ∈ u2 ↔ p ∈ u1 ∨ (p ≠ ref_node ∧ p = p2)) as (Hu2 & Hr2 & Hm2).
    { unfold u2. case_decide as Hd.
      - destruct Hd as [Hn Hne]. split_and!.
        + apply NoDup_app. split_and!; [done | | apply NoDup_singleton].
          intros x Hx ->%list_elem_of_singleton. done.
        + rewrite elem_of_app, list_elem_of_singleton. intros [?|?]; [done|].
          by apply Hne.
        + intros p. rewrite elem_of_app, list_elem_of_singleton. split.
          * intros [?| ->]; [by left | by right].
          * intros [?|[_ ->]]; [by left | by right].
      - split_and!; [done..|]. intros p. split; [by left|].
        intros [?|[Hne ->]]; [done|].
        destruct (decide (p2 ∈ u1)); [done|]. exfalso. apply Hd. done. }
    destruct (IH u2 Hu2 Hr2) as [Hnd Hmem]. split; [done|].
    intros p. rewrite Hmem, Hm2, Hm1. split.
    + intros [[[?|[Hne ->]]|[Hne ->]]|(Hne & c' & Hc' & Hp)]; [by left | right..].
      * split; [done|]. exists c. split; [left | by left].
      * split; [done|]. exists c. split; [left | by right].
      * split; [done|]. exists c'. split; [by right | done].
    + intros [?|(Hne & c' & [->|Hc']%elem_of_cons & Hp)]; [by do 3 left | |].
      * destruct Hp as [->| ->]; [left; left; by right | left; by right].
      * right. split; [done|]. by exists c'.
Qed.

Lemma is_terminal_true components p :
  is_terminal components p = true
  ↔ ∃ c, c ∈ components ∧ (p = pin1 c ∨ p = pin2 c).
Proof.
  unfold is_terminal. rewrite existsb_exists. split.
  - intros (c & Hc%list_elem_of_In & Hp). exists c. split; [done|].
    apply orb_true_iff in Hp as [Hp%bool_decide_eq_true|Hp%bool_decide_eq_true]; auto.
  - intros (c & Hc & Hp). exists c. split; [by apply list_elem_of_In|].
    apply orb_true_iff. rewrite !bool_decide_eq_true. destruct Hp; auto.
Qed.

Lemma unknown_names_length components (ref_node circuit_number : Z) :
  length (fst (create_unknown_name components ref_node circuit_number))
  + (if is_terminal (component_of <$> components) ref_node then 1 else 0)
  = 2 * length components + get_num_nodes (component_of <$> components).
Proof.
  unfold create_unknown_name, get_num_nodes. cbn [fst].
  rewrite !length_app, !length_fmap.
  assert (ref_node ∉ @nil Z) as Hnil by (by intros ?%elem_of_nil).
  pose proof (unknown_nodes_fold components ref_node [] (NoDup_nil_2) Hnil) as Hfold.
  change (foldl _ [] components) with (unknown_nodes_of components ref_node) in Hfold.
  destruct Hfold as [Hnd Hmem].
  destruct (unique_nodes_fold (component_of <$> components) [] (NoDup_nil_2))
    as [Hnd' Hmem'].
  set (unknown := unknown_nodes_of components ref_node) in *.
  set (unique := foldl _ [] (component_of <$> components)) in *.
  assert (∀ p, p ∈ unique
               ↔ ∃ c, c ∈ components
                      ∧ (p = pin1 (component_of c) ∨ p = pin2 (component_of c)))
    as Hpins.
  { intros p. rewrite Hmem'. split.
    - intros [?%elem_of_nil|(c & (x & -> & Hx)%list_elem_of_fmap & Hp)]; [done|].
      by exists x.
    - intros (x & Hx & Hp). right. exists (component_of x). split; [|done].
      apply list_elem_of_fmap. by exists x. }
  assert (∀ p, p ∈ unknown ↔ p ≠ ref_node ∧ p ∈ unique) as Hunk.
  { intros p. rewrite Hmem, Hpins. split.
    - by intros [?%elem_of_nil|?].
    - intros ?. by right. }
  destruct (is_terminal (component_of <$> components) ref_node) eqn:Hterm.
  - apply is_terminal_true in Hterm as (c & (x & -> & Hx)%list_elem_of_fmap & Hp).
    assert (ref_node ∈ unique) as Href by (apply Hpins; by exists x).
    assert (unique ≡ₚ ref_node :: unknown) as Hperm.
    { apply NoDup_Permutation; [done | |].
      - apply NoDup_cons. split; [|done]. intros H%Hunk. by destruct H.
      - intros p. rewrite elem_of_cons, Hunk.
        destruct (decide (p = ref_node)) as [->|Hne]; [by split; [left|]|].
        split; [by right | by intros [?|[_ ?]]]. }
    rewrite Hperm. cbn [length]. lia.
  - assert (unique ≡ₚ unknown) as Hperm.
    { apply NoDup_Permutation; [done..|]. intros p. rewrite Hunk. split; [|by intros [_ ?]].
      intros Hp. split; [|done]. intros ->.
      apply Hpins in Hp as (x & Hx & Hp).
      assert (is_terminal (component_of <$> components) ref_node = true) as Ht;
        [|congruence].
      apply is_terminal_true. exists (component_of x). split; [|done].
      apply list_elem_of_fmap. by exists x. }
    rewrite Hperm. lia.
Qed.

(** X18. [create_unknown_name] names a current and a voltage for every
    component and a potential for every distinct terminal id other than
    the reference node. So the number of names is the size
    [2 * num_edges + num_nodes - 1] of the tableau exactly when the
    reference node is a terminal of some component; when it is not, there
    is one name more than the tableau has rows. *)
Theorem create_unknown_name_count components (ref_node circuit_number : Z) :
  length (fst (create_unknown_name components ref_node circuit_number))
  + (if is_terminal (component_of <$> components) ref_node then 1 else 0)
  = 2 * get_num_edges (component_of <$> components)
    + get_num_nodes (component_of <$> components).
Proof.
  unfold get_num_edges. rewrite length_fmap. apply unknown_names_length.
Qed.

(** ** The rows of the component voltages *)

Lemma positions_from_filter {X} (P : X → bool) n (l : list X) :
  fst <$> filter (fun p => P (snd p) = true) (imap (fun i x => (n + i, x)) l)
  = positions_from P n l.
Proof.
  revert n. induction l as [|x l IH]; intros n; [done|].
  rewrite imap_cons. cbn [positions_from].
  rewrite (imap_ext _ (fun i x => (S n + i, x))) by (intros; cbn; f_equal; lia).
  rewrite Nat.add_0_r. destruct (P x) eqn:HP.
  - rewrite filter_cons_True by done. rewrite fmap_cons. cbn [fst]. by rewrite IH.
  - rewrite filter_cons_False by (cbn; congruence). apply IH.
Qed.

Lemma positions_from_app {X} (P : X → bool) n (l1 l2 : list X) :
  positions_from P n (l1 ++ l2)
  = positions_from P n l1 ++ positions_from P (n + length l1) l2.
Proof.
  revert n. induction l1 as [|x l1 IH]; intros n; cbn [app positions_from length].
  - by rewrite Nat.add_0_r.
  - rewrite IH. replace (S n + length l1) with (n + S (length l1)) by lia.
    by destruct (P x).
Qed.

Lemma positions_from_none {X} (P : X → bool) n (l : list X) :
  (∀ x, x ∈ l → P x = false) → positions_from P n l = [].
Proof.
  revert n. induction l as [|x l IH]; intros n Hall; [done|]. cbn [positions_from].
  rewrite (Hall x) by left. apply IH. intros y Hy. apply Hall. by right.
Qed.

Lemma positions_from_fmap {X Y} (P : Y → bool) (Q : X → bool) (f : X → Y) n (l : list X) :
  (∀ x, x ∈ l → P (f x) = Q x) →
  positions_from P n (f <$> l) = positions_from Q n l.
Proof.
  revert n. induction l as [|x l IH]; intros n Hall; [done|].
  rewrite fmap_cons. cbn [positions_from]. rewrite (Hall x) by left.
  rewrite IH by (intros y Hy; apply Hall; by right). done.
Qed.

Lemma positions_from_spec {X} (P : X → bool) n (l : list X) :
  ascending (positions_from P n l)
  ∧ ∀ r, r ∈ positions_from P n l ↔ ∃ k x, r = n + k ∧ l !! k = Some x ∧ P x = true.
Proof.
  revert n. induction l as [|x l IH]; intros n.
  - split; [apply ascending_nil|]. intros r. split; [by intros ?%elem_of_nil|].
    by intros (k & y & _ & Hk & _).
  - destruct (IH (S n)) as [Hasc Hmem]. cbn [positions_from].
    assert (∀ r, (∃ k y, r = n + k ∧ (x :: l) !! k = Some y ∧ P y = true)
                 ↔ (r = n ∧ P x = true)
                   ∨ ∃ k y, r = S n + k ∧ l !! k = Some y ∧ P y = true) as Hsplit.
    { intros r. split.
      - intros ([|k] & y & -> & Hk & HP); cbn in Hk.
        + injection Hk as <-. left. split; [lia | done].
        + right. exists k, y. split_and!; [lia | done..].
      - intros [[-> HP]|(k & y & -> & Hk & HP)].
        + exists 0, x. split_and!; [lia | done..].
        + exists (S k), y. split_and!; [lia | done..]. }
    destruct (P x) eqn:HP.
    + split.
      * apply ascending_cons; [|done]. intros y (k & ? & -> & _)%Hmem. lia.
      * intros r. rewrite elem_of_cons, Hmem, Hsplit. split.
        -- intros [->|?]; [by left | by right].
        -- intros [[-> _]|?]; [by left | by right].
    + split; [done|]. intros r. rewrite Hmem, Hsplit. split; [by right|].
      by intros [[_ ?]|?].
Qed.

Lemma mentions_app a s1 s2 : mentions a (s1 +:+ s2) = mentions a s1 || mentions a s2.
Proof.
  induction s1 as [|b s1 IH]; [done|].
  change (String b s1 +:+ s2) with (String b (s1 +:+ s2)). cbn [mentions].
  by rewrite IH, orb_assoc.
Qed.

Lemma is_prefix_mentions a p s : is_prefix (String a p) s = true → mentions a s = true.
Proof.
  destruct s as [|b s]; [done|]. cbn [is_prefix mentions].
  intros [Hab _]%andb_true_iff. by rewrite Hab.
Qed.

Lemma contains_mentions a p s : contains (String a p) s = true → mentions a s = true.
Proof.
  induction s as [|b s IH].
  - done.
  - cbn [contains]. intros [H|H]%orb_true_iff.
    + by apply (is_prefix_mentions a p).
    + cbn [mentions]. rewrite (IH H). apply orb_true_r.
Qed.

Lemma mentions_pretty_N_go x s :
  mentions "v" s = false → mentions "v" (pretty_N_go x s) = false.
Proof.
  revert s. induction (N.lt_wf_0 x) as [x _ IH]; intros s Hs.
  assert (x = 0 ∨ 0 < x)%N as [->|Hx] by lia.
  - by rewrite pretty_N_go_0.
  - rewrite pretty_N_go_step by done. apply IH; [by apply N.div_lt|].
    cbn [mentions]. rewrite Hs, orb_false_r.
    unfold pretty_N_char. by repeat case_match.
Qed.

Lemma mentions_pretty_Z (z : Z) : mentions "v" (pretty z) = false.
Proof.
  assert (∀ p : positive, mentions "v" (pretty p) = false) as Hpos.
  { intros p. unfold pretty, pretty_positive, pretty, pretty_N.
    case_decide; [done|]. by apply mentions_pretty_N_go. }
  destruct z as [|p|p]; [done | apply Hpos |].
  unfold pretty, pretty_Z. rewrite mentions_app, Hpos. done.
Qed.

Lemma no_v_not_component_voltage s :
  mentions "v" s = false → contains "v_component(" s = false.
Proof.
  intros Hs. destruct (contains "v_component(" s) eqn:Hc; [|done].
  apply contains_mentions in Hc. congruence.
Qed.

Lemma field_coupled_names e0 circuit_number node_name :
  contains "v_component(" (current_string (FieldCoupled e0)) = false
  ∧ contains "v_component(" (voltage_string (FieldCoupled e0)) = true
  ∧ contains "v_component(" (node_string circuit_number node_name) = false.
Proof.
  split_and!.
  - apply no_v_not_component_voltage. unfold current_string.
    by rewrite !mentions_app, mentions_pretty_Z.
  - reflexivity.
  - apply no_v_not_component_voltage. unfold node_string.
    by rewrite !mentions_app, !mentions_pretty_Z.
Qed.

Lemma v_comp_rows_positions components (ref_node circuit_number : Z) :
  lumped_names_plain components →
  snd (create_unknown_name components ref_node circuit_number)
  = positions_from is_field_coupled (length components) components.
Proof.
  intros Hplain. unfold create_unknown_name. cbn [snd].
  change (imap (fun i name => (i, name)))
    with (imap (fun i (name : string) => (0 + i, name))).
  rewrite (positions_from_filter (contains "v_component(")).
  rewrite !positions_from_app, !length_fmap.
  rewrite (positions_from_none _ 0 (current_string <$> components)).
  2:{ intros s (x & -> & Hx)%list_elem_of_fmap. destruct x as [c|e0].
      - by destruct (Hplain c Hx).
      - by destruct (field_coupled_names e0 0 0) as (? & _). }
  rewrite (positions_from_none _ _ (node_string circuit_number <$> _)).
  2:{ intros s (p & -> & _)%list_elem_of_fmap.
      by destruct (field_coupled_names (ElmerComponent.init "" 0 0 0 [] 0)
                     circuit_number p) as (_ & _ & ?). }
  rewrite app_nil_l, app_nil_r. cbn [Nat.add].
  apply positions_from_fmap. intros x Hx. destruct x as [c|e0].
  - by destruct (Hplain c Hx).
  - by destruct (field_coupled_names e0 0 0) as (_ & ? & _).
Qed.

(** X19. When no unknown of a lumped component contains the text
    [v_component(], the rows [create_unknown_name] returns are, in
    ascending order, exactly the voltage rows [num_edges + k] of the
    components [k] that are an [ElmerComponent]: the digits of a component
    number, a node id or a circuit number never produce that text. *)
Theorem v_comp_rows_exact components (ref_node circuit_number : Z) :
  lumped_names_plain components →
  ascending (snd (create_unknown_name components ref_node circuit_number))
  ∧ ∀ r, r ∈ snd (create_unknown_name components ref_node circuit_number)
         ↔ ∃ k e0, r = length components + k ∧ components !! k = Some (FieldCoupled e0).
Proof.
  intros Hplain. rewrite (v_comp_rows_positions _ _ _ Hplain).
  destruct (positions_from_spec is_field_coupled (length components) components)
    as [Hasc Hmem].
  split; [done|]. intros r. rewrite Hmem. split.
  - intros (k & x & -> & Hk & Hfc). destruct x as [c|e0]; [done|]. by exists k, e0.
  - intros (k & e0 & -> & Hk). by exists k, (FieldCoupled e0).
Qed.

Lemma v_comp_rows_exact_witness :
  ascending
    (snd (create_unknown_name
            [Lumped (mkComponent ClsV "V1" 1 2 (PyReal 1));
             FieldCoupled (ElmerComponent.init "Coil1" 2 1 1 [inl 1%Z] 1)] 1 1))
  ∧ ∀ r, r ∈ snd (create_unknown_name
                    [Lumped (mkComponent ClsV "V1" 1 2 (PyReal 1));
                     FieldCoupled (ElmerComponent.init "Coil1" 2 1 1 [inl 1%Z] 1)] 1 1)
         ↔ ∃ k e0,
             r = length [Lumped (mkComponent ClsV "V1" 1 2 (PyReal 1));
                         FieldCoupled (ElmerComponent.init "Coil1" 2 1 1 [inl 1%Z] 1)] + k
             ∧ [Lumped (mkComponent ClsV "V1" 1 2 (PyReal 1));
                FieldCoupled (ElmerComponent.init "Coil1" 2 1 1 [inl 1%Z] 1)] !! k
               = Some (FieldCoupled e0).
Proof.
  refine (v_comp_rows_exact
    [Lumped (mkComponent ClsV "V1" 1 2 (PyReal 1));
     FieldCoupled (ElmerComponent.init "Coil1" 2 1 1 [inl 1%Z] 1)] 1 1 _).
  intros c Hc.
  apply elem_of_cons in Hc as [[= ->]|Hc]; [split; vm_compute; reflexivity|].
  apply elem_of_cons in Hc as [Hc|Hc]; [discriminate Hc|].
  by apply elem_of_nil in Hc.
Defined.

(** ** Where the zero rows go *)

Lemma perm_of_fixed pairs i :
  (∀ z v, (z, v) ∈ pairs → i ≠ z ∧ i ≠ v) → perm_of pairs i = i.
Proof.
  induction pairs as [|[z v] pairs IH]; intros Hne; [done|]. cbn [perm_of].
  rewrite IH by (intros z' v' Hin; apply Hne; by right).
  destruct (Hne z v) as [Hz Hv]; [left|]. unfold swap_index.
  rewrite decide_False by done. by rewrite decide_False by done.
Qed.

Lemma perm_of_zip zero_rows vcomp_rows :
  NoDup zero_rows → NoDup vcomp_rows →
  (∀ m m' v z, m < m' → vcomp_rows !! m = Some v → zero_rows !! m' = Some z → v ≠ z) →
  ∀ m v z, vcomp_rows !! m = Some v → zero_rows !! m = Some z →
           perm_of (zip zero_rows vcomp_rows) v = z.
Proof.
  revert vcomp_rows. induction zero_rows as [|z0 zs IH]; intros [|v0 vs] Hndz Hndv Hcross m v z Hv Hz;
    try done.
  apply NoDup_cons in Hndz as [Hz0 Hndz]. apply NoDup_cons in Hndv as [Hv0 Hndv].
  cbn [zip zip_with perm_of]. destruct m as [|m]; cbn in Hv, Hz.
  - injection Hv as <-. injection Hz as <-.
    rewrite perm_of_fixed.
    + unfold swap_index. by rewrite decide_True.
    + intros z' v' Hin. split.
      * apply elem_of_zip_l in Hin. apply list_elem_of_lookup in Hin as [m' Hm'].
        apply (Hcross 0 (S m') v0 z'); [lia | done..].
      * apply elem_of_zip_r in Hin. by intros ->.
  - assert (perm_of (zip zs vs) v = z) as ->.
    { apply (IH vs Hndz Hndv) with (m := m); [|done..].
      intros a b v' z' Hab Hv' Hz'. apply (Hcross (S a) (S b) v' z'); [lia | done..]. }
    unfold swap_index. rewrite decide_False.
    + rewrite decide_False; [done|]. intros ->. apply Hz0.
      by eapply list_elem_of_lookup_2.
    + intros ->. apply (Hcross 0 (S m) v0 v0); [lia | done..].
Qed.

Lemma swap_rows_ncols {T} (A A' : ndarray T) z v :
  swap_rows A z v = Ok A' → nd_ncols A' = nd_ncols A.
Proof.
  unfold swap_rows. intros Hrun.
  apply bind_Ok_inv in Hrun as (rv & _ & Hrun).
  apply bind_Ok_inv in Hrun as (rz & _ & Hrun). by injection Hrun as <-.
Qed.

Lemma swap_loop_ncols {T} (pairs : list (nat * nat)) (B A s B' A' s' : ndarray T) :
  for_each pairs
    (fun '(zrow, vcomprow) '(elmer_Bmat, elmer_Amat, elmer_source) =>
       elmer_Bmat ← swap_rows elmer_Bmat zrow vcomprow;
       elmer_Amat ← swap_rows elmer_Amat zrow vcomprow;
       elmer_source ← swap_rows elmer_source zrow vcomprow;
       Ok (elmer_Bmat, elmer_Amat, elmer_source))
    (B, A, s) = Ok (B', A', s') →
  nd_ncols B' = nd_ncols B ∧ nd_ncols A' = nd_ncols A.
Proof.
  revert B A s. induction pairs as [|[z v] pairs IH]; intros B A s Hrun.
  - by injection Hrun as <- <- <-.
  - cbn [for_each] in Hrun. apply bind_Ok_inv in Hrun as ([[B1 A1] s1] & H1 & Hrun).
    apply bind_Ok_inv in H1 as (B1' & HB1 & H1).
    apply bind_Ok_inv in H1 as (A1' & HA1 & H1).
    apply bind_Ok_inv in H1 as (s1' & Hs1 & H1). injection H1 as <- <- <-.
    destruct (IH _ _ _ Hrun) as [HB HA].
    rewrite HB, HA. split; by eapply swap_rows_ncols.
Qed.

Lemma format_matrix_rows {T} (M1_str M2_str b_str : ndarray T)
    (vcomp_rows zero_rows : list nat) :
  NoDup zero_rows → NoDup vcomp_rows →
  (∀ i, i ∈ zero_rows ++ vcomp_rows →
        i < nd_nrows M1_str ∧ i < nd_nrows M2_str ∧ i < nd_nrows b_str) →
  (∀ m m' v z, m < m' → vcomp_rows !! m = Some v → zero_rows !! m' = Some z → v ≠ z) →
  ∃ elmer_Amat elmer_Bmat elmer_source,
    elmer_format_matrix M1_str M2_str b_str vcomp_rows zero_rows
    = Ok (elmer_Amat, elmer_Bmat, elmer_source)
    ∧ (nd_ncols elmer_Bmat = nd_ncols M1_str ∧ nd_ncols elmer_Amat = nd_ncols M2_str)
    ∧ ∀ m v z, vcomp_rows !! m = Some v → zero_rows !! m = Some z →
        nd_rows elmer_Bmat !! v = nd_rows M1_str !! z
        ∧ nd_rows elmer_Amat !! v = nd_rows M2_str !! z
        ∧ nd_rows elmer_source !! v = nd_rows b_str !! z.
Proof.
  intros Hndz Hndv Hrange Hcross. unfold elmer_format_matrix.
  destruct (swap_loop_spec (zip zero_rows vcomp_rows) M1_str M2_str b_str)
    as (B' & A' & s' & Hrun & (HlB & HlA & Hls) & Hcell).
  { intros z v Hin.
    pose proof (Hrange z) as Hz. pose proof (Hrange v) as Hv.
    rewrite elem_of_app in Hz, Hv.
    destruct Hz as (? & ? & ?); [left; by eapply elem_of_zip_l|].
    destruct Hv as (? & ? & ?); [right; by eapply elem_of_zip_r|]. done. }
  destruct (swap_loop_ncols _ _ _ _ _ _ _ Hrun) as [HcB HcA].
  rewrite Hrun, bind_Ok. exists A', B', s'. split_and!; [done..|].
  - intros m v z Hv Hz. destruct (Hcell v) as (H1 & H2 & H3).
    by rewrite H1, H2, H3, (perm_of_zip _ _ Hndz Hndv Hcross m v z Hv Hz).
Qed.

(** X20. When neither index list has a duplicate, all indices are row
    indices of the three inputs, and no voltage row is a zero row listed
    further down its own list, [elmer_format_matrix] puts the [m]-th zero
    row at the [m]-th voltage row, in the stiffness matrix, the damping
    matrix and the source vector alike; pairs beyond the shorter list are
    left alone. *)
Theorem elmer_format_matrix_fills_vcomp_rows {T} (M1_str M2_str b_str : ndarray T)
    (vcomp_rows zero_rows : list nat) :
  NoDup zero_rows → NoDup vcomp_rows →
  (∀ i, i ∈ zero_rows ++ vcomp_rows →
        i < nd_nrows M1_str ∧ i < nd_nrows M2_str ∧ i < nd_nrows b_str) →
  (∀ m m' v z, m < m' → vcomp_rows !! m = Some v → zero_rows !! m' = Some z → v ≠ z) →
  ∃ elmer_Amat elmer_Bmat elmer_source,
    elmer_format_matrix M1_str M2_str b_str vcomp_rows zero_rows
    = Ok (elmer_Amat, elmer_Bmat, elmer_source)
    ∧ ∀ m v z, vcomp_rows !! m = Some v → zero_rows !! m = Some z →
        nd_rows elmer_Bmat !! v = nd_rows M1_str !! z
        ∧ nd_rows elmer_Amat !! v = nd_rows M2_str !! z
        ∧ nd_rows elmer_source !! v = nd_rows b_str !! z.
Proof.
  intros Hndz Hndv Hrange Hcross.
  destruct (format_matrix_rows M1_str M2_str b_str vcomp_rows zero_rows
              Hndz Hndv Hrange Hcross) as (A' & B' & s' & Hrun & _ & Hrows).
  by exists A', B', s'.
Qed.

Lemma elmer_format_matrix_fills_vcomp_rows_witness :
  ∃ elmer_Amat elmer_Bmat elmer_source,
    elmer_format_matrix
      (NdArray 2 [["1"; "0"]; ["R1"; "-1"]; ["0"; "0"]]%string)
      (NdArray 2 [["0"; "0"]; ["0"; "-L1"]; ["0"; "0"]]%string)
      (NdArray 1 [["0"]; ["-V1"]; ["0"]]%string) [1] [2]
    = Ok (elmer_Amat, elmer_Bmat, elmer_source)
    ∧ ∀ m v z, [1] !! m = Some v → [2] !! m = Some z →
        nd_rows elmer_Bmat !! v = [["1"; "0"]; ["R1"; "-1"]; ["0"; "0"]]%string !! z
        ∧ nd_rows elmer_Amat !! v = [["0"; "0"]; ["0"; "-L1"]; ["0"; "0"]]%string !! z
        ∧ nd_rows elmer_source !! v = [["0"]; ["-V1"]; ["0"]]%string !! z.
Proof.
  refine (elmer_format_matrix_fills_vcomp_rows
    (NdArray 2 [["1"; "0"]; ["R1"; "-1"]; ["0"; "0"]]%string)
    (NdArray 2 [["0"; "0"]; ["0"; "-L1"]; ["0"; "0"]]%string)
    (NdArray 1 [["0"]; ["-V1"]; ["0"]]%string) [1] [2] _ _ _ _).
  - apply (bool_decide_unpack (NoDup [2])). vm_compute. exact I.
  - apply (bool_decide_unpack (NoDup [1])). vm_compute. exact I.
  - intros i Hi. unfold nd_nrows. cbn [nd_rows length].
    repeat (apply elem_of_cons in Hi as [->|Hi]; [lia|]). by apply elem_of_nil in Hi.
  - intros [|m] [|m'] v z Hlt Hv Hz; cbn in Hv, Hz; (lia || done).
Defined.

(** ** Row exchanges out of range *)

Lemma swap_rows_inv {T} (A : ndarray T) z v :
  (∃ A', swap_rows A z v = Ok A' ∧ nd_nrows A' = nd_nrows A
         ∧ z < nd_nrows A ∧ v < nd_nrows A)
  ∨ (swap_rows A z v = Err IndexError ∧ (nd_nrows A ≤ z ∨ nd_nrows A ≤ v)).
Proof.
  unfold swap_rows, getitem, nd_nrows.
  destruct (nd_rows A !! v) as [rv|] eqn:Hv.
  - destruct (nd_rows A !! z) as [rz|] eqn:Hz.
    + left. eexists. split_and!; [reflexivity | | by eapply lookup_lt_Some..].
      cbn [nd_rows]. by rewrite !length_insert.
    + right. split; [done|]. left. by apply lookup_ge_None.
  - right. split; [done|]. right. by apply lookup_ge_None.
Qed.

Lemma swap_loop_index_error {T} (pairs : list (nat * nat)) (B A s : ndarray T) :
  (∃ z v, (z, v) ∈ pairs ∧ (nd_nrows B ≤ z ∨ nd_nrows B ≤ v)) →
  for_each pairs
    (fun '(zrow, vcomprow) '(elmer_Bmat, elmer_Amat, elmer_source) =>
       elmer_Bmat ← swap_rows elmer_Bmat zrow vcomprow;
       elmer_Amat ← swap_rows elmer_Amat zrow vcomprow;
       elmer_source ← swap_rows elmer_source zrow vcomprow;
       Ok (elmer_Bmat, elmer_Amat, elmer_source))
    (B, A, s) = Err IndexError.
Proof.
  intros (z & v & Hin & Hbad). revert B A s Hbad.
  induction pairs as [|[z0 v0] pairs IH]; intros B A s Hbad;
    [by apply elem_of_nil in Hin|].
  cbn [for_each].
  destruct (swap_rows_inv B z0 v0) as [(B1 & -> & HlB & Hz0 & Hv0)|[-> _]]; [|done].
  rewrite bind_Ok.
  destruct (swap_rows_inv A z0 v0) as [(A1 & -> & _)|[-> _]]; [|done].
  rewrite bind_Ok.
  destruct (swap_rows_inv s z0 v0) as [(s1 & -> & _)|[-> _]]; [|done].
  rewrite !bind_Ok.
  apply elem_of_cons in Hin as [[= -> ->]|Hin]; [lia|].
  apply IH; [done|]. by rewrite HlB.
Qed.

(** X21. When one of the paired indices is not a row index of the
    stiffness matrix, [elmer_format_matrix] raises [IndexError]. Indices
    beyond the shorter of the two lists are not paired and are never
    looked at. *)
Theorem elmer_format_matrix_index_error {T} (M1_str M2_str b_str : ndarray T)
    (vcomp_rows zero_rows : list nat) :
  (∃ m z v, zero_rows !! m = Some z ∧ vcomp_rows !! m = Some v
            ∧ (nd_nrows M1_str ≤ z ∨ nd_nrows M1_str ≤ v)) →
  elmer_format_matrix M1_str M2_str b_str vcomp_rows zero_rows = Err IndexError.
Proof.
  intros (m & z & v & Hz & Hv & Hbad). unfold elmer_format_matrix.
  rewrite (swap_loop_index_error (zip zero_rows vcomp_rows)); [done|].
  exists z, v. split; [|done].
  apply list_elem_of_lookup. exists m. apply lookup_zip_with_Some. by exists z, v.
Qed.

Lemma elmer_format_matrix_index_error_witness :
  elmer_format_matrix
    (NdArray 1 [["1"]; ["0"]]%string) (NdArray 1 [["0"]; ["0"]]%string)
    (NdArray 1 [["0"]; ["0"]]%string) [5] [1]
  = Err IndexError.
Proof.
  refine (elmer_format_matrix_index_error
    (NdArray 1 [["1"]; ["0"]]%string) (NdArray 1 [["0"]; ["0"]]%string)
    (NdArray 1 [["0"]; ["0"]]%string) [5] [1] _).
  exists 0, 1, 5. split_and!; [reflexivity..|]. right. unfold nd_nrows. cbn. lia.
Defined.

(** ** One circuit, from the components to the reordered matrices *)

(** Terminal ids that are [1 .. n] for [n] distinct ids leave no id out. *)
Lemma every_node_is_a_terminal components :
  pins_in_range components (get_num_nodes components) →
  ∀ p, (1 ≤ p ≤ Z.of_nat (get_num_nodes components))%Z →
       ∃ c, c ∈ components ∧ (p = pin1 c ∨ p = pin2 c).
Proof.
  intros Hpins p Hp. unfold get_num_nodes in *.
  destruct (unique_nodes_fold components [] (NoDup_nil_2)) as [Hnd Hmem].
  set (unique := foldl _ [] components) in *.
  set (K := (fun i : nat => Z.of_nat i) <$> seq 1 (length unique)).
  assert (unique ≡ₚ K) as Hperm.
  { apply submseteq_length_Permutation.
    - apply NoDup_submseteq; [done|]. intros x Hx.
      apply Hmem in Hx as [Hx|(c & Hc & Hx)]; [by apply elem_of_nil in Hx|].
      apply list_elem_of_fmap. exists (Z.to_nat x).
      destruct (Hpins c Hc) as [H1 H2]. split; [destruct Hx; lia|].
      apply elem_of_seq. destruct Hx; lia.
    - unfold K. by rewrite length_fmap, length_seq. }
  assert (p ∈ unique) as Hin.
  { rewrite Hperm. apply list_elem_of_fmap. exists (Z.to_nat p).
    split; [lia|]. apply elem_of_seq. lia. }
  apply Hmem in Hin as [Hin|?]; [by apply elem_of_nil in Hin | done].
Qed.

Lemma ascending_tail x l : ascending (x :: l) → ascending l ∧ ∀ y, y ∈ l → x < y.
Proof.
  intros Hasc. split.
  - intros a b i j Ha Hb Hab. apply (Hasc (S a) (S b)); [done..|lia].
  - intros y [k Hk]%list_elem_of_lookup. apply (Hasc 0 (S k)); [done..|lia].
Qed.

Lemma ascending_ext l k :
  ascending l → ascending k → (∀ x, x ∈ l ↔ x ∈ k) → l = k.
Proof.
  revert k. induction l as [|x l IH]; intros [|y k] Hl Hk Hmem.
  - done.
  - exfalso. eapply elem_of_nil, Hmem. left.
  - exfalso. eapply elem_of_nil, Hmem. left.
  - apply ascending_tail in Hl as [Hl Hx]. apply ascending_tail in Hk as [Hk Hy].
    assert (x = y) as ->.
    { assert (x ∈ y :: k) as [->|Hxk]%elem_of_cons by (apply Hmem; left); [done|].
      assert (y ∈ x :: l) as [->|Hyl]%elem_of_cons by (apply Hmem; left); [done|].
      specialize (Hx y Hyl). specialize (Hy x Hxk). lia. }
    f_equal. apply IH; [done..|]. intros z. split.
    + intros Hz. assert (z ∈ y :: k) as [->|?]%elem_of_cons by (apply Hmem; by right);
        [|done]. specialize (Hx y Hz). lia.
    + intros Hz. assert (z ∈ y :: l) as [->|?]%elem_of_cons by (apply Hmem; by right);
        [|done]. specialize (Hy y Hz). lia.
Qed.

Lemma ascending_shift n l : ascending l → ascending ((fun v => v + n) <$> l).
Proof.
  intros Hl a b i j Ha Hb Hab. rewrite list_lookup_fmap in Ha, Hb.
  destruct (l !! a) as [i'|] eqn:Hi; [|done].
  destruct (l !! b) as [j'|] eqn:Hj; [|done].
  injection Ha as <-. injection Hb as <-.
  pose proof (Hl a b i' j' Hi Hj Hab). lia.
Qed.

Lemma zero_row_moved (M1 M2 b B A s : ndarray string) z v :
  nd_ncols B = nd_ncols M1 →
  nd_rows B !! v = nd_rows M1 !! z → nd_rows A !! v = nd_rows M2 !! z →
  nd_rows s !! v = nd_rows b !! z →
  zero_row M1 M2 b z → zero_row B A s v.
Proof.
  intros Hc HB HA Hs [Hall Hb]. unfold zero_row, cell in *.
  rewrite Hc, HB, HA, Hs. done.
Qed.



(** ** The numeric track on a well-formed circuit *)

Lemma isinstance_indices_NoDup k components : NoDup (isinstance_indices k components).
Proof.
  apply ascending_NoDup. unfold isinstance_indices.
  by destruct (offset_indices_ascending k 0 components) as [? _].
Qed.


